(** * LE_ASCII TRANSFORMER: the image-to-glyph conversion of [AsciiCanvas]

    A shallow embedding of [processImage] (components/AsciiCanvas.tsx) and of
    the settings record of types.ts, written once over an interface of
    JavaScript numbers and instantiated twice:

    - [b64]: IEEE 754 binary64 with round-to-nearest-even, the arithmetic a
      JavaScript engine performs and so the arithmetic of the program.  The
      theorems about numbers are proved here: every operator of [SpecFloat]
      is shown to round the exact result to the nearest double, and the
      geometry and the tone of a cell are followed through these roundings.
    - [xnum]: exact rational arithmetic extended with [Infinity], [-Infinity]
      and [NaN].  Every operator has its JavaScript meaning except that finite
      results are not rounded: an idealisation of the program, in which the
      scenarios are evaluated next to binary64 and which the theorems that
      hold in either arithmetic cover too.

    The image service [generateSourceImage] (services/geminiService.ts) and
    the handler [handleGenerateAi] of App.tsx are embedded too, with the
    remote call as a parameter and their side effects as a list. *)

From Stdlib Require Import ZArith QArith Qround Qreduction Qminmax Qabs Qpower.
From Stdlib Require Import Lqa Lia Bool List.
From Stdlib Require Import String Ascii.
From Stdlib Require Import Floats.SpecFloat.
Import ListNotations.

Set Implicit Arguments.

(** ** JavaScript numbers *)

Class JsNumber (num : Type) : Type := {
  (** an integer literal, or an integer-valued DOM attribute *)
  of_Z : Z -> num;
  (** the decimal literal [m / 10^k], e.g. [dec 55 2] for [0.55] *)
  dec : Z -> nat -> num;
  (** the value [undefined] takes in arithmetic *)
  nan : num;
  add : num -> num -> num;
  sub : num -> num -> num;
  mul : num -> num -> num;
  div : num -> num -> num;
  (** [Math.floor], [Math.max], [Math.min] *)
  floor : num -> num;
  jsmax : num -> num -> num;
  jsmin : num -> num -> num;
  (** [a < b] *)
  ltb : num -> num -> bool;
  (** the integer a number denotes, if it is finite and integral: what an
      array index or a canvas dimension is read from *)
  to_int : num -> option Z
}.

Declare Scope js_scope.
Delimit Scope js_scope with js.
Infix "+" := add : js_scope.
Infix "-" := sub : js_scope.
Infix "*" := mul : js_scope.
Infix "/" := div : js_scope.
Infix "<?" := ltb : js_scope.

(** *** Exact arithmetic with the special values *)

Inductive xnum : Type :=
| XFin (q : Q)
| XPInf
| XNInf
| XNaN.

Definition xfin (q : Q) : xnum := XFin (Qred q).

Definition xneg (x : xnum) : xnum :=
  match x with
  | XFin q => xfin (- q)
  | XPInf => XNInf
  | XNInf => XPInf
  | XNaN => XNaN
  end.

Definition xadd (x y : xnum) : xnum :=
  match x, y with
  | XNaN, _ | _, XNaN => XNaN
  | XPInf, XNInf | XNInf, XPInf => XNaN
  | XPInf, _ | _, XPInf => XPInf
  | XNInf, _ | _, XNInf => XNInf
  | XFin a, XFin b => xfin (a + b)
  end.

Definition xsub (x y : xnum) : xnum := xadd x (xneg y).

(** The sign of a product or quotient with an infinite operand. *)
Definition xsigned (c : comparison) : xnum :=
  match c with
  | Gt => XPInf
  | Lt => XNInf
  | Eq => XNaN
  end.

Definition xsign (x : xnum) : comparison :=
  match x with
  | XFin q => q ?= 0
  | XPInf => Gt
  | XNInf => Lt
  | XNaN => Eq
  end.

Definition sign_mul (a b : comparison) : comparison :=
  match a, b with
  | Eq, _ | _, Eq => Eq
  | Lt, Lt | Gt, Gt => Gt
  | _, _ => Lt
  end.

Definition xmul (x y : xnum) : xnum :=
  match x, y with
  | XNaN, _ | _, XNaN => XNaN
  | XFin a, XFin b => xfin (a * b)
  | _, _ => xsigned (sign_mul (xsign x) (xsign y))
  end.

(** Zero carries no sign here: a zero divisor is taken as [+0], which is the
    zero that [a - a] and [255 * 0] produce. *)
Definition xdiv (x y : xnum) : xnum :=
  match x, y with
  | XNaN, _ | _, XNaN => XNaN
  | XFin a, XFin b =>
      if Qeq_bool b 0 then xsigned (xsign x) else xfin (a / b)
  | XFin _, _ => XFin 0
  | _, XFin b =>
      if Qeq_bool b 0 then x
      else xsigned (sign_mul (xsign x) (xsign y))
  | _, _ => XNaN
  end.

Definition xfloor (x : xnum) : xnum :=
  match x with
  | XFin q => XFin (inject_Z (Qfloor q))
  | _ => x
  end.

Definition xltb (x y : xnum) : bool :=
  match x, y with
  | XNaN, _ | _, XNaN => false
  | XFin a, XFin b => match a ?= b with Lt => true | _ => false end
  | XNInf, XNInf | XPInf, _ => false
  | XNInf, _ => true
  | _, XPInf => true
  | _, XNInf => false
  end.

(** [Math.max] and [Math.min] return [NaN] as soon as one argument is. *)
Definition xmax (x y : xnum) : xnum :=
  match x, y with
  | XNaN, _ | _, XNaN => XNaN
  | _, _ => if xltb x y then y else x
  end.

Definition xmin (x y : xnum) : xnum :=
  match x, y with
  | XNaN, _ | _, XNaN => XNaN
  | _, _ => if xltb y x then y else x
  end.

Definition xto_int (x : xnum) : option Z :=
  match x with
  | XFin q => if Qeq_bool q (inject_Z (Qfloor q)) then Some (Qfloor q) else None
  | _ => None
  end.

#[export] Instance xnum_number : JsNumber xnum := {
  of_Z z := XFin (inject_Z z);
  dec m k := xfin (m # Pos.of_nat (10 ^ k));
  nan := XNaN;
  add := xadd;
  sub := xsub;
  mul := xmul;
  div := xdiv;
  floor := xfloor;
  jsmax := xmax;
  jsmin := xmin;
  ltb := xltb;
  to_int := xto_int
}.

(** *** IEEE 754 binary64 *)

Module B64.
Definition prec : Z := 53.
Definition emax : Z := 1024.

Definition of_Z (z : Z) : spec_float := binary_normalize prec emax z 0 false.

(** A decimal literal is the correctly rounded quotient of two integers that
    are themselves exact, which is the double the literal denotes. *)
Definition dec (m : Z) (k : nat) : spec_float :=
  SFdiv prec emax (of_Z m) (of_Z (10 ^ Z.of_nat k)).

Definition floor (x : spec_float) : spec_float :=
  match x with
  | S754_finite s m e =>
      if (0 <=? e)%Z then x
      else
        match Z.shiftr (cond_Zopp s (Zpos m)) (- e) with
        | Z0 => S754_zero s
        | z => binary_normalize prec emax z 0 s
        end
  | _ => x
  end.

Definition is_neg_zero (x : spec_float) : bool :=
  match x with S754_zero true => true | _ => false end.

Definition is_pos_zero (x : spec_float) : bool :=
  match x with S754_zero false => true | _ => false end.

Definition max (x y : spec_float) : spec_float :=
  match SFcompare x y with
  | None => S754_nan
  | Some Lt => y
  | Some Gt => x
  | Some Eq => if is_neg_zero x then y else x
  end.

Definition min (x y : spec_float) : spec_float :=
  match SFcompare x y with
  | None => S754_nan
  | Some Lt => x
  | Some Gt => y
  | Some Eq => if is_pos_zero x then y else x
  end.

Definition to_int (x : spec_float) : option Z :=
  match x with
  | S754_zero _ => Some 0%Z
  | S754_finite s m e =>
      if (0 <=? e)%Z then Some (cond_Zopp s (Zpos m) * 2 ^ e)%Z
      else
        let z := Z.shiftr (cond_Zopp s (Zpos m)) (- e) in
        if (Z.shiftl z (- e) =? cond_Zopp s (Zpos m))%Z then Some z else None
  | _ => None
  end.
End B64.

Definition b64 : Type := spec_float.

#[export] Instance b64_number : JsNumber b64 := {
  of_Z := B64.of_Z;
  dec := B64.dec;
  nan := S754_nan;
  add := SFadd B64.prec B64.emax;
  sub := SFsub B64.prec B64.emax;
  mul := SFmul B64.prec B64.emax;
  div := SFdiv B64.prec B64.emax;
  floor := B64.floor;
  jsmax := B64.max;
  jsmin := B64.min;
  ltb := SFltb;
  to_int := B64.to_int
}.

(** ** The settings record (types.ts) *)

Inductive CharSetMode : Type := halftone | ascii | binary | blocks | detail.

Record AsciiSettings (num : Type) : Type := {
  resolution : num;
  contrast : num;
  brightness : num;
  invert : bool;
  charSetMode : CharSetMode
}.

(** ** Grid geometry ([processImage], the lines before the canvas is sized) *)

Record Geometry (num : Type) : Type := {
  fontSize : num;
  fontWidth : num;
  fontHeight : num;
  cols : num;
  safeCols : num;
  rows : num
}.

Section Geometry.
Context {num : Type} `{JsNumber num}.
Local Open Scope js_scope.

Definition minFont : num := of_Z 5.
Definition maxFont : num := of_Z 20.

Definition geometry (width height : num) (settings : AsciiSettings num)
  : Geometry num :=
  let fontSize :=
    jsmax minFont (floor (maxFont - (resolution settings * (maxFont - minFont)))) in
  let fontWidth := fontSize * dec 55 2 in
  let fontHeight := fontSize in
  let ratio := height / width in
  let cols := floor (width / (fontWidth / resolution settings)) in
  let safeCols := jsmin (jsmax cols (of_Z 40)) (of_Z 600) in
  let rows := floor (safeCols * ratio * (fontWidth / fontHeight)) in
  {| fontSize := fontSize; fontWidth := fontWidth; fontHeight := fontHeight;
     cols := cols; safeCols := safeCols; rows := rows |}.
End Geometry.

(** ** Character ramps ([CHAR_SETS]) *)

(** A JavaScript string is a sequence of UTF-16 code units; [chars[i]] is the
    unit at index [i], or [undefined] outside the string. *)
Definition code_unit : Type := N.
Definition js_string : Type := list code_unit.

Definition units (s : string) : js_string :=
  List.map N_of_ascii (list_ascii_of_string s).

Definition SPACE : code_unit := 32%N.

Definition CHAR_SETS (mode : CharSetMode) : js_string :=
  match mode with
  | halftone => units " ." ++ [183%N] ++ units ":+*?%S#@"
  | detail =>
      units " `.-"
      ++ units "':_,^=;><+!rc*/z?sLTv)J7(|Fi{C}fI31tlu[neoZ5Yxjya]2ESwqkP6h9d4VpOGbUAKXHm8RD#$Bg0MNWQ%&@"
  | ascii =>
      units " .`^" ++ [34%N]
      ++ units ",:;Il!i~+_-?][}{1)(|\/tfjrxnuvczXYUJCLQ0OZmwqpdbkhao*#MW&8%B@$"
  | binary => units " 01"
  | blocks => [32%N; 9617%N; 9618%N; 9619%N; 9608%N]
  end.

(** [s[i]] for a number [i]: the key is the integer the number denotes. *)
Definition char_at {num : Type} `{JsNumber num} (s : js_string) (i : num)
  : option code_unit :=
  match to_int i with
  | Some z => if (0 <=? z)%Z then nth_error s (Z.to_nat z) else None
  | None => None
  end.

(** ** The tone-to-glyph mapper (the body of the two loops) *)

Inductive Cell : Type :=
| Glyph (c : code_unit)
| Empty.

Section Tone.
Context {num : Type} `{JsNumber num}.
Local Open Scope js_scope.

Definition contrastFactor (settings : AsciiSettings num) : num :=
  (of_Z 259 * (contrast settings * of_Z 255 + of_Z 255))
  / (of_Z 255 * (of_Z 259 - contrast settings * of_Z 255)).

(** [data[offset]] on the [Uint8ClampedArray] of the sampled bitmap. *)
Definition sample (data : list Z) (offset : Z) : num :=
  match nth_error data (Z.to_nat offset) with
  | Some v => of_Z v
  | None => nan
  end.

(** The contrast line, [gray = contrastFactor * (gray - 128) + 128]. *)
Definition applyContrast (contrastFactor gray : num) : num :=
  contrastFactor * (gray - of_Z 128) + of_Z 128.

(** The tone of one cell, from the luma line to the inversion. *)
Definition cellGray (settings : AsciiSettings num) (contrastFactor : num)
    (r g b : num) : num :=
  let gray := dec 299 3 * r + dec 587 3 * g + dec 114 3 * b in
  let gray := gray + brightness settings in
  let gray := applyContrast contrastFactor gray in
  let gray := jsmax (of_Z 0) (jsmin (of_Z 255) gray) in
  if invert settings then of_Z 255 - gray else gray.

Definition cellIndex (settings : AsciiSettings num) (contrastFactor : num)
    (charsLen : num) (r g b : num) : num :=
  let gray := cellGray settings contrastFactor r g b in
  floor ((gray / of_Z 255) * (charsLen - of_Z 1)).

Definition length_of (s : js_string) : num := of_Z (Z.of_nat (List.length s)).

Definition cellChar (settings : AsciiSettings num) (r g b : num)
  : option code_unit :=
  let chars := CHAR_SETS (charSetMode settings) in
  char_at chars
    (cellIndex settings (contrastFactor settings) (length_of chars) r g b).

(** [if (char && char !== ' ')]: an undefined character and the space are
    both left unpainted. *)
Definition paint (char : option code_unit) : Cell :=
  match char with
  | Some c => if (c =? SPACE)%N then Empty else Glyph c
  | None => Empty
  end.

Definition cellAt (settings : AsciiSettings num) (safeCols : Z)
    (data : list Z) (y x : nat) : Cell :=
  let offset := ((Z.of_nat y * safeCols + Z.of_nat x) * 4)%Z in
  let r := sample data offset in
  let g := sample data (offset + 1) in
  let b := sample data (offset + 2) in
  paint (cellChar settings r g b).

(** The grid of glyphs the two loops visit, row by row. *)
Definition glyphGrid (settings : AsciiSettings num) (safeCols rows : Z)
    (data : list Z) : list (list Cell) :=
  List.map
    (fun y => List.map (cellAt settings safeCols data y) (seq 0 (Z.to_nat safeCols)))
    (seq 0 (Z.to_nat rows)).
End Tone.

(** ** The canvas and [processImage] *)

Inductive Color : Type := Black | White.
Inductive TextBaseline : Type := Alphabetic | Top.
Inductive TextAlign : Type := Start | Left.

Inductive DrawOp (num : Type) : Type :=
| FillRect (style : Color) (x y w h : num)
| FillText (style : Color) (text : code_unit) (x y : num).

Arguments FillRect {num} style x y w h.
Arguments FillText {num} style text x y.

(** The visible canvas with its 2d context: the drawing state and the calls
    painted since the bitmap was last cleared. *)
Record Canvas (num : Type) : Type := {
  width : num;
  height : num;
  fillStyle : Color;
  font : num;
  textBaseline : TextBaseline;
  textAlign : TextAlign;
  painted : list (DrawOp num)
}.

(** A decoded image: its size, and the pixels [drawImage] followed by
    [getImageData] yields for a target of [sw] by [sh] cells (RGBA, row
    major). *)
Record Image : Type := {
  img_width : Z;
  img_height : Z;
  resample : Z -> Z -> list Z
}.

Inductive Outcome (num : Type) : Type :=
| Rendered (canvas : Canvas num)
| IndexSizeError (canvas : Canvas num).

Arguments Rendered {num} canvas.
Arguments IndexSizeError {num} canvas.

Section Process.
Context {num : Type} `{JsNumber num}.
Local Open Scope js_scope.

(** What an [unsigned long] attribute keeps of a number: its integer part
    modulo [2^32], and 0 for what is not a finite number. *)
Definition toUnsignedLong (v : num) : num :=
  let truncated :=
    if v <? of_Z 0 then of_Z 0 - floor (of_Z 0 - v) else floor v in
  match to_int truncated with
  | Some z => of_Z (z mod 2 ^ 32)
  | None => of_Z 0
  end.

(** Assigning [canvas.width] or [canvas.height] clears the bitmap and
    resets the context to its defaults. *)
Definition reset (w h : num) : Canvas num :=
  {| width := toUnsignedLong w; height := toUnsignedLong h;
     fillStyle := Black; font := of_Z 10;
     textBaseline := Alphabetic; textAlign := Start; painted := [] |}.

Definition set_fillStyle (c : Color) (cv : Canvas num) : Canvas num :=
  {| width := width cv; height := height cv; fillStyle := c; font := font cv;
     textBaseline := textBaseline cv; textAlign := textAlign cv;
     painted := painted cv |}.

Definition set_text (px : num) (cv : Canvas num) : Canvas num :=
  {| width := width cv; height := height cv; fillStyle := fillStyle cv;
     font := px; textBaseline := Top; textAlign := Left;
     painted := painted cv |}.

Definition draw (op : DrawOp num) (cv : Canvas num) : Canvas num :=
  {| width := width cv; height := height cv; fillStyle := fillStyle cv;
     font := font cv; textBaseline := textBaseline cv;
     textAlign := textAlign cv; painted := painted cv ++ [op] |}.

Definition fillRect (x y w h : num) (cv : Canvas num) : Canvas num :=
  draw (FillRect (fillStyle cv) x y w h) cv.

Definition fillText (text : code_unit) (x y : num) (cv : Canvas num)
  : Canvas num :=
  draw (FillText (fillStyle cv) text x y) cv.

(** [getImageData(0, 0, sw, sh)] on the off-screen canvas the image was drawn
    to at that size: the sizes, which come out of [Math.floor], are read as
    integers, with anything that is not a finite number read as 0, and a zero
    size throws. *)
Definition getImageData (img : Image) (sw sh : num) : option (Z * Z * list Z) :=
  let w := match to_int sw with Some z => z | None => 0%Z end in
  let h := match to_int sh with Some z => z | None => 0%Z end in
  if ((w =? 0) || (h =? 0))%Z then None
  else Some (w, h, resample img (Z.abs w) (Z.abs h)).

(** One turn of the inner loop. *)
Definition drawCell (settings : AsciiSettings num) (geo : Geometry num)
    (safeCols : Z) (data : list Z) (y x : nat) (cv : Canvas num)
  : Canvas num :=
  match cellAt settings safeCols data y x with
  | Glyph char =>
      fillText char
        (of_Z (Z.of_nat x) * fontWidth geo) (of_Z (Z.of_nat y) * fontHeight geo)
        (set_fillStyle White cv)
  | Empty => cv
  end.

Definition drawRow (settings : AsciiSettings num) (geo : Geometry num)
    (safeCols : Z) (data : list Z) (cv : Canvas num) (y : nat)
  : Canvas num :=
  fold_left (fun cv x => drawCell settings geo safeCols data y x cv)
    (seq 0 (Z.to_nat safeCols)) cv.

Definition processImage (img : Image) (canvas : Canvas num)
    (settings : AsciiSettings num) : Outcome num :=
  let geo := geometry (of_Z (img_width img)) (of_Z (img_height img)) settings in
  match getImageData img (safeCols geo) (rows geo) with
  | None => IndexSizeError canvas
  | Some (c, r, data) =>
      let cv := reset (safeCols geo * fontWidth geo) (rows geo * fontHeight geo) in
      let cv := set_fillStyle Black cv in
      let cv := fillRect (of_Z 0) (of_Z 0) (width cv) (height cv) cv in
      let cv := set_text (fontSize geo) cv in
      Rendered (fold_left (drawRow settings geo c data) (seq 0 (Z.to_nat r)) cv)
  end.

(** The glyph grid of a run: what the loops decide cell by cell. *)
Definition render (img : Image) (settings : AsciiSettings num)
  : option (list (list Cell)) :=
  let geo := geometry (of_Z (img_width img)) (of_Z (img_height img)) settings in
  match getImageData img (safeCols geo) (rows geo) with
  | None => None
  | Some (c, r, data) => Some (glyphGrid settings c r data)
  end.
End Process.

(** ** The settings of the application and the images of the scenarios *)

(** The initial state of [App]. *)
Definition defaultSettings {num : Type} `{JsNumber num} : AsciiSettings num :=
  {| resolution := dec 7 1; contrast := dec 11 1; brightness := of_Z 0;
     invert := false; charSetMode := detail |}.

(** The updates the sliders and the toggle of [App] make,
    [{...settings, field: value}]. *)
Definition withResolution {num : Type} (v : num) (s : AsciiSettings num)
  : AsciiSettings num :=
  {| resolution := v; contrast := contrast s; brightness := brightness s;
     invert := invert s; charSetMode := charSetMode s |}.

Definition withContrast {num : Type} (v : num) (s : AsciiSettings num)
  : AsciiSettings num :=
  {| resolution := resolution s; contrast := v; brightness := brightness s;
     invert := invert s; charSetMode := charSetMode s |}.

Definition withBrightness {num : Type} (v : num) (s : AsciiSettings num)
  : AsciiSettings num :=
  {| resolution := resolution s; contrast := contrast s; brightness := v;
     invert := invert s; charSetMode := charSetMode s |}.

Definition withInvert {num : Type} (v : bool) (s : AsciiSettings num)
  : AsciiSettings num :=
  {| resolution := resolution s; contrast := contrast s;
     brightness := brightness s; invert := v; charSetMode := charSetMode s |}.

(** An image of one opaque colour: every sampled pixel is [(r, g, b, 255)]. *)
Definition uniformImage (w h : Z) (r g b : Z) : Image :=
  {| img_width := w; img_height := h;
     resample := fun sw sh => List.concat (repeat [r; g; b; 255%Z] (Z.to_nat (sw * sh))) |}.

(** ** The pipeline as the specification words it

    Section 4.2 lists six steps; each is a definition here and the pipeline
    is their composition in the order of the list. *)

Section SpecPipeline.
Context {num : Type} `{JsNumber num}.
Local Open Scope js_scope.








End SpecPipeline.

(** The ramps as section 6 of the specification spells them. *)
Definition spec_ramp (mode : CharSetMode) : js_string :=
  match mode with
  | halftone => units " ." ++ [183%N] ++ units ":+*?%S#@"
  | detail =>
      units " "
      ++ units "`.-':_,^=;><+!rc*/z?sLTv)J7(|Fi{C}fI31tlu[neoZ5Yxjya]2ESwqkP6h9d4VpOGbUAKXHm8RD#$Bg0MNWQ%&@$"
  | ascii =>
      units " .`^" ++ [34%N]
      ++ units ",:;Il!i~+_-?][}{1)(|\/tfjrxnuvczXYUJCLQ0OZmwqpdbkhao*#MW&8%B@$"
  | binary => units " 01"
  | blocks => [32%N; 9617%N; 9618%N; 9619%N; 9608%N]
  end.

(** ** The geometry in closed form

    What [geometry] computes in exact arithmetic, written on [Q] and [Z]. *)

Definition fontSizeZ (res : Q) : Z := Z.max 5 (Qfloor (20 - res * 15)).

Definition fontWidthQ (res : Q) : Q := inject_Z (fontSizeZ res) * (55 # 100).

Definition colsZ (w : Z) (res : Q) : Z :=
  Qfloor (inject_Z w / (fontWidthQ res / res)).

Definition safeColsZ (w : Z) (res : Q) : Z := Z.min (Z.max (colsZ w res) 40) 600.

Definition rowsZ (w h : Z) (res : Q) : Z :=
  Qfloor (inject_Z (safeColsZ w res) * (inject_Z h / inject_Z w)
          * (fontWidthQ res / inject_Z (fontSizeZ res))).

(** ** The contrast factor in closed form *)

Definition contrastFactorQ (c : Q) : Q :=
  259 * (c * 255 + 255) / (255 * (259 - c * 255)).

(** ** What a run leaves to be seen *)

(** The canvas after a run, if the run gets to draw. *)
Definition drawn {num : Type} (o : Outcome num) : option (Canvas num) :=
  match o with
  | Rendered cv => Some cv
  | IndexSizeError _ => None
  end.

(** The text calls on a canvas, in the order they were made. *)
Definition textCalls {num : Type} (cv : Canvas num)
  : list (code_unit * num * num) :=
  flat_map (fun op => match op with
                      | FillText _ ch x y => [(ch, x, y)]
                      | FillRect _ _ _ _ _ => []
                      end) (painted cv).

Section Placed.
Context {num : Type} `{JsNumber num}.

(** Where the glyph of cell [(y, x)] goes. *)
Definition placed (geo : Geometry num) (y x : nat) (cell : Cell)
  : list (code_unit * num * num) :=
  match cell with
  | Glyph ch =>
      [(ch, mul (of_Z (Z.of_nat x)) (fontWidth geo),
            mul (of_Z (Z.of_nat y)) (fontHeight geo))]
  | Empty => []
  end.

Fixpoint rowCalls (geo : Geometry num) (y x : nat) (row : list Cell)
  : list (code_unit * num * num) :=
  match row with
  | [] => []
  | cell :: rest => placed geo y x cell ++ rowCalls geo y (S x) rest
  end.

(** The glyphs of a grid with their places, row by row from row [y]. *)
Fixpoint gridCalls (geo : Geometry num) (y : nat) (grid : list (list Cell))
  : list (code_unit * num * num) :=
  match grid with
  | [] => []
  | row :: rest => rowCalls geo y 0 row ++ gridCalls geo (S y) rest
  end.
End Placed.

(** ** The calls of a run *)

(** The call that paints one glyph: always in white. *)
Definition whiteText {num : Type} (call : code_unit * num * num) : DrawOp num :=
  let '(ch, x, y) := call in FillText White ch x y.

(** The part of the drawing state the loops leave alone. *)
Definition frame {num : Type} (cv : Canvas num)
  : num * num * num * TextBaseline * TextAlign :=
  (width cv, height cv, font cv, textBaseline cv, textAlign cv).

(** ** The contrast slider *)

(** The values the contrast slider of [App] hands over: 0.5 to 3.0 in steps
    of 0.1, each read by [parseFloat] from its decimal text. *)
Definition contrastSlider {num : Type} `{JsNumber num} : list num :=
  List.map (fun k => dec (Z.of_nat k) 1) (seq 5 26).

(** A binary64 that is neither [NaN] nor an infinity. *)
Definition b64_finite (x : b64) : bool :=
  match x with
  | S754_zero _ | S754_finite _ _ _ => true
  | _ => false
  end.

(** ** The image service (services/geminiService.ts) *)

(** What the service reads of a response; every level may be missing. *)
Record InlineData : Type := { data : option js_string }.

Record Part : Type := {
  text : option js_string;
  inlineData : option InlineData
}.

Record Content : Type := { parts : option (list Part) }.

Record Candidate : Type := { content : option Content }.

Record GenerateContentResponse : Type := {
  candidates : option (list Candidate)
}.

(** The request: the model and the text of its one part. *)
Record GenerateContentParameters : Type := {
  model : js_string;
  contents : js_string
}.

Record JsError : Type := { message : js_string }.

(** The remote call either rejects with an error or resolves with a
    response. *)
Definition Client : Type :=
  GenerateContentParameters -> JsError + GenerateContentResponse.

(** What a handler does to the outside, in order. *)
Inductive Effect : Type :=
| Request (params : GenerateContentParameters)
| ConsoleError (label : js_string) (error : JsError)
| Alert (text : js_string).

(** [response.candidates?.[0]?.content?.parts || []] *)
Definition responseParts (response : GenerateContentResponse) : list Part :=
  match candidates response with
  | Some (first :: _) =>
      match content first with
      | Some c => match parts c with Some ps => ps | None => [] end
      | None => []
      end
  | _ => []
  end.

(** A value inside a template literal; [undefined] prints as its name. *)
Definition interpolate (v : option js_string) : js_string :=
  match v with
  | Some s => s
  | None => units "undefined"
  end.

(** The loop over the parts, returning at the first one with inline data. *)
Fixpoint firstInlineImage (ps : list Part) : option js_string :=
  match ps with
  | [] => None
  | part :: rest =>
      match inlineData part with
      | Some d => Some (units "data:image/png;base64," ++ interpolate (data d))
      | None => firstInlineImage rest
      end
  end.

Definition generateSourceImage (ai : Client) (prompt : js_string)
  : list Effect * (JsError + js_string) :=
  let params := {| model := units "gemini-2.5-flash-image"; contents := prompt |} in
  let attempt :=
    match ai params with
    | inl error => inl error
    | inr response =>
        match firstInlineImage (responseParts response) with
        | Some url => inr url
        | None => inl {| message := units "No image data found in response" |}
        end
    end in
  match attempt with
  | inl error =>
      ([Request params; ConsoleError (units "Gemini Image Generation Error:") error],
       inl error)
  | inr url => ([Request params], inr url)
  end.

(** ** The application (App.tsx) *)

Inductive ProcessingState : Type := IDLE | PROCESSING | GENERATING_AI.

Definition ProcessingState_eqb (a b : ProcessingState) : bool :=
  match a, b with
  | IDLE, IDLE | PROCESSING, PROCESSING | GENERATING_AI, GENERATING_AI => true
  | _, _ => false
  end.

Record AppState (num : Type) : Type := {
  imageSrc : option js_string;
  settings : AsciiSettings num;
  uiState : ProcessingState;
  aiPrompt : js_string
}.

(** The white space and line terminators that [String.prototype.trim]
    strips. *)
Definition isWhiteSpace (u : code_unit) : bool :=
  ((9 <=? u) && (u <=? 13) || (u =? 32) || (u =? 160) || (u =? 5760)
   || (8192 <=? u) && (u <=? 8202) || (u =? 8232) || (u =? 8233)
   || (u =? 8239) || (u =? 8287) || (u =? 12288) || (u =? 65279))%N.

Fixpoint trimStart (s : js_string) : js_string :=
  match s with
  | u :: rest => if isWhiteSpace u then trimStart rest else s
  | [] => []
  end.

Definition trim (s : js_string) : js_string :=
  rev (trimStart (rev (trimStart s))).

(** A string is falsy when it is empty. *)
Definition falsy (s : js_string) : bool :=
  match s with [] => true | _ => false end.

Section App.
Context {num : Type}.

Definition setImageSrc (v : js_string) (st : AppState num) : AppState num :=
  {| imageSrc := Some v; settings := settings st; uiState := uiState st;
     aiPrompt := aiPrompt st |}.

Definition setUiState (v : ProcessingState) (st : AppState num) : AppState num :=
  {| imageSrc := imageSrc st; settings := settings st; uiState := v;
     aiPrompt := aiPrompt st |}.

Definition promptSuffix : js_string :=
  units ", high contrast, dramatic lighting, volumetric fog, black and white photography, depth of field, detailed texture".

Definition handleGenerateAi (ai : Client) (st : AppState num)
  : list Effect * AppState num :=
  if falsy (trim (aiPrompt st)) then ([], st)
  else
    let st := setUiState GENERATING_AI st in
    let enhancedPrompt := aiPrompt st ++ promptSuffix in
    match generateSourceImage ai enhancedPrompt with
    | (effects, inr generatedImage) =>
        (effects, setUiState IDLE (setImageSrc generatedImage st))
    | (effects, inl _) =>
        (effects ++ [Alert (units "Failed to generate image.")],
         setUiState IDLE st)
    end.

(** The [disabled] attribute of the generate button; [apiKey] is
    [process.env.API_KEY]. *)
Definition generateDisabled (apiKey : option js_string) (st : AppState num)
  : bool :=
  ProcessingState_eqb (uiState st) GENERATING_AI
  || match apiKey with Some k => falsy k | None => true end
  || falsy (aiPrompt st).
End App.

(** ** The values of the doubles

    What the theorems about binary64 are stated with: the rational a finite
    double stands for, and round-to-nearest-even as a function on the
    rationals, which every operator of [SpecFloat] is proved below to
    compute. *)

(** ** The value of a double and the rounding of a rational *)

Definition pow2 (e : Z) : Q := 2 ^ e.

(** The value of a finite double; the other doubles are given 0. *)
Definition B2Q (x : b64) : Q :=
  match x with
  | S754_finite s m e => inject_Z (cond_Zopp s (Zpos m)) * pow2 e
  | _ => 0
  end.

(** A double that is a number of finite size: a zero, or a mantissa and an
    exponent in the canonical form of binary64. *)
Definition is_fin (x : b64) : bool :=
  match x with
  | S754_zero _ => true
  | S754_finite _ m e => bounded B64.prec B64.emax m e
  | _ => false
  end.

(** [d] is the binary magnitude of the positive rational [x]. *)
Definition bracket (d : Z) (x : Q) : Prop := pow2 (d - 1) <= x /\ x < pow2 d.

Definition mag (x : Q) : Z :=
  let k := (Z.log2 (Qnum x) - Z.log2 (Zpos (Qden x)))%Z in
  if Qle_bool (pow2 k) x then (k + 1)%Z else k.

(** The integer nearest to [y], the even one of two that are as near. *)
Definition rnez (y : Q) : Z :=
  let k := Qfloor y in
  match (y - inject_Z k ?= 1 # 2)%Q with
  | Lt => k
  | Eq => if Z.even k then k else (k + 1)%Z
  | Gt => (k + 1)%Z
  end.

(** The exponent binary64 gives a number of magnitude [d]. *)
Definition fexp64 (d : Z) : Z := fexp B64.prec B64.emax d.

(** Round to nearest, ties to even, with 53 bits and the exponents of
    binary64 from -1074 up (no upper limit: the overflow is the caller's). *)
Definition rnd_pos (x : Q) : Q :=
  let e := fexp64 (mag x) in inject_Z (rnez (x / pow2 e)) * pow2 e.

Definition rnd (x : Q) : Q :=
  match x ?= 0 with
  | Eq => 0
  | Gt => rnd_pos x
  | Lt => - rnd_pos (- x)
  end.

(** Where the exact value [y] lies between [m] and [m + 1]. *)
Definition inbetween (m : Z) (l : location) (y : Q) : Prop :=
  match l with
  | loc_Exact => y == inject_Z m
  | loc_Inexact Lt => inject_Z m < y /\ y < inject_Z m + (1 # 2)
  | loc_Inexact Eq => y == inject_Z m + (1 # 2)
  | loc_Inexact Gt => inject_Z m + (1 # 2) < y /\ y < inject_Z m + 1
  end.

(** What a shift record says of the exact value [y] it stands for. *)
Definition good (mrs : shr_record) (y : Q) : Prop :=
  (0 <= shr_m mrs)%Z /\ inbetween (shr_m mrs) (loc_of_shr_record mrs) y.

Definition has_sign (s : bool) (r : b64) : Prop :=
  match r with
  | S754_zero s' | S754_infinity s' | S754_finite s' _ _ => s' = s
  | S754_nan => False
  end.

(** [r] is the double that stands for the rounded magnitude [v] with the
    sign [s]: the infinity from [2^1024] on. *)
Definition rounds (s : bool) (v : Q) (r : b64) : Prop :=
  has_sign s r /\
  ((v < pow2 1024 /\ is_fin r = true /\ B2Q r == (if s then - v else v)) \/
   (pow2 1024 <= v /\ r = S754_infinity s)).

(** Every value of a JavaScript number: the finite ones in canonical form. *)
Definition is_double (x : b64) : Prop := valid_binary B64.prec B64.emax x = true.

(** The double [x] is a finite number of value [q]. *)
Definition val (x : b64) (q : Q) : Prop := is_fin x = true /\ B2Q x == q.

(** The double [0.55]. *)
Definition c55 : Q := 2476979795053773 # 4503599627370496.

(** The geometry with every operator rounded, on the values. *)
Definition fontSizeR (R : Q) : Z := Z.max 5 (Qfloor (rnd (20 - rnd (R * 15)))).

Definition fontWidthR (R : Q) : Q := rnd (inject_Z (fontSizeR R) * c55).

Definition colsR (W R : Q) : Z := Qfloor (rnd (W / rnd (fontWidthR R / R))).

Definition safeColsR (W R : Q) : Z := Z.min (Z.max (colsR W R) 40) 600.

Section ToneBeforeClamp.
Context {num : Type} `{JsNumber num}.
Local Open Scope js_scope.

(** The tone of a cell as it reaches the clamp: the luma line, the brightness
    line and the contrast line of [cellGray]. *)
Definition toneBeforeClamp (settings : AsciiSettings num) (contrastFactor : num)
    (r g b : num) : num :=
  applyContrast contrastFactor
    (dec 299 3 * r + dec 587 3 * g + dec 114 3 * b + brightness settings).

End ToneBeforeClamp.

(** The contrast factor and the contrast line with every operator rounded,
    on the values. *)
Definition contrast255R (C : Q) : Q := rnd (C * 255).

Definition denominatorR (C : Q) : Q := rnd (259 - contrast255R C).

Definition numeratorR (C : Q) : Q := rnd (259 * rnd (contrast255R C + 255)).

Definition contrastFactorR (C : Q) : Q :=
  rnd (numeratorR C / rnd (255 * denominatorR C)).

Definition contrastLineR (CF G : Q) : Q := rnd (rnd (CF * rnd (G - 128)) + 128).

(** * Properties *)

(** ** Exact numbers: what the operators do on finite values *)

(** [repr x q]: [x] is the finite number [q]. *)
Definition repr (x : xnum) (q : Q) : Prop := exists q', x = XFin q' /\ q' == q.

Lemma repr_fin (q : Q) : repr (XFin q) q.
Proof. exists q; split; [reflexivity | apply Qeq_refl]. Qed.

Lemma repr_xfin (q : Q) : repr (xfin q) q.
Proof. exists (Qred q); split; [reflexivity | apply Qred_correct]. Qed.

Lemma repr_eq (x : xnum) (a b : Q) : repr x a -> a == b -> repr x b.
Proof.
  intros (q & -> & Hq) Hab. exists q; split; [reflexivity|].
  now rewrite Hq.
Qed.

Lemma repr_of_Z (z : Z) : repr (of_Z z) (inject_Z z).
Proof. apply repr_fin. Qed.

Lemma repr_add (x y : xnum) (a b : Q) :
  repr x a -> repr y b -> repr (xadd x y) (a + b).
Proof.
  intros (p & -> & Hp) (q & -> & Hq). cbn.
  eapply repr_eq; [apply repr_xfin|]. now rewrite Hp, Hq.
Qed.

Lemma repr_neg (x : xnum) (a : Q) : repr x a -> repr (xneg x) (- a).
Proof.
  intros (p & -> & Hp). cbn.
  eapply repr_eq; [apply repr_xfin|]. now rewrite Hp.
Qed.

Lemma repr_sub (x y : xnum) (a b : Q) :
  repr x a -> repr y b -> repr (xsub x y) (a - b).
Proof.
  intros Hx Hy. unfold xsub, Qminus. apply repr_add; [assumption|].
  now apply repr_neg.
Qed.

Lemma repr_mul (x y : xnum) (a b : Q) :
  repr x a -> repr y b -> repr (xmul x y) (a * b).
Proof.
  intros (p & -> & Hp) (q & -> & Hq). cbn.
  eapply repr_eq; [apply repr_xfin|]. now rewrite Hp, Hq.
Qed.

Lemma repr_div (x y : xnum) (a b : Q) :
  repr x a -> repr y b -> ~ b == 0 -> repr (xdiv x y) (a / b).
Proof.
  intros (p & -> & Hp) (q & -> & Hq) Hb. cbn.
  destruct (Qeq_bool q 0) eqn:E.
  - apply Qeq_bool_iff in E. exfalso. apply Hb. now rewrite <- Hq.
  - eapply repr_eq; [apply repr_xfin|]. now rewrite Hp, Hq.
Qed.

Lemma repr_floor (x : xnum) (a : Q) :
  repr x a -> xfloor x = XFin (inject_Z (Qfloor a)).
Proof. intros (p & -> & Hp). cbn. now rewrite Hp. Qed.

Lemma xmax_Z (a b : Z) :
  xmax (XFin (inject_Z a)) (XFin (inject_Z b)) = XFin (inject_Z (Z.max a b)).
Proof.
  unfold xmax, xltb. destruct (inject_Z a ?= inject_Z b) eqn:E.
  - apply Qeq_alt in E. apply (proj1 (inject_Z_injective a b)) in E.
    subst. now rewrite Z.max_id.
  - apply Qlt_alt in E. rewrite <- Zlt_Qlt in E. now rewrite Z.max_r by lia.
  - apply Qgt_alt in E. rewrite <- Zlt_Qlt in E. now rewrite Z.max_l by lia.
Qed.

Lemma xmin_Z (a b : Z) :
  xmin (XFin (inject_Z a)) (XFin (inject_Z b)) = XFin (inject_Z (Z.min a b)).
Proof.
  unfold xmin, xltb. destruct (inject_Z b ?= inject_Z a) eqn:E.
  - apply Qeq_alt in E. apply (proj1 (inject_Z_injective b a)) in E.
    subst. now rewrite Z.min_id.
  - apply Qlt_alt in E. rewrite <- Zlt_Qlt in E. now rewrite Z.min_r by lia.
  - apply Qgt_alt in E. rewrite <- Zlt_Qlt in E. now rewrite Z.min_l by lia.
Qed.

Ltac js_unfold :=
  cbn [of_Z dec nan add sub mul div floor jsmax jsmin ltb to_int xnum_number] in *.

(** ** The geometry *)

Lemma fontSizeZ_ge_5 (res : Q) : (5 <= fontSizeZ res)%Z.
Proof. unfold fontSizeZ. lia. Qed.

Lemma fontWidthQ_pos (res : Q) : 0 < fontWidthQ res.
Proof.
  unfold fontWidthQ. pose proof (fontSizeZ_ge_5 res) as H.
  rewrite Zle_Qle in H. change (inject_Z 5) with 5 in H. lra.
Qed.

(** The fields of the geometry, one line of the source each. *)
Section GeometryFields.
Context {num : Type} `{JsNumber num}.
Local Open Scope js_scope.
Variables (w h : num) (s : AsciiSettings num).

Lemma geometry_fontSize :
  fontSize (geometry w h s)
  = jsmax minFont (floor (maxFont - (resolution s * (maxFont - minFont)))).
Proof. reflexivity. Qed.

Lemma geometry_fontWidth :
  fontWidth (geometry w h s) = fontSize (geometry w h s) * dec 55 2.
Proof. reflexivity. Qed.

Lemma geometry_fontHeight :
  fontHeight (geometry w h s) = fontSize (geometry w h s).
Proof. reflexivity. Qed.

Lemma geometry_cols :
  cols (geometry w h s)
  = floor (w / (fontWidth (geometry w h s) / resolution s)).
Proof. reflexivity. Qed.

Lemma geometry_safeCols :
  safeCols (geometry w h s)
  = jsmin (jsmax (cols (geometry w h s)) (of_Z 40)) (of_Z 600).
Proof. reflexivity. Qed.

Lemma geometry_rows :
  rows (geometry w h s)
  = floor (safeCols (geometry w h s) * (h / w)
           * (fontWidth (geometry w h s) / fontHeight (geometry w h s))).
Proof. reflexivity. Qed.
End GeometryFields.

(** In exact arithmetic [geometry] is its closed form, field by field. *)
Section GeometryClosedForm.
Variables (w h : Z) (res : Q) (s : AsciiSettings xnum).
Hypothesis R : repr (resolution s) res.
Hypothesis Hpos : 0 < res.

Lemma fontSize_closed_form :
  fontSize (geometry (of_Z w) (of_Z h) s) = XFin (inject_Z (fontSizeZ res)).
Proof.
  rewrite geometry_fontSize. unfold minFont, maxFont.
  cbn [of_Z sub mul floor jsmax xnum_number].
  rewrite (@repr_floor _ (20 - res * 15)).
  - apply xmax_Z.
  - eapply repr_eq.
    + apply repr_sub; [apply repr_fin|].
      apply repr_mul; [exact R|]. apply repr_sub; apply repr_fin.
    + change (inject_Z 20) with 20. change (inject_Z 5) with 5. ring.
Qed.

Lemma fontWidth_closed_form :
  repr (fontWidth (geometry (of_Z w) (of_Z h) s)) (fontWidthQ res).
Proof.
  rewrite geometry_fontWidth, fontSize_closed_form.
  cbn [dec mul xnum_number].
  apply repr_mul; [apply repr_fin | apply repr_xfin].
Qed.

Lemma cols_closed_form :
  cols (geometry (of_Z w) (of_Z h) s) = XFin (inject_Z (colsZ w res)).
Proof.
  pose proof (fontWidthQ_pos res) as Hfw0.
  rewrite geometry_cols. cbn [of_Z div floor xnum_number].
  apply repr_floor. apply repr_div.
  - apply repr_fin.
  - apply repr_div; [apply fontWidth_closed_form | exact R | lra].
  - intro E.
    assert (0 < fontWidthQ res / res) by (apply Qlt_shift_div_l; lra). lra.
Qed.

Lemma safeCols_closed_form :
  safeCols (geometry (of_Z w) (of_Z h) s) = XFin (inject_Z (safeColsZ w res)).
Proof.
  rewrite geometry_safeCols, cols_closed_form.
  cbn [of_Z jsmax jsmin xnum_number].
  rewrite xmax_Z, xmin_Z. reflexivity.
Qed.

Lemma rows_closed_form :
  w <> 0%Z ->
  rows (geometry (of_Z w) (of_Z h) s) = XFin (inject_Z (rowsZ w h res)).
Proof.
  intro Hw. pose proof (fontSizeZ_ge_5 res) as Hfs5.
  rewrite geometry_rows, geometry_fontHeight, safeCols_closed_form,
    fontSize_closed_form.
  cbn [of_Z mul div floor xnum_number].
  apply repr_floor. apply repr_mul.
  - apply repr_mul; [apply repr_fin|].
    apply repr_div; [apply repr_fin | apply repr_fin|].
    intro E. apply Hw. apply (proj1 (inject_Z_injective w 0)). exact E.
  - apply repr_div; [apply fontWidth_closed_form | apply repr_fin|].
    intro E. apply (proj1 (inject_Z_injective (fontSizeZ res) 0)) in E. lia.
Qed.
End GeometryClosedForm.

Lemma geometry_closed_form (w h : Z) (res : Q) (s : AsciiSettings xnum) :
  repr (resolution s) res -> 0 < res -> w <> 0%Z ->
  fontSize (geometry (of_Z w) (of_Z h) s) = XFin (inject_Z (fontSizeZ res)) /\
  repr (fontWidth (geometry (of_Z w) (of_Z h) s)) (fontWidthQ res) /\
  cols (geometry (of_Z w) (of_Z h) s) = XFin (inject_Z (colsZ w res)) /\
  safeCols (geometry (of_Z w) (of_Z h) s) = XFin (inject_Z (safeColsZ w res)) /\
  rows (geometry (of_Z w) (of_Z h) s) = XFin (inject_Z (rowsZ w h res)).
Proof.
  intros R Hpos Hw. repeat split.
  - now apply fontSize_closed_form.
  - now apply fontWidth_closed_form.
  - now apply cols_closed_form.
  - now apply safeCols_closed_form.
  - now apply rows_closed_form.
Qed.

Lemma safeColsZ_bounds (w : Z) (res : Q) : (40 <= safeColsZ w res <= 600)%Z.
Proof. unfold safeColsZ. lia. Qed.

Lemma Qfloor_nonneg (q : Q) : 0 <= q -> (0 <= Qfloor q)%Z.
Proof.
  intro H. change 0%Z with (Qfloor 0). now apply Qfloor_resp_le.
Qed.

Lemma rowsZ_nonneg (w h : Z) (res : Q) :
  (1 <= w)%Z -> (0 <= h)%Z -> (0 <= rowsZ w h res)%Z.
Proof.
  intros Hw Hh. unfold rowsZ. apply Qfloor_nonneg.
  pose proof (safeColsZ_bounds w res) as [Hc _].
  pose proof (fontSizeZ_ge_5 res) as Hf.
  pose proof (fontWidthQ_pos res) as Hfw.
  rewrite Zle_Qle in Hc, Hf, Hw, Hh.
  change (inject_Z 40) with 40 in Hc. change (inject_Z 5) with 5 in Hf.
  change (inject_Z 1) with 1 in Hw. change (inject_Z 0) with 0 in Hh.
  apply Qmult_le_0_compat; [apply Qmult_le_0_compat|].
  - lra.
  - apply Qle_shift_div_l; lra.
  - apply Qle_shift_div_l; lra.
Qed.

(** ** The tone of a cell *)

(** Away from the pole [contrast * 255 = 259] the factor is finite. *)
Lemma contrastFactor_closed_form (s : AsciiSettings xnum) (c : Q) :
  repr (contrast s) c -> ~ c * 255 == 259 ->
  repr (contrastFactor s) (contrastFactorQ c).
Proof.
  intros R Hc. unfold contrastFactor, contrastFactorQ; js_unfold.
  apply repr_div.
  - apply repr_mul; [apply repr_fin|].
    apply repr_add; [|apply repr_fin]. apply repr_mul; [exact R | apply repr_fin].
  - apply repr_mul; [apply repr_fin|].
    apply repr_sub; [apply repr_fin|]. apply repr_mul; [exact R | apply repr_fin].
  - change (inject_Z 255) with 255. change (inject_Z 259) with 259.
    intro E. apply Hc. lra.
Qed.

(** ** Images of one colour *)

Lemma nth_error_pixels (px : list Z) (n k j : nat) :
  List.length px = 4%nat -> (k < n)%nat -> (j < 4)%nat ->
  nth_error (List.concat (repeat px n)) (4 * k + j) = nth_error px j.
Proof.
  intros Hpx. revert k. induction n as [|n IH]; intros k Hk Hj; [lia|].
  cbn [repeat List.concat]. destruct k as [|k].
  - rewrite nth_error_app1 by lia. reflexivity.
  - rewrite nth_error_app2 by lia. rewrite Hpx.
    replace (4 * S k + j - 4)%nat with (4 * k + j)%nat by lia.
    apply IH; lia.
Qed.

Section Uniform.
Context {num : Type} `{JsNumber num}.

Lemma cellAt_uniform (s : AsciiSettings num) (c : Z) (n : nat) (r g b a : Z)
    (y x : nat) :
  (0 <= c)%Z -> (y * Z.to_nat c + x < n)%nat ->
  cellAt s c (List.concat (repeat [r; g; b; a] n)) y x
  = paint (cellChar s (of_Z r) (of_Z g) (of_Z b)).
Proof.
  intros Hc Hn. unfold cellAt, sample.
  set (k := (y * Z.to_nat c + x)%nat).
  replace (Z.to_nat ((Z.of_nat y * c + Z.of_nat x) * 4)) with (4 * k + 0)%nat
    by (unfold k; lia).
  replace (Z.to_nat ((Z.of_nat y * c + Z.of_nat x) * 4 + 1)) with (4 * k + 1)%nat
    by (unfold k; lia).
  replace (Z.to_nat ((Z.of_nat y * c + Z.of_nat x) * 4 + 2)) with (4 * k + 2)%nat
    by (unfold k; lia).
  rewrite !nth_error_pixels by (reflexivity || lia). reflexivity.
Qed.

Lemma map_seq_constant (A : Type) (f : nat -> A) (v : A) (n : nat) :
  (forall i, (i < n)%nat -> f i = v) -> List.map f (seq 0 n) = repeat v n.
Proof.
  intro Hf. apply nth_error_ext. intro i.
  destruct (Nat.lt_ge_cases i n) as [Hi|Hi].
  - rewrite nth_error_map, nth_error_seq.
    destruct (Nat.ltb_spec i n) as [_|]; [|lia]. cbn.
    rewrite nth_error_repeat by exact Hi. now rewrite Hf.
  - rewrite (proj2 (nth_error_None _ _)) by (rewrite length_map, length_seq; lia).
    rewrite (proj2 (nth_error_None _ _)) by (rewrite repeat_length; lia).
    reflexivity.
Qed.

(** Every cell of the grid of a one-colour image is the cell of that
    colour. *)
Lemma glyphGrid_uniform (s : AsciiSettings num) (w h c r : Z) (rr gg bb : Z) :
  glyphGrid s c r (resample (uniformImage w h rr gg bb) (Z.abs c) (Z.abs r))
  = repeat (repeat (paint (cellChar s (of_Z rr) (of_Z gg) (of_Z bb)))
              (Z.to_nat c)) (Z.to_nat r).
Proof.
  unfold glyphGrid, uniformImage; cbn [resample].
  apply map_seq_constant. intros y Hy.
  apply map_seq_constant. intros x Hx.
  apply cellAt_uniform; [lia|]. nia.
Qed.

Lemma render_uniform (s : AsciiSettings num) (w h : Z) (rr gg bb : Z) :
  render (uniformImage w h rr gg bb) s
  = let geo := geometry (of_Z w) (of_Z h) s in
    match getImageData (uniformImage w h rr gg bb) (safeCols geo) (rows geo) with
    | None => None
    | Some (c, r, _) =>
        Some (repeat (repeat (paint (cellChar s (of_Z rr) (of_Z gg) (of_Z bb)))
                        (Z.to_nat c)) (Z.to_nat r))
    end.
Proof.
  unfold render, getImageData. cbv zeta.
  destruct (_ || _); [reflexivity|].
  now rewrite glyphGrid_uniform.
Qed.
End Uniform.

(** * Binary64: every operator rounds the exact result

    [SFadd], [SFsub], [SFmul] and [SFdiv] on finite doubles give the double of
    value [rnd q], where [q] is the exact result, or an infinity when that
    value is beyond the format; [rnd] is monotone and leaves the doubles where
    they are.  With this the geometry and the tone of a cell are followed
    through the program's own arithmetic. *)

(** ** Powers of two *)

Lemma pow2_pos e : 0 < pow2 e.
Proof. apply Qpower_0_lt. reflexivity. Qed.

Lemma pow2_add a b : pow2 (a + b) == pow2 a * pow2 b.
Proof. apply Qpower_plus. discriminate. Qed.

Lemma pow2_0 : pow2 0 == 1.
Proof. reflexivity. Qed.

Lemma pow2_1 : pow2 1 == 2.
Proof. reflexivity. Qed.

Lemma pow2_succ a : pow2 (a + 1) == 2 * pow2 a.
Proof. rewrite pow2_add, pow2_1. ring. Qed.

Lemma pow2_pred a : pow2 (a - 1) == pow2 a / 2.
Proof.
  assert (H : pow2 a == 2 * pow2 (a - 1)).
  { rewrite <- pow2_succ. replace (a - 1 + 1)%Z with a by lia. reflexivity. }
  rewrite H. field.
Qed.

Lemma pow2_sub a b : pow2 (a - b) == pow2 a / pow2 b.
Proof. apply Qpower_minus. discriminate. Qed.

Lemma pow2_le a b : (a <= b)%Z -> pow2 a <= pow2 b.
Proof. intro. apply Qpower_le_compat_l; [assumption | discriminate]. Qed.

Lemma pow2_lt a b : (a < b)%Z -> pow2 a < pow2 b.
Proof. intro. apply Qpower_lt_compat_l; [assumption | reflexivity]. Qed.

Lemma pow2_lt_inv a b : pow2 a < pow2 b -> (a < b)%Z.
Proof. intro H. apply (Qpower_lt_compat_l_inv 2); [exact H | reflexivity]. Qed.

Lemma pow2_le_inv a b : pow2 a <= pow2 b -> (a <= b)%Z.
Proof. intro H. apply (Qpower_le_compat_l_inv 2); [exact H | reflexivity]. Qed.

Lemma pow2_Z n : (0 <= n)%Z -> pow2 n == inject_Z (2 ^ n).
Proof. intro. unfold pow2. rewrite Zpower_Qpower by assumption. reflexivity. Qed.

Lemma pow2_div_mul x e : x / pow2 e * pow2 e == x.
Proof. field. intro H. pose proof (pow2_pos e). rewrite H in H0. discriminate. Qed.

Lemma pow2_ne0 e : ~ pow2 e == 0.
Proof. intro H. pose proof (pow2_pos e) as P. rewrite H in P. discriminate. Qed.

(** *** The magnitude *)

Lemma bracket_unique d d' x : bracket d x -> bracket d' x -> d = d'.
Proof.
  intros [A B] [A' B'].
  assert (d - 1 < d')%Z by (apply pow2_lt_inv; lra).
  assert (d' - 1 < d)%Z by (apply pow2_lt_inv; lra).
  lia.
Qed.

Lemma bracket_mono d1 d2 x1 x2 :
  bracket d1 x1 -> bracket d2 x2 -> x1 <= x2 -> (d1 <= d2)%Z.
Proof.
  intros [A B] [A' B'] L.
  assert (d1 - 1 < d2)%Z by (apply pow2_lt_inv; lra).
  lia.
Qed.

Lemma Q_as_quotient x : x == inject_Z (Qnum x) / inject_Z (Zpos (Qden x)).
Proof.
  destruct x as [n d]. simpl. unfold Qeq, Qdiv, Qmult, Qinv, inject_Z. simpl. lia.
Qed.

Lemma mag_spec x : 0 < x -> bracket (mag x) x.
Proof.
  intro Hx. destruct x as [n d].
  assert (Hn : (0 < n)%Z) by (unfold Qlt in Hx; simpl in Hx; lia).
  pose proof (Z.log2_spec n Hn) as [A1 A2].
  pose proof (Z.log2_spec (Zpos d) (Pos2Z.is_pos d)) as [B1 B2].
  pose proof (Z.log2_nonneg n) as La.
  pose proof (Z.log2_nonneg (Zpos d)) as Lb.
  set (a := Z.log2 n) in *. set (b := Z.log2 (Zpos d)) in *.
  assert (Xe : inject_Z n == (n # d) * inject_Z (Zpos d)).
  { unfold Qeq, Qmult, inject_Z. simpl. lia. }
  assert (Pa : pow2 a <= inject_Z n).
  { rewrite pow2_Z by lia. rewrite <- Zle_Qle. exact A1. }
  assert (Pa' : inject_Z n < pow2 (a + 1)).
  { rewrite pow2_Z by lia. rewrite <- Zlt_Qlt. replace (a + 1)%Z with (Z.succ a) by lia. exact A2. }
  assert (Pb : pow2 b <= inject_Z (Zpos d)).
  { rewrite pow2_Z by lia. rewrite <- Zle_Qle. exact B1. }
  assert (Pb' : inject_Z (Zpos d) < pow2 (b + 1)).
  { rewrite pow2_Z by lia. rewrite <- Zlt_Qlt. replace (b + 1)%Z with (Z.succ b) by lia. exact B2. }
  assert (Dp : 0 < inject_Z (Zpos d)) by (rewrite <- (Zlt_Qlt 0); lia).
  assert (E1 : pow2 (a + 1) == pow2 (a - b + 1) * pow2 b).
  { rewrite <- pow2_add. replace (a - b + 1 + b)%Z with (a + 1)%Z by lia. reflexivity. }
  assert (E2 : pow2 a == pow2 (a - b - 1) * pow2 (b + 1)).
  { rewrite <- pow2_add. replace (a - b - 1 + (b + 1))%Z with a by lia. reflexivity. }
  pose proof (pow2_pos (a - b + 1)). pose proof (pow2_pos (a - b - 1)).
  pose proof (pow2_pos b). pose proof (pow2_pos (b + 1)).
  assert (U : (n # d) < pow2 (a - b + 1)) by nra.
  assert (L : pow2 (a - b - 1) <= (n # d)) by nra.
  unfold mag. simpl Qnum. simpl Qden. fold a. fold b.
  destruct (Qle_bool (pow2 (a - b)) (n # d)) eqn:T.
  - apply Qle_bool_iff in T. split.
    + replace (a - b + 1 - 1)%Z with (a - b)%Z by lia. exact T.
    + exact U.
  - assert (T' : ~ pow2 (a - b) <= (n # d)).
    { intro C. apply Qle_bool_iff in C. congruence. }
    split.
    + exact L.
    + lra.
Qed.

Lemma mag_unique d x : bracket d x -> mag x = d.
Proof.
  intro B. apply bracket_unique with x; [|exact B].
  apply mag_spec. destruct B as [A _]. pose proof (pow2_pos (d - 1)). lra.
Qed.

Lemma mag_comp x y : 0 < x -> x == y -> mag x = mag y.
Proof.
  intros Hx E. apply mag_unique.
  assert (Hy : 0 < y) by lra. destruct (mag_spec Hy) as [A B].
  split; lra.
Qed.

Lemma mag_mono x y : 0 < x -> x <= y -> (mag x <= mag y)%Z.
Proof.
  intros Hx L. apply bracket_mono with x y; [apply mag_spec | apply mag_spec |]; lra.
Qed.

(** *** The nearest integer *)

Lemma Qfloor_unique k y : inject_Z k <= y -> y < inject_Z k + 1 -> Qfloor y = k.
Proof.
  intros A B.
  pose proof (Qfloor_le y) as F1. pose proof (Qlt_floor y) as F2.
  rewrite inject_Z_plus in F2. change (inject_Z 1) with 1 in F2.
  assert (k < Qfloor y + 1)%Z.
  { rewrite Zlt_Qlt. rewrite inject_Z_plus. change (inject_Z 1) with 1. lra. }
  assert (Qfloor y < k + 1)%Z.
  { rewrite Zlt_Qlt. rewrite inject_Z_plus. change (inject_Z 1) with 1. lra. }
  lia.
Qed.

Lemma rnez_cases y :
  (y < inject_Z (Qfloor y) + (1 # 2) /\ rnez y = Qfloor y) \/
  (y == inject_Z (Qfloor y) + (1 # 2) /\
   rnez y = if Z.even (Qfloor y) then Qfloor y else (Qfloor y + 1)%Z) \/
  (inject_Z (Qfloor y) + (1 # 2) < y /\ rnez y = (Qfloor y + 1)%Z).
Proof.
  unfold rnez. generalize (Qfloor y). intro k.
  destruct (y - inject_Z k ?= 1 # 2) eqn:C.
  - apply Qeq_alt in C. right. left. split; [lra | reflexivity].
  - apply Qlt_alt in C. left. split; [lra | reflexivity].
  - apply Qgt_alt in C. right. right. split; [lra | reflexivity].
Qed.

Lemma rnez_Z k : rnez (inject_Z k) = k.
Proof.
  unfold rnez. rewrite Qfloor_Z.
  replace (inject_Z k - inject_Z k ?= 1 # 2) with Lt; [reflexivity|].
  symmetry. apply (proj1 (Qlt_alt _ _)). generalize (inject_Z k). intro q. lra.
Qed.

Lemma rnez_comp x y : x == y -> rnez x = rnez y.
Proof.
  intro E. unfold rnez. rewrite (Qfloor_comp _ _ E).
  replace (x - inject_Z (Qfloor y) ?= 1 # 2) with (y - inject_Z (Qfloor y) ?= 1 # 2);
    [reflexivity|].
  apply Qcompare_comp; [rewrite E|]; reflexivity.
Qed.

Lemma rnez_mono x y : x <= y -> (rnez x <= rnez y)%Z.
Proof.
  intro L.
  pose proof (Qfloor_resp_le _ _ L) as FL.
  pose proof (Qfloor_le x) as X1. pose proof (Qlt_floor x) as X2.
  pose proof (Qfloor_le y) as Y1. pose proof (Qlt_floor y) as Y2.
  rewrite inject_Z_plus in X2, Y2. change (inject_Z 1) with 1 in X2, Y2.
  destruct (Z.eq_dec (Qfloor x) (Qfloor y)) as [E|NE].
  - destruct (rnez_cases x) as [[A ->]|[[A ->]|[A ->]]];
    destruct (rnez_cases y) as [[B ->]|[[B ->]|[B ->]]];
    rewrite ?E in *; try (destruct (Z.even (Qfloor y))); try lia; exfalso; lra.
  - assert (Qfloor x + 1 <= Qfloor y)%Z by lia.
    destruct (rnez_cases x) as [[A ->]|[[A ->]|[A ->]]];
    destruct (rnez_cases y) as [[B ->]|[[B ->]|[B ->]]];
    try (destruct (Z.even (Qfloor y))); try (destruct (Z.even (Qfloor x))); lia.
Qed.

Lemma rnez_nonneg y : 0 <= y -> (0 <= rnez y)%Z.
Proof. intro H. change 0%Z with (rnez (inject_Z 0)). apply rnez_mono. exact H. Qed.

(** *** Rounding *)

Lemma fexp64_eq d : fexp64 d = Z.max (d - 53) (-1074).
Proof. reflexivity. Qed.

Lemma fexp64_mono a b : (a <= b)%Z -> (fexp64 a <= fexp64 b)%Z.
Proof. rewrite !fexp64_eq. lia. Qed.

Lemma rnd_pos_comp x y : 0 < x -> x == y -> rnd_pos x == rnd_pos y.
Proof.
  intros Hx E. unfold rnd_pos. rewrite (mag_comp Hx E).
  rewrite (@rnez_comp (x / pow2 (fexp64 (mag y))) (y / pow2 (fexp64 (mag y)))).
  - reflexivity.
  - rewrite E. reflexivity.
Qed.

Lemma rnd_pos_nonneg x : 0 < x -> 0 <= rnd_pos x.
Proof.
  intro Hx. unfold rnd_pos.
  pose proof (pow2_pos (fexp64 (mag x))) as P.
  assert (0 <= x / pow2 (fexp64 (mag x))).
  { apply Qle_shift_div_l; [exact P | lra]. }
  pose proof (rnez_nonneg H) as R. rewrite Zle_Qle in R.
  change (inject_Z 0) with 0 in R. nra.
Qed.

(** A power of two with an exponent the format has is a fixed point. *)
Lemma rnez_pow2 a e : (e <= a)%Z -> rnez (pow2 a / pow2 e) = (2 ^ (a - e))%Z.
Proof.
  intro H. rewrite <- (rnez_Z (2 ^ (a - e))). apply rnez_comp.
  rewrite <- pow2_Z by lia. rewrite pow2_sub. reflexivity.
Qed.

Lemma rnd_pos_mono x y : 0 < x -> x <= y -> rnd_pos x <= rnd_pos y.
Proof.
  intros Hx L.
  assert (Hy : 0 < y) by lra.
  pose proof (mag_spec Hx) as [X1 X2]. pose proof (mag_spec Hy) as [Y1 Y2].
  pose proof (mag_mono Hx L) as M.
  unfold rnd_pos.
  set (dx := mag x) in *. set (dy := mag y) in *.
  pose proof (fexp64_mono M) as FM.
  pose proof (pow2_pos (fexp64 dx)) as Px. pose proof (pow2_pos (fexp64 dy)) as Py.
  destruct (Z.eq_dec (fexp64 dx) (fexp64 dy)) as [E|NE].
  - rewrite E.
    assert (x / pow2 (fexp64 dy) <= y / pow2 (fexp64 dy)).
    { apply Qmult_le_compat_r; [exact L|]. apply Qlt_le_weak, Qinv_lt_0_compat, Py. }
    pose proof (rnez_mono H) as R. rewrite Zle_Qle in R. nra.
  - assert (Lt : (fexp64 dx < fexp64 dy)%Z) by lia.
    rewrite !fexp64_eq in *.
    assert (D : (dx < dy)%Z) by lia.
    assert (Ey : Z.max (dy - 53) (-1074) = (dy - 53)%Z) by lia.
    set (ex := Z.max (dx - 53) (-1074)) in *. rewrite Ey in *.
    set (a := Z.max dx ex).
    assert (Xa : x <= pow2 a).
    { apply Qle_trans with (pow2 dx); [lra | apply pow2_le; lia]. }
    (* rnd x <= 2^a *)
    assert (A : inject_Z (rnez (x / pow2 ex)) * pow2 ex <= pow2 a).
    { assert (x / pow2 ex <= pow2 a / pow2 ex).
      { apply Qmult_le_compat_r; [lra|]. apply Qlt_le_weak, Qinv_lt_0_compat, Px. }
      pose proof (rnez_mono H) as R. rewrite rnez_pow2 in R by lia.
      rewrite Zle_Qle in R. rewrite <- pow2_Z in R by lia.
      rewrite pow2_sub in R.
      apply Qle_trans with (pow2 a / pow2 ex * pow2 ex).
      - apply Qmult_le_compat_r; [exact R | lra].
      - rewrite pow2_div_mul. lra. }
    (* 2^(dy-1) <= rnd y *)
    assert (B : pow2 (dy - 1) <= inject_Z (rnez (y / pow2 (dy - 53))) * pow2 (dy - 53)).
    { assert (pow2 (dy - 1) / pow2 (dy - 53) <= y / pow2 (dy - 53)).
      { apply Qmult_le_compat_r; [lra|]. apply Qlt_le_weak, Qinv_lt_0_compat, Py. }
      pose proof (rnez_mono H) as R. rewrite rnez_pow2 in R by lia.
      rewrite Zle_Qle in R. rewrite <- pow2_Z in R by lia.
      rewrite pow2_sub in R.
      apply Qle_trans with (pow2 (dy - 1) / pow2 (dy - 53) * pow2 (dy - 53)).
      - rewrite pow2_div_mul. lra.
      - apply Qmult_le_compat_r; [exact R | lra]. }
    assert (pow2 a <= pow2 (dy - 1)) by (apply pow2_le; lia).
    lra.
Qed.

Lemma rnd_0 : rnd 0 = 0.
Proof. reflexivity. Qed.

Lemma rnd_pos_eq x : 0 < x -> rnd x = rnd_pos x.
Proof. intro H. unfold rnd. apply (proj1 (Qgt_alt _ _)) in H. rewrite H. reflexivity. Qed.

Lemma rnd_neg_eq x : x < 0 -> rnd x = - rnd_pos (- x).
Proof. intro H. unfold rnd. apply (proj1 (Qlt_alt _ _)) in H. rewrite H. reflexivity. Qed.

Lemma rnd_comp x y : x == y -> rnd x == rnd y.
Proof.
  intro E. destruct (Q_dec x 0) as [[N|P]|Z].
  - rewrite (rnd_neg_eq N). rewrite rnd_neg_eq by lra.
    apply Qopp_comp. apply rnd_pos_comp; lra.
  - rewrite (rnd_pos_eq P). rewrite rnd_pos_eq by lra.
    apply rnd_pos_comp; lra.
  - unfold rnd. apply Qeq_alt in Z. rewrite Z.
    assert (y == 0) by (apply Qeq_alt in Z; lra).
    apply Qeq_alt in H. rewrite H. reflexivity.
Qed.

Lemma rnd_opp x : rnd (- x) == - rnd x.
Proof.
  destruct (Q_dec x 0) as [[N|P]|Z].
  - rewrite (rnd_neg_eq N). rewrite rnd_pos_eq by lra. ring.
  - rewrite (rnd_pos_eq P). rewrite rnd_neg_eq by lra.
    apply Qopp_comp. apply rnd_pos_comp; [lra | ring].
  - rewrite (rnd_comp Z). rewrite (@rnd_comp (- x) 0) by lra. reflexivity.
Qed.

Lemma rnd_mono x y : x <= y -> rnd x <= rnd y.
Proof.
  intro L.
  destruct (Q_dec x 0) as [[Nx|Px]|Zx]; destruct (Q_dec y 0) as [[Ny|Py]|Zy];
    try (exfalso; lra).
  - rewrite (rnd_neg_eq Nx), (rnd_neg_eq Ny).
    assert (rnd_pos (- y) <= rnd_pos (- x)) by (apply rnd_pos_mono; lra). lra.
  - rewrite (rnd_neg_eq Nx), (rnd_pos_eq Py).
    assert (0 <= rnd_pos (- x)) by (apply rnd_pos_nonneg; lra).
    assert (0 <= rnd_pos y) by (apply rnd_pos_nonneg; lra). lra.
  - rewrite (rnd_neg_eq Nx), (rnd_comp Zy), rnd_0.
    assert (0 <= rnd_pos (- x)) by (apply rnd_pos_nonneg; lra). lra.
  - rewrite (rnd_pos_eq Px), (rnd_pos_eq Py). apply rnd_pos_mono; lra.
  - rewrite (rnd_comp Zx), rnd_0, (rnd_pos_eq Py). apply rnd_pos_nonneg; lra.
  - rewrite (rnd_comp Zx), (rnd_comp Zy). lra.
Qed.

(** *** The number of digits *)

Lemma digits2_pos_spec p :
  (2 ^ (Zpos (digits2_pos p) - 1) <= Zpos p < 2 ^ Zpos (digits2_pos p))%Z.
Proof.
  induction p as [p IH|p IH|]; simpl digits2_pos.
  - rewrite Pos2Z.inj_succ.
    replace (Z.succ (Zpos (digits2_pos p)) - 1)%Z with (Z.succ (Zpos (digits2_pos p) - 1)) by lia.
    rewrite !Z.pow_succ_r by lia. lia.
  - rewrite Pos2Z.inj_succ.
    replace (Z.succ (Zpos (digits2_pos p)) - 1)%Z with (Z.succ (Zpos (digits2_pos p) - 1)) by lia.
    rewrite !Z.pow_succ_r by lia. lia.
  - simpl. lia.
Qed.

Lemma bracket_Zdigits2 m : (0 < m)%Z -> bracket (Zdigits2 m) (inject_Z m).
Proof.
  intro H. destruct m as [|p|p]; try lia. simpl Zdigits2.
  pose proof (digits2_pos_spec p) as [A B]. split.
  - rewrite pow2_Z by lia. rewrite <- Zle_Qle. exact A.
  - rewrite pow2_Z by lia. rewrite <- Zlt_Qlt. exact B.
Qed.

Lemma bracket_scale d x e : bracket d x -> bracket (d + e) (x * pow2 e).
Proof.
  intros [A B]. pose proof (pow2_pos e) as P. split.
  - replace (d + e - 1)%Z with (d - 1 + e)%Z by lia. rewrite pow2_add. nra.
  - rewrite pow2_add. nra.
Qed.

Lemma inbetween_bounds m l y :
  inbetween m l y -> inject_Z m <= y /\ y < inject_Z m + 1.
Proof. destruct l as [|[]]; simpl; intros; split; lra. Qed.

Lemma inbetween_comp m l y y' : y == y' -> inbetween m l y -> inbetween m l y'.
Proof. intro E. destruct l as [|[]]; simpl; intros; try split; lra. Qed.

Lemma bracket_inbetween m l y :
  (0 < m)%Z -> inbetween m l y -> bracket (Zdigits2 m) y.
Proof.
  intros H I. apply inbetween_bounds in I. destruct I as [A B].
  destruct m as [|p|p]; try lia. simpl Zdigits2.
  pose proof (digits2_pos_spec p) as [C D]. split.
  - apply Qle_trans with (inject_Z (Zpos p)); [|exact A].
    rewrite pow2_Z by lia. rewrite <- Zle_Qle. exact C.
  - apply Qlt_le_trans with (inject_Z (Zpos p) + 1); [exact B|].
    rewrite pow2_Z by lia. change 1 with (inject_Z 1). rewrite <- inject_Z_plus.
    rewrite <- Zle_Qle. lia.
Qed.

Lemma good_floor mrs y : good mrs y -> shr_m mrs = Qfloor y.
Proof.
  intros [_ I]. apply inbetween_bounds in I. destruct I as [A B].
  symmetry. apply Qfloor_unique; assumption.
Qed.

(** *** One shift to the right *)

Lemma shr_1_m m r s :
  (0 <= m)%Z ->
  shr_1 (Build_shr_record m r s) = Build_shr_record (m / 2) (Z.odd m) (r || s).
Proof.
  intro H. destruct m as [|p|p]; try lia.
  - reflexivity.
  - destruct p as [p|p|]; unfold shr_1.
    + rewrite Pos2Z.inj_xI. f_equal.
      apply Z.div_unique with 1%Z; lia.
    + rewrite Pos2Z.inj_xO. f_equal.
      apply Z.div_unique with 0%Z; lia.
    + reflexivity.
Qed.

Lemma shr_1_good mrs y : good mrs y -> good (shr_1 mrs) (y / 2).
Proof.
  destruct mrs as [m r s]. intros [H I]. simpl in H, I.
  rewrite shr_1_m by exact H.
  pose proof (Z.div2_odd m) as E. rewrite Z.div2_div in E.
  assert (Hm : (0 <= m / 2)%Z) by (apply Z.div_pos; lia).
  split; [exact Hm|]. simpl shr_m. clear Hm.
  assert (Q1 : inject_Z m == 2 * inject_Z (m / 2) + inject_Z (Z.b2z (Z.odd m))).
  { rewrite E at 1. rewrite inject_Z_plus, inject_Z_mult. reflexivity. }
  clear E H.
  assert (Y : y == 2 * (y / 2)) by field.
  destruct (Z.odd m), r, s; simpl in *;
    change (inject_Z 1) with 1 in Q1; change (inject_Z 0) with 0 in Q1;
    revert I Q1 Y; generalize (y / 2); generalize (inject_Z (m / 2));
    generalize (inject_Z m); intros a b z I Q1 Y; try split; lra.
Qed.

Lemma iter_pos_shr_1_good p mrs y :
  good mrs y -> good (iter_pos shr_1 p mrs) (y / pow2 (Zpos p)).
Proof.
  revert mrs y. induction p as [p IH|p IH|]; intros mrs y G; simpl iter_pos.
  - apply shr_1_good in G. apply IH in G. apply IH in G.
    destruct G as [A B]. split; [exact A|].
    assert (E : y / pow2 (Zpos p~1) == y / 2 / pow2 (Zpos p) / pow2 (Zpos p)).
    { rewrite Pos2Z.inj_xI. replace (2 * Zpos p + 1)%Z with (Zpos p + Zpos p + 1)%Z by lia.
      rewrite !pow2_add, pow2_1. field. apply pow2_ne0. }
    exact (@inbetween_comp _ _ _ _ (@Qeq_sym _ _ E) B).
  - apply IH in G. apply IH in G.
    destruct G as [A B]. split; [exact A|].
    assert (E : y / pow2 (Zpos p~0) == y / pow2 (Zpos p) / pow2 (Zpos p)).
    { rewrite Pos2Z.inj_xO. replace (2 * Zpos p)%Z with (Zpos p + Zpos p)%Z by lia.
      rewrite !pow2_add. field. apply pow2_ne0. }
    exact (@inbetween_comp _ _ _ _ (@Qeq_sym _ _ E) B).
  - apply shr_1_good in G. destruct G as [A B]. split; [exact A|].
    assert (E : y / pow2 1 == y / 2) by (rewrite pow2_1; reflexivity).
    exact (@inbetween_comp _ _ _ _ (@Qeq_sym _ _ E) B).
Qed.

Lemma good_record_of_loc m l y :
  (0 <= m)%Z -> inbetween m l y -> good (shr_record_of_loc m l) y.
Proof. intros H I. destruct l as [|[]]; split; assumption. Qed.

Lemma shr_good mrs e n y :
  (0 <= n)%Z -> good mrs y ->
  good (fst (shr mrs e n)) (y / pow2 n) /\ snd (shr mrs e n) = (e + n)%Z.
Proof.
  intros Hn G. destruct n as [|p|p]; try lia.
  - simpl. split; [|lia]. destruct G as [A B]. split; [exact A|].
    assert (E : y / pow2 0 == y) by (rewrite pow2_0; field).
    exact (@inbetween_comp _ _ _ _ (@Qeq_sym _ _ E) B).
  - simpl. split; [|reflexivity]. apply iter_pos_shr_1_good. exact G.
Qed.

(** *** The choice of the neighbour *)

Lemma round_nearest_even_spec m l y :
  inbetween m l y -> round_nearest_even m l = rnez y.
Proof.
  intro I. pose proof (@inbetween_bounds _ _ _ I) as [A B].
  pose proof (@Qfloor_unique _ _ A B) as F.
  destruct (rnez_cases y) as [[C ->]|[[C ->]|[C ->]]]; rewrite F in *;
    destruct l as [|[]]; simpl in *; try reflexivity; exfalso; lra.
Qed.

Lemma bracket_comp d x y : x == y -> bracket d x -> bracket d y.
Proof. intros E [A B]. split; lra. Qed.

Lemma inject_Z_pos m : (0 < m)%Z -> 0 < inject_Z m.
Proof. intro H. rewrite <- (Zlt_Qlt 0). exact H. Qed.

Lemma canonical_fexp m e :
  canonical_mantissa B64.prec B64.emax m e = true <->
  fexp64 (Zdigits2 (Zpos m) + e) = e.
Proof. unfold canonical_mantissa. rewrite Z.eqb_eq. reflexivity. Qed.

Lemma canonical_digits m e :
  canonical_mantissa B64.prec B64.emax m e = true ->
  (Zdigits2 (Zpos m) <= 53 /\ -1074 <= e /\
   (Zdigits2 (Zpos m) = 53 \/ e = -1074))%Z.
Proof. rewrite canonical_fexp, fexp64_eq. lia. Qed.

(** A canonical double is below [2^1024] exactly when its exponent is at
    most 971. *)
Lemma canonical_overflow m e :
  canonical_mantissa B64.prec B64.emax m e = true ->
  ((e <= 971)%Z <-> inject_Z (Zpos m) * pow2 e < pow2 1024).
Proof.
  intro C. apply canonical_digits in C. destruct C as (C1 & C2 & C3).
  pose proof (@bracket_Zdigits2 (Zpos m) (Pos2Z.is_pos m)) as [B1 B2].
  pose proof (pow2_pos e) as Pe.
  set (d := Zdigits2 (Zpos m)) in *.
  split.
  - intro L.
    assert (pow2 d <= pow2 53) by (apply pow2_le; lia).
    assert (pow2 53 * pow2 e <= pow2 1024).
    { rewrite <- pow2_add. apply pow2_le. lia. }
    nra.
  - intro L. destruct (Z_le_gt_dec e 971) as [|G]; [assumption|exfalso].
    assert (d = 53%Z) by lia.
    assert (pow2 52 <= inject_Z (Zpos m)).
    { replace 52%Z with (d - 1)%Z by lia. exact B1. }
    assert (pow2 1024 <= pow2 52 * pow2 e).
    { rewrite <- pow2_add. apply pow2_le. lia. }
    nra.
Qed.

Lemma iter_pos_shr_1_zero p :
  iter_pos shr_1 p (Build_shr_record 0 false false) = Build_shr_record 0 false false.
Proof. induction p as [p IH|p IH|]; simpl; rewrite ?IH; reflexivity. Qed.

Lemma shr_fexp_zero e :
  shr_m (fst (shr_fexp B64.prec B64.emax 0 e loc_Exact)) = 0%Z.
Proof.
  unfold shr_fexp, shr. simpl shr_record_of_loc.
  destruct (_ - e)%Z; simpl; rewrite ?iter_pos_shr_1_zero; reflexivity.
Qed.

(** The bounds of the nearest integer of a number of known magnitude. *)
Lemma rnez_upper k y : (0 <= k)%Z -> y <= pow2 k -> inject_Z (rnez y) <= pow2 k.
Proof.
  intros Hk L. apply rnez_mono in L.
  rewrite (@rnez_comp (pow2 k) (inject_Z (2 ^ k))) in L by (apply pow2_Z; exact Hk).
  rewrite rnez_Z in L. rewrite pow2_Z by exact Hk. rewrite <- Zle_Qle. exact L.
Qed.

Lemma rnez_lower k y : (0 <= k)%Z -> pow2 k <= y -> pow2 k <= inject_Z (rnez y).
Proof.
  intros Hk L. apply rnez_mono in L.
  rewrite (@rnez_comp (pow2 k) (inject_Z (2 ^ k))) in L by (apply pow2_Z; exact Hk).
  rewrite rnez_Z in L. rewrite pow2_Z by exact Hk. rewrite <- Zle_Qle. exact L.
Qed.

Lemma rnez_small y : y <= 1 # 2 -> (rnez y <= 0)%Z.
Proof. intro L. apply rnez_mono in L. exact L. Qed.

(** The second shift of [binary_round_aux]: the rounded mantissa [mr] has the
    digits of the format, or is the next power of two. *)
Lemma second_shift D mr :
  let E := fexp64 D in
  (0 < mr)%Z -> (E <= D)%Z ->
  pow2 (D - E - 1) <= inject_Z mr -> inject_Z mr <= pow2 (D - E) ->
  exists m2 e2 r2 s2,
    shr_fexp B64.prec B64.emax mr E loc_Exact = (Build_shr_record (Zpos m2) r2 s2, e2) /\
    canonical_mantissa B64.prec B64.emax m2 e2 = true /\
    inject_Z (Zpos m2) * pow2 e2 == inject_Z mr * pow2 E.
Proof.
  intros E Hm HD L U.
  pose proof (@bracket_Zdigits2 _ Hm) as [B1 B2].
  set (d := Zdigits2 mr) in *. set (k := (D - E)%Z) in *.
  assert (Hk : (0 <= k)%Z) by (unfold k; lia).
  assert (d1 : (k <= d)%Z).
  { assert (k - 1 < d)%Z by (apply pow2_lt_inv; lra). lia. }
  assert (d2 : (d - 1 <= k)%Z) by (apply pow2_le_inv; lra).
  unfold shr_fexp. fold d. change (fexp B64.prec B64.emax) with fexp64.
  simpl shr_record_of_loc.
  assert (EE : E = Z.max (D - 53) (-1074)) by (unfold E; apply fexp64_eq).
  destruct (Z.eq_dec (fexp64 (d + E) - E) 0) as [N0|N1].
  - (* no shift *)
    rewrite N0. simpl shr.
    destruct mr as [|p|p]; try lia.
    exists p, E, false, false. split; [reflexivity|]. split; [|reflexivity].
    apply canonical_fexp. fold d. lia.
  - (* the mantissa is 2^53: one shift *)
    rewrite fexp64_eq in N1.
    assert (dk : d = (k + 1)%Z) by lia.
    assert (N : (Z.max (d + E - 53) (-1074) - E = 1)%Z) by lia.
    rewrite fexp64_eq, N. simpl shr.
    assert (K : k = 53%Z) by lia.
    assert (M : mr = (2 ^ 53)%Z).
    { assert (pow2 k <= inject_Z mr).
      { replace k with (d - 1)%Z by lia. exact B1. }
      assert (Q : inject_Z mr == pow2 53) by (rewrite K in *; lra).
      rewrite pow2_Z in Q by lia. exact (proj1 (inject_Z_injective _ _) Q). }
    subst mr. simpl shr_1.
    exists (2 ^ 52)%positive, (E + 1)%Z, false, false. split; [reflexivity|]. split.
    + apply canonical_fexp. rewrite fexp64_eq.
      change (Zdigits2 (Zpos (2 ^ 52))) with 53%Z. lia.
    + rewrite pow2_add, pow2_1.
      change (inject_Z (Zpos (2 ^ 52))) with (inject_Z (2 ^ 52)).
      change (inject_Z (2 ^ 53)) with (inject_Z (2 * 2 ^ 52)).
      rewrite inject_Z_mult. change (inject_Z 2) with 2. ring.
Qed.

(** *** The rounding of [binary_round_aux] *)

Lemma binary_round_aux_spec s m e l x :
  0 < x -> (0 <= m)%Z -> inbetween m l (x / pow2 e) ->
  (e <= fexp64 (Zdigits2 m + e))%Z ->
  rounds s (rnd_pos x) (binary_round_aux B64.prec B64.emax s m e l).
Proof.
  intros Hx Hm I Hle.
  pose proof (@mag_spec _ Hx) as BD.
  unfold rnd_pos. set (D := mag x) in *. set (E := fexp64 D).
  pose proof (pow2_pos e) as Pe. pose proof (pow2_pos E) as PE.
  (* the exponent of the first shift *)
  assert (EA : fexp64 (Zdigits2 m + e) = E).
  { destruct (Z.eq_dec m 0) as [->|NZ].
    - simpl Zdigits2 in *. rewrite fexp64_eq in Hle.
      apply inbetween_bounds in I. destruct I as [_ I].
      change (inject_Z 0) with 0 in I.
      assert (x < pow2 e).
      { rewrite <- (pow2_div_mul x e). revert I. generalize (x / pow2 e).
        intros z I. nra. }
      destruct BD as [BD1 _].
      assert (D - 1 < e)%Z by (apply pow2_lt_inv; lra).
      unfold E. rewrite !fexp64_eq. lia.
    - assert (Hm' : (0 < m)%Z) by lia.
      pose proof (@bracket_scale _ _ e (@bracket_inbetween _ _ _ Hm' I)) as B.
      apply (@bracket_comp _ _ _ (pow2_div_mul x e)) in B.
      unfold E, D. rewrite <- (@mag_unique _ _ B). reflexivity. }
  unfold binary_round_aux, shr_fexp at 1.
  change (fexp B64.prec B64.emax) with fexp64. rewrite EA.
  assert (Hn : (0 <= E - e)%Z) by lia.
  pose proof (@shr_good _ e _ _ Hn (@good_record_of_loc _ _ _ Hm I)) as [G1 E1].
  destruct (shr (shr_record_of_loc m l) e (E - e)) as [rec1 e1]. simpl in G1, E1.
  replace e1 with E by lia. clear E1 e1.
  assert (Y : x / pow2 e / pow2 (E - e) == x / pow2 E).
  { rewrite pow2_sub. field. split; apply pow2_ne0. }
  destruct G1 as [G0 G1]. apply (@inbetween_comp _ _ _ _ Y) in G1.
  rewrite (@round_nearest_even_spec _ _ _ G1).
  set (mr := rnez (x / pow2 E)).
  assert (Y0 : 0 <= x / pow2 E).
  { apply Qle_shift_div_l; [exact PE | lra]. }
  pose proof (@rnez_nonneg _ Y0) as Hr. fold mr in Hr.
  destruct (Z.eq_dec mr 0) as [Z0|NZ].
  - (* the result is a zero *)
    rewrite Z0.
    pose proof (shr_fexp_zero E) as SZ.
    destruct (shr_fexp B64.prec B64.emax 0 E loc_Exact) as [rec2 e2].
    simpl in SZ. rewrite SZ.
    split; [reflexivity|]. left.
    change (inject_Z 0) with 0. pose proof (pow2_pos 1024).
    split; [lra|]. split; [reflexivity|]. simpl. destruct s; lra.
  - assert (Hr' : (0 < mr)%Z) by lia.
    destruct BD as [BD1 BD2].
    assert (Y1 : pow2 (D - 1 - E) <= x / pow2 E).
    { rewrite pow2_sub. apply Qmult_le_compat_r; [exact BD1|].
      apply Qlt_le_weak, Qinv_lt_0_compat, PE. }
    assert (Y2 : x / pow2 E <= pow2 (D - E)).
    { rewrite pow2_sub. apply Qmult_le_compat_r; [lra|].
      apply Qlt_le_weak, Qinv_lt_0_compat, PE. }
    assert (HD : (E <= D)%Z).
    { destruct (Z_le_gt_dec E D) as [|G]; [assumption|exfalso].
      assert (pow2 (D - E) <= pow2 (-1)) by (apply pow2_le; lia).
      assert (x / pow2 E <= 1 # 2).
      { apply Qle_trans with (pow2 (-1)); [lra|]. discriminate. }
      apply rnez_small in H0. fold mr in H0. lia. }
    assert (U : inject_Z mr <= pow2 (D - E)).
    { apply rnez_upper; [lia | exact Y2]. }
    assert (L : pow2 (D - E - 1) <= inject_Z mr).
    { destruct (Z.eq_dec D E) as [DE|DE].
      - replace (D - E - 1)%Z with (-1)%Z by lia.
        apply Qle_trans with 1; [discriminate|].
        change 1 with (inject_Z 1). rewrite <- Zle_Qle. lia.
      - replace (D - E - 1)%Z with (D - 1 - E)%Z by lia.
        apply rnez_lower; [lia | exact Y1]. }
    destruct (@second_shift D mr Hr' HD L U) as (m2 & e2 & r2 & s2 & S2 & C2 & V2).
    fold E in S2, V2. rewrite S2. simpl shr_m.
    pose proof (@canonical_overflow _ _ C2) as OV.
    destruct (Z.leb_spec e2 (B64.emax - B64.prec)) as [Le|Gt].
    + split; [reflexivity|]. left.
      change (B64.emax - B64.prec)%Z with 971%Z in Le.
      apply OV in Le. split; [lra|]. split.
      * unfold is_fin, bounded. rewrite C2. apply Z.leb_le.
        apply OV. exact Le.
      * simpl B2Q. destruct s; simpl cond_Zopp.
        -- rewrite <- V2. change (Z.neg m2) with (- Zpos m2)%Z.
           rewrite inject_Z_opp. ring.
        -- rewrite <- V2. reflexivity.
    + split; [reflexivity|]. right.
      change (B64.emax - B64.prec)%Z with 971%Z in Gt.
      split; [|reflexivity].
      destruct (Qlt_le_dec (inject_Z mr * pow2 E) (pow2 1024)) as [C|C]; [|exact C].
      rewrite <- V2 in C. apply OV in C. lia.
Qed.

Lemma is_fin_double x : is_fin x = true -> is_double x.
Proof. destruct x; simpl; intro H; try discriminate; try reflexivity. exact H. Qed.

Lemma rounds_double s v r : rounds s v r -> is_double r.
Proof.
  intros [_ [(_ & F & _)|(_ & ->)]]; [apply is_fin_double; exact F | reflexivity].
Qed.

Lemma B2Q_finite s m e :
  B2Q (S754_finite s m e) == (if s then - (inject_Z (Zpos m) * pow2 e) else inject_Z (Zpos m) * pow2 e).
Proof.
  simpl. destruct s; simpl cond_Zopp; [|reflexivity].
  change (Z.neg m) with (- Zpos m)%Z. rewrite inject_Z_opp. ring.
Qed.

Lemma mantissa_pos m e : 0 < inject_Z (Zpos m) * pow2 e.
Proof.
  pose proof (pow2_pos e). pose proof (@inject_Z_pos (Zpos m) (Pos2Z.is_pos m)). nra.
Qed.

(** *** Numbers the format has *)

Lemma rnd_pos_exact x k :
  0 < x -> x == inject_Z k * pow2 (fexp64 (mag x)) -> rnd_pos x == x.
Proof.
  intros Hx E. unfold rnd_pos.
  rewrite (@rnez_comp (x / pow2 (fexp64 (mag x))) (inject_Z k)).
  - rewrite rnez_Z. symmetry. exact E.
  - rewrite E at 1. field. apply pow2_ne0.
Qed.

Lemma mag_mantissa m e : mag (inject_Z (Zpos m) * pow2 e) = (Zdigits2 (Zpos m) + e)%Z.
Proof.
  apply mag_unique. apply bracket_scale. apply bracket_Zdigits2. reflexivity.
Qed.

Lemma rnd_pos_canonical m e :
  canonical_mantissa B64.prec B64.emax m e = true ->
  rnd_pos (inject_Z (Zpos m) * pow2 e) == inject_Z (Zpos m) * pow2 e.
Proof.
  intro C. apply canonical_fexp in C.
  apply rnd_pos_exact with (Zpos m); [apply mantissa_pos|].
  rewrite mag_mantissa, C. reflexivity.
Qed.

Lemma is_fin_canonical s m e :
  is_fin (S754_finite s m e) = true -> canonical_mantissa B64.prec B64.emax m e = true.
Proof. simpl. unfold bounded. intro H. apply andb_prop in H. apply H. Qed.

Lemma rnd_B2Q a : is_fin a = true -> rnd (B2Q a) == B2Q a.
Proof.
  destruct a as [s|s| |s m e]; simpl is_fin; intro F; try discriminate; try reflexivity.
  pose proof (@is_fin_canonical s m e F) as C.
  pose proof (mantissa_pos m e) as P.
  rewrite (rnd_comp (B2Q_finite s m e)), B2Q_finite. destruct s.
  - rewrite rnd_opp. rewrite rnd_pos_eq by exact P. rewrite rnd_pos_canonical by exact C.
    reflexivity.
  - rewrite rnd_pos_eq by exact P. apply rnd_pos_canonical. exact C.
Qed.

(** *** From the rounded magnitude to the rounded value *)

Lemma rounds_fin (s : bool) (x q : Q) (r : b64) :
  0 < x -> q == (if s then - x else x) -> rounds s (rnd_pos x) r ->
  Qabs (rnd q) < pow2 1024 -> is_fin r = true /\ B2Q r == rnd q.
Proof.
  intros Hx Eq [_ R] A.
  pose proof (@rnd_pos_nonneg x Hx) as NN.
  assert (Er : rnd q == (if s then - rnd_pos x else rnd_pos x)).
  { rewrite (rnd_comp Eq). destruct s.
    - rewrite rnd_opp. rewrite rnd_pos_eq by exact Hx. reflexivity.
    - rewrite rnd_pos_eq by exact Hx. reflexivity. }
  assert (Ea : Qabs (rnd q) == rnd_pos x).
  { rewrite Er. destruct s.
    - rewrite Qabs_opp. apply Qabs_pos. exact NN.
    - apply Qabs_pos. exact NN. }
  destruct R as [(V & F & B)|(V & ->)].
  - split; [exact F|]. rewrite B, Er. reflexivity.
  - exfalso. rewrite Ea in A. lra.
Qed.

Lemma rounds_inf (s : bool) (x q : Q) (r : b64) :
  0 < x -> q == (if s then - x else x) -> rounds s (rnd_pos x) r ->
  pow2 1024 <= Qabs (rnd q) -> r = S754_infinity s.
Proof.
  intros Hx Eq [_ R] A.
  pose proof (@rnd_pos_nonneg x Hx) as NN.
  assert (Ea : Qabs (rnd q) == rnd_pos x).
  { rewrite (rnd_comp Eq). destruct s.
    - rewrite rnd_opp. rewrite rnd_pos_eq by exact Hx. rewrite Qabs_opp.
      apply Qabs_pos. exact NN.
    - rewrite rnd_pos_eq by exact Hx. apply Qabs_pos. exact NN. }
  destruct R as [(V & F & B)|(V & ->)].
  - exfalso. rewrite Ea in A. lra.
  - reflexivity.
Qed.

(** *** [binary_round] and [binary_normalize] *)

Lemma pos_iter_xO m d : Zpos (Pos.iter xO m d) = (Zpos m * 2 ^ Zpos d)%Z.
Proof.
  induction d as [|d IH] using Pos.peano_ind.
  - simpl. lia.
  - rewrite Pos.iter_succ. rewrite Pos2Z.inj_xO, IH, Pos2Z.inj_succ.
    rewrite Z.pow_succ_r by lia. lia.
Qed.

Lemma shl_align_spec m e e' :
  let '(m', e'') := shl_align m e e' in
  (e'' <= e)%Z /\ (e'' = e \/ e'' = e') /\ (e' <= e -> e'' = e')%Z /\
  (e <= e' -> e'' = e)%Z /\
  inject_Z (Zpos m') * pow2 e'' == inject_Z (Zpos m) * pow2 e.
Proof.
  unfold shl_align. destruct (e' - e)%Z as [|d|d] eqn:D.
  - split; [lia|]. split; [lia|]. split; [lia|]. split; [lia|]. reflexivity.
  - split; [lia|]. split; [lia|]. split; [lia|]. split; [lia|]. reflexivity.
  - split; [lia|]. split; [lia|]. split; [lia|]. split; [lia|].
    assert (E : pow2 e == pow2 (Zpos d) * pow2 e').
    { rewrite <- pow2_add. replace (Zpos d + e')%Z with e by lia. reflexivity. }
    rewrite pos_iter_xO, inject_Z_mult, <- pow2_Z by lia.
    rewrite E. ring.
Qed.

Lemma binary_round_spec s m e :
  rounds s (rnd_pos (inject_Z (Zpos m) * pow2 e)) (binary_round B64.prec B64.emax s m e).
Proof.
  unfold binary_round.
  pose proof (shl_align_spec m e (fexp B64.prec B64.emax (Zpos (digits2_pos m) + e))) as A.
  destruct (shl_align m e _) as [mz ez].
  destruct A as (A1 & A2 & A3 & A4 & A5).
  change (fexp B64.prec B64.emax) with fexp64 in *.
  change (Zpos (digits2_pos m)) with (Zdigits2 (Zpos m)) in *.
  pose proof (mantissa_pos m e) as P.
  assert (M : (Zdigits2 (Zpos mz) + ez = Zdigits2 (Zpos m) + e)%Z).
  { rewrite <- !mag_mantissa. apply mag_comp; [apply mantissa_pos | exact A5]. }
  apply binary_round_aux_spec.
  - exact P.
  - lia.
  - simpl. rewrite <- A5. field. apply pow2_ne0.
  - rewrite M. lia.
Qed.

Lemma binary_normalize_spec z e sz :
  z <> 0%Z ->
  rounds (z <? 0)%Z (rnd_pos (inject_Z (Z.abs z) * pow2 e))
    (binary_normalize B64.prec B64.emax z e sz).
Proof.
  intro NZ. destruct z as [|p|p]; try congruence; simpl; apply binary_round_spec.
Qed.

Lemma binary_normalize_fin z e sz :
  Qabs (rnd (inject_Z z * pow2 e)) < pow2 1024 ->
  is_fin (binary_normalize B64.prec B64.emax z e sz) = true /\
  B2Q (binary_normalize B64.prec B64.emax z e sz) == rnd (inject_Z z * pow2 e).
Proof.
  intro A. destruct (Z.eq_dec z 0) as [->|NZ].
  - simpl. split; [reflexivity|]. rewrite (@rnd_comp (inject_Z 0 * pow2 e) 0) by ring.
    reflexivity.
  - apply rounds_fin with (3 := binary_normalize_spec e sz NZ); [| |exact A].
    + pose proof (pow2_pos e). assert (0 < inject_Z (Z.abs z)) by (apply inject_Z_pos; lia).
      nra.
    + destruct z as [|p|p]; try congruence.
      * reflexivity.
      * change (Z.neg p <? 0)%Z with true. change (Z.abs (Z.neg p)) with (Zpos p).
        cbv iota. change (Z.neg p) with (- Zpos p)%Z. rewrite inject_Z_opp. ring.
Qed.

Lemma binary_normalize_double z e sz :
  is_double (binary_normalize B64.prec B64.emax z e sz).
Proof.
  destruct (Z.eq_dec z 0) as [->|NZ]; [reflexivity|].
  exact (rounds_double (binary_normalize_spec e sz NZ)).
Qed.

(** *** Multiplication *)

Lemma Zdigits2_pos_ge1 m : (1 <= Zdigits2 (Zpos m))%Z.
Proof. simpl. lia. Qed.

Lemma Zdigits2_mul mx my :
  (Zdigits2 (Zpos mx) + Zdigits2 (Zpos my) - 1 <= Zdigits2 (Zpos (mx * my)))%Z.
Proof.
  pose proof (@bracket_Zdigits2 (Zpos mx) (Pos2Z.is_pos mx)) as [A1 A2].
  pose proof (@bracket_Zdigits2 (Zpos my) (Pos2Z.is_pos my)) as [B1 B2].
  pose proof (@bracket_Zdigits2 (Zpos (mx * my)) (Pos2Z.is_pos _)) as [C1 C2].
  set (dx := Zdigits2 (Zpos mx)) in *. set (dy := Zdigits2 (Zpos my)) in *.
  set (d := Zdigits2 (Zpos (mx * my))) in *.
  rewrite Pos2Z.inj_mul, inject_Z_mult in C1, C2.
  assert (E : pow2 (dx - 1 + (dy - 1)) == pow2 (dx - 1) * pow2 (dy - 1)) by apply pow2_add.
  pose proof (pow2_pos (dx - 1)) as P1. pose proof (pow2_pos (dy - 1)) as P2.
  assert (F : pow2 (dx - 1 + (dy - 1)) < pow2 d).
  { rewrite E. clear - A1 B1 C2 P1 P2. revert A1 B1 C2 P1 P2.
    generalize (pow2 (dx - 1)) (pow2 (dy - 1)) (pow2 d)
      (inject_Z (Zpos mx)) (inject_Z (Zpos my)).
    intros p q r a b A1 B1 C2 P1 P2.
    assert (0 <= (a - p) * b) by (apply Qmult_le_0_compat; lra).
    assert (0 <= p * (b - q)) by (apply Qmult_le_0_compat; lra).
    nra. }
  apply pow2_lt_inv in F. lia.
Qed.

Lemma SFmul_rounds sx mx ex sy my ey :
  is_fin (S754_finite sx mx ex) = true -> is_fin (S754_finite sy my ey) = true ->
  rounds (xorb sx sy)
    (rnd_pos (inject_Z (Zpos mx) * pow2 ex * (inject_Z (Zpos my) * pow2 ey)))
    (SFmul B64.prec B64.emax (S754_finite sx mx ex) (S754_finite sy my ey)).
Proof.
  intros Fx Fy. apply is_fin_canonical in Fx, Fy.
  apply canonical_digits in Fx, Fy.
  pose proof (Zdigits2_mul mx my). pose proof (Zdigits2_pos_ge1 mx).
  pose proof (Zdigits2_pos_ge1 my).
  simpl SFmul. apply binary_round_aux_spec.
  - pose proof (mantissa_pos mx ex). pose proof (mantissa_pos my ey). nra.
  - lia.
  - simpl. rewrite Pos2Z.inj_mul, inject_Z_mult, pow2_add. field.
    split; apply pow2_ne0.
  - rewrite fexp64_eq. lia.
Qed.

Lemma SFmul_double a b :
  is_double a -> is_double b -> is_double (SFmul B64.prec B64.emax a b).
Proof.
  destruct a as [sa|sa| |sa ma ea], b as [sb|sb| |sb mb eb]; intros Da Db;
    try reflexivity.
  apply (rounds_double (@SFmul_rounds sa ma ea sb mb eb Da Db)).
Qed.

Lemma SFmul_fin a b :
  is_fin a = true -> is_fin b = true ->
  Qabs (rnd (B2Q a * B2Q b)) < pow2 1024 ->
  is_fin (SFmul B64.prec B64.emax a b) = true /\
  B2Q (SFmul B64.prec B64.emax a b) == rnd (B2Q a * B2Q b).
Proof.
  destruct a as [sa|sa| |sa ma ea], b as [sb|sb| |sb mb eb]; intros Fa Fb A;
    try discriminate.
  - split; [reflexivity|]. simpl. rewrite (@rnd_comp (0 * 0) 0) by ring. reflexivity.
  - split; [reflexivity|]. rewrite (@rnd_comp _ 0) by (simpl B2Q at 1; ring). reflexivity.
  - split; [reflexivity|]. rewrite (@rnd_comp _ 0) by (simpl B2Q at 2; ring). reflexivity.
  - apply rounds_fin with (3 := @SFmul_rounds sa ma ea sb mb eb Fa Fb); [| |exact A].
    + pose proof (mantissa_pos ma ea). pose proof (mantissa_pos mb eb). nra.
    + rewrite !B2Q_finite. destruct sa, sb; simpl xorb; cbv iota; ring.
Qed.

(** *** Addition and subtraction *)

Lemma cond_Zopp_Q s m : inject_Z (cond_Zopp s m) == (if s then - inject_Z m else inject_Z m).
Proof. destruct s; simpl cond_Zopp; [rewrite inject_Z_opp|]; reflexivity. Qed.

Lemma aligned_value s m e ez :
  (ez <= e)%Z ->
  inject_Z (cond_Zopp s (Zpos (fst (shl_align m e ez)))) * pow2 ez ==
  B2Q (S754_finite s m e).
Proof.
  intro L. pose proof (shl_align_spec m e ez) as A.
  destruct (shl_align m e ez) as [m' e']. destruct A as (_ & _ & A3 & _ & A5).
  rewrite (A3 L) in A5. simpl fst. rewrite B2Q_finite, cond_Zopp_Q.
  destruct s; cbv iota; rewrite <- A5; ring.
Qed.

Lemma SFadd_double a b :
  is_double a -> is_double b -> is_double (SFadd B64.prec B64.emax a b).
Proof.
  destruct a as [sa|sa| |sa ma ea], b as [sb|sb| |sb mb eb]; intros Da Db;
    try reflexivity; try assumption.
  - destruct sa, sb; reflexivity.
  - destruct sa, sb; reflexivity.
  - apply binary_normalize_double.
Qed.

Lemma SFsub_double a b :
  is_double a -> is_double b -> is_double (SFsub B64.prec B64.emax a b).
Proof.
  destruct a as [sa|sa| |sa ma ea], b as [sb|sb| |sb mb eb]; intros Da Db;
    try reflexivity; try assumption.
  - destruct sa, sb; reflexivity.
  - destruct sa, sb; reflexivity.
  - apply binary_normalize_double.
Qed.

Lemma SFadd_fin a b :
  is_fin a = true -> is_fin b = true ->
  Qabs (rnd (B2Q a + B2Q b)) < pow2 1024 ->
  is_fin (SFadd B64.prec B64.emax a b) = true /\
  B2Q (SFadd B64.prec B64.emax a b) == rnd (B2Q a + B2Q b).
Proof.
  destruct a as [sa|sa| |sa ma ea], b as [sb|sb| |sb mb eb]; intros Fa Fb A;
    try discriminate.
  - split; [destruct sa, sb; reflexivity|].
    rewrite (@rnd_comp _ 0) by (simpl; ring). destruct sa, sb; reflexivity.
  - split; [exact Fb|]. simpl SFadd.
    rewrite (@rnd_comp _ (B2Q (S754_finite sb mb eb))) by (simpl B2Q at 1; ring).
    symmetry. apply rnd_B2Q. exact Fb.
  - split; [exact Fa|]. simpl SFadd.
    rewrite (@rnd_comp _ (B2Q (S754_finite sa ma ea))) by (simpl B2Q at 2; ring).
    symmetry. apply rnd_B2Q. exact Fa.
  - simpl SFadd.
    assert (E : inject_Z (cond_Zopp sa (Zpos (fst (shl_align ma ea (Z.min ea eb)))) +
                          cond_Zopp sb (Zpos (fst (shl_align mb eb (Z.min ea eb))))) *
                pow2 (Z.min ea eb) ==
                B2Q (S754_finite sa ma ea) + B2Q (S754_finite sb mb eb)).
    { rewrite inject_Z_plus, Qmult_plus_distr_l.
      rewrite !aligned_value by lia. reflexivity. }
    rewrite <- (rnd_comp E) in A |- *.
    apply binary_normalize_fin. exact A.
Qed.

Lemma SFsub_fin a b :
  is_fin a = true -> is_fin b = true ->
  Qabs (rnd (B2Q a - B2Q b)) < pow2 1024 ->
  is_fin (SFsub B64.prec B64.emax a b) = true /\
  B2Q (SFsub B64.prec B64.emax a b) == rnd (B2Q a - B2Q b).
Proof.
  destruct a as [sa|sa| |sa ma ea], b as [sb|sb| |sb mb eb]; intros Fa Fb A;
    try discriminate.
  - split; [destruct sa, sb; reflexivity|].
    rewrite (@rnd_comp _ 0) by (simpl; ring). destruct sa, sb; reflexivity.
  - split; [exact Fb|]. simpl SFsub.
    rewrite (@rnd_comp _ (- B2Q (S754_finite sb mb eb))) by (simpl B2Q at 1; ring).
    rewrite rnd_opp. rewrite rnd_B2Q by exact Fb.
    rewrite !B2Q_finite. destruct sb; simpl negb; cbv iota; ring.
  - split; [exact Fa|]. simpl SFsub.
    rewrite (@rnd_comp _ (B2Q (S754_finite sa ma ea))) by (simpl B2Q at 2; ring).
    symmetry. apply rnd_B2Q. exact Fa.
  - simpl SFsub.
    assert (E : inject_Z (cond_Zopp sa (Zpos (fst (shl_align ma ea (Z.min ea eb)))) -
                          cond_Zopp sb (Zpos (fst (shl_align mb eb (Z.min ea eb))))) *
                pow2 (Z.min ea eb) ==
                B2Q (S754_finite sa ma ea) - B2Q (S754_finite sb mb eb)).
    { unfold Z.sub. rewrite inject_Z_plus, inject_Z_opp, Qmult_plus_distr_l.
      rewrite <- !(@aligned_value _ _ _ (Z.min ea eb)) by lia. ring. }
    rewrite <- (rnd_comp E) in A |- *.
    apply binary_normalize_fin. exact A.
Qed.

(** *** Division *)

Lemma new_location_spec n q r :
  (0 < n)%Z -> (0 <= r < n)%Z ->
  inbetween q (new_location n r) (inject_Z q + inject_Z r / inject_Z n).
Proof.
  intros Hn Hr.
  assert (Pn : 0 < inject_Z n) by (apply inject_Z_pos; exact Hn).
  assert (R : inject_Z r == inject_Z r / inject_Z n * inject_Z n).
  { field. lra. }
  assert (R0 : 0 <= inject_Z r) by (rewrite <- (Zle_Qle 0); lia).
  assert (Rn : inject_Z r < inject_Z n) by (rewrite <- Zlt_Qlt; lia).
  assert (T : forall k, inject_Z (2 * r + k) == 2 * inject_Z r + inject_Z k).
  { intro k. rewrite inject_Z_plus, inject_Z_mult. reflexivity. }
  unfold new_location, new_location_even, new_location_odd.
  destruct (Z.even n) eqn:Ev.
  - destruct (Z.eqb_spec r 0) as [->|NZ].
    + simpl. unfold Qdiv. rewrite Qmult_0_l. ring.
    + assert (0 < inject_Z r) by (apply inject_Z_pos; lia).
      destruct (Z.compare_spec (2 * r) n) as [C|C|C]; simpl.
      * assert (C' : 2 * inject_Z r == inject_Z n).
        { rewrite <- C, inject_Z_mult. reflexivity. }
        revert R C'. generalize (inject_Z r / inject_Z n). intros z R C'. nra.
      * rewrite Zlt_Qlt, inject_Z_mult in C. change (inject_Z 2) with 2 in C.
        revert R C. generalize (inject_Z r / inject_Z n). intros z R C. split; nra.
      * rewrite Zlt_Qlt, inject_Z_mult in C. change (inject_Z 2) with 2 in C.
        revert R C. generalize (inject_Z r / inject_Z n). intros z R C. split; nra.
  - destruct (Z.eqb_spec r 0) as [->|NZ].
    + simpl. unfold Qdiv. rewrite Qmult_0_l. ring.
    + assert (0 < inject_Z r) by (apply inject_Z_pos; lia).
      assert (Od : (2 * r <> n)%Z).
      { intro C. rewrite <- C in Ev. rewrite Z.even_mul in Ev. discriminate. }
      destruct (Z.compare_spec (2 * r + 1) n) as [C|C|C]; simpl.
      * assert (C' : (2 * r < n)%Z) by lia.
        rewrite Zlt_Qlt, inject_Z_mult in C'. change (inject_Z 2) with 2 in C'.
        revert R C'. generalize (inject_Z r / inject_Z n). intros z R C'. split; nra.
      * assert (C' : (2 * r < n)%Z) by lia.
        rewrite Zlt_Qlt, inject_Z_mult in C'. change (inject_Z 2) with 2 in C'.
        revert R C'. generalize (inject_Z r / inject_Z n). intros z R C'. split; nra.
      * assert (C' : (n < 2 * r)%Z) by lia.
        rewrite Zlt_Qlt, inject_Z_mult in C'. change (inject_Z 2) with 2 in C'.
        revert R C'. generalize (inject_Z r / inject_Z n). intros z R C'. split; nra.
Qed.

Lemma SFdiv_core_spec mx ex my ey :
  let x := inject_Z (Zpos mx) * pow2 ex / (inject_Z (Zpos my) * pow2 ey) in
  let '(q, e', l) := SFdiv_core_binary B64.prec B64.emax (Zpos mx) ex (Zpos my) ey in
  (0 <= q)%Z /\ inbetween q l (x / pow2 e') /\ (e' <= fexp64 (Zdigits2 q + e'))%Z.
Proof.
  intro x. unfold SFdiv_core_binary.
  change (fexp B64.prec B64.emax) with fexp64.
  set (d1 := Zdigits2 (Zpos mx)). set (d2 := Zdigits2 (Zpos my)).
  set (e' := Z.min (fexp64 (d1 + ex - (d2 + ey))) (ex - ey)).
  set (s := (ex - ey - e')%Z).
  assert (Hs : (0 <= s)%Z) by (unfold s, e'; lia).
  set (m' := match s with Zpos _ => Z.shiftl (Zpos mx) s | Z0 => Zpos mx | Zneg _ => 0%Z end).
  assert (M : m' = (Zpos mx * 2 ^ s)%Z).
  { unfold m'. destruct s as [|p|p]; try lia.
    rewrite Z.shiftl_mul_pow2 by lia. reflexivity. }
  assert (Hm' : (0 < m')%Z).
  { rewrite M. assert (0 < 2 ^ s)%Z by (apply Z.pow_pos_nonneg; lia). lia. }
  pose proof (Z_div_mod m' (Zpos my) (eq_refl _)) as DM.
  destruct (Z.div_eucl m' (Zpos my)) as [q r]. destruct DM as [DM Hr].
  pose proof (pow2_pos ex) as Pex. pose proof (pow2_pos ey) as Pey.
  pose proof (pow2_pos e') as Pe'.
  assert (Pmx : 0 < inject_Z (Zpos mx)) by (apply inject_Z_pos; reflexivity).
  assert (Pmy : 0 < inject_Z (Zpos my)) by (apply inject_Z_pos; reflexivity).
  assert (Hq : (0 <= q)%Z) by nia.
  (* the scaled quotient *)
  assert (X : x / pow2 e' == inject_Z q + inject_Z r / inject_Z (Zpos my)).
  { assert (E1 : inject_Z m' == inject_Z (Zpos my) * inject_Z q + inject_Z r).
    { rewrite DM, inject_Z_plus, inject_Z_mult. reflexivity. }
    assert (E2 : inject_Z m' == inject_Z (Zpos mx) * pow2 s).
    { rewrite M, inject_Z_mult, pow2_Z by lia. reflexivity. }
    assert (E3 : pow2 ex == pow2 s * pow2 ey * pow2 e').
    { rewrite <- !pow2_add. replace (s + ey + e')%Z with ex by (unfold s; lia). reflexivity. }
    unfold x. rewrite E3.
    transitivity (inject_Z (Zpos mx) * pow2 s / inject_Z (Zpos my)).
    - field. repeat split; try apply pow2_ne0; lra.
    - rewrite <- E2, E1. field. lra. }
  assert (I : inbetween q (new_location (Zpos my) r) (x / pow2 e')).
  { apply (@inbetween_comp _ _ _ _ (Qeq_sym _ _ X)).
    apply new_location_spec; [reflexivity | lia]. }
  split; [exact Hq|]. split; [exact I|].
  (* the magnitude of the quotient *)
  pose proof (@bracket_Zdigits2 (Zpos mx) (Pos2Z.is_pos mx)) as [A1 A2].
  pose proof (@bracket_Zdigits2 (Zpos my) (Pos2Z.is_pos my)) as [B1 B2].
  fold d1 in A1, A2. fold d2 in B1, B2.
  assert (Lx : pow2 (d1 + ex - (d2 + ey) - 1) < x).
  { assert (E : pow2 (d1 - 1) * pow2 ex ==
                pow2 (d1 + ex - (d2 + ey) - 1) * (pow2 d2 * pow2 ey)).
    { rewrite <- !pow2_add. apply Qpower_comp; [reflexivity | lia]. }
    unfold x. apply Qlt_shift_div_l; [nra|].
    pose proof (pow2_pos (d1 + ex - (d2 + ey) - 1)) as P0.
    pose proof (pow2_pos (d1 - 1)) as P1. pose proof (pow2_pos d2) as P2.
    apply Qlt_le_trans with (pow2 (d1 + ex - (d2 + ey) - 1) * (pow2 d2 * pow2 ey)).
    - apply Qmult_lt_l; [exact P0|]. apply Qmult_lt_r; [exact Pey | exact B2].
    - rewrite <- E. apply Qmult_le_compat_r; [exact A1 | lra]. }
  set (dl := (d1 + ex - (d2 + ey))%Z) in *.
  assert (Hx : 0 < x) by (pose proof (pow2_pos (dl - 1)); lra).
  assert (Xs : x / pow2 e' * pow2 e' == x) by apply pow2_div_mul.
  destruct (Z.eq_dec q 0) as [->|NZ].
  - simpl Zdigits2. apply inbetween_bounds in I. destruct I as [_ I].
    change (inject_Z 0) with 0 in I.
    assert (x < pow2 e').
    { rewrite <- Xs. revert I. generalize (x / pow2 e'). intros z I. nra. }
    assert (dl - 1 < e')%Z by (apply pow2_lt_inv; lra).
    rewrite fexp64_eq. unfold e' in *. rewrite fexp64_eq in *. lia.
  - assert (Hq' : (0 < q)%Z) by lia.
    pose proof (@bracket_scale _ _ e' (@bracket_inbetween _ _ _ Hq' I)) as [_ B].
    rewrite Xs in B.
    assert (dl - 1 < Zdigits2 q + e')%Z by (apply pow2_lt_inv; lra).
    assert (fexp64 dl <= fexp64 (Zdigits2 q + e'))%Z by (apply fexp64_mono; lia).
    unfold e' at 1. lia.
Qed.

Lemma SFdiv_rounds sx mx ex sy my ey :
  rounds (xorb sx sy)
    (rnd_pos (inject_Z (Zpos mx) * pow2 ex / (inject_Z (Zpos my) * pow2 ey)))
    (SFdiv B64.prec B64.emax (S754_finite sx mx ex) (S754_finite sy my ey)).
Proof.
  simpl SFdiv. pose proof (SFdiv_core_spec mx ex my ey) as S.
  destruct (SFdiv_core_binary B64.prec B64.emax (Zpos mx) ex (Zpos my) ey) as [[q e'] l].
  destruct S as (S1 & S2 & S3).
  apply binary_round_aux_spec; try assumption.
  pose proof (mantissa_pos mx ex). pose proof (mantissa_pos my ey).
  apply Qlt_shift_div_l; lra.
Qed.

Lemma SFdiv_double a b :
  is_double a -> is_double b -> is_double (SFdiv B64.prec B64.emax a b).
Proof.
  destruct a as [sa|sa| |sa ma ea], b as [sb|sb| |sb mb eb]; intros Da Db;
    try reflexivity.
  apply (rounds_double (SFdiv_rounds sa ma ea sb mb eb)).
Qed.

Lemma SFdiv_fin a b :
  is_fin a = true -> is_fin b = true -> ~ B2Q b == 0 ->
  Qabs (rnd (B2Q a / B2Q b)) < pow2 1024 ->
  is_fin (SFdiv B64.prec B64.emax a b) = true /\
  B2Q (SFdiv B64.prec B64.emax a b) == rnd (B2Q a / B2Q b).
Proof.
  destruct a as [sa|sa| |sa ma ea], b as [sb|sb| |sb mb eb]; intros Fa Fb NZ A;
    try discriminate; try (exfalso; apply NZ; reflexivity).
  - split; [reflexivity|].
    rewrite (@rnd_comp _ 0) by (simpl B2Q at 1; unfold Qdiv; ring). reflexivity.
  - pose proof (mantissa_pos ma ea). pose proof (mantissa_pos mb eb).
    apply rounds_fin with (3 := SFdiv_rounds sa ma ea sb mb eb); [| |exact A].
    + apply Qlt_shift_div_l; lra.
    + pose proof (@inject_Z_pos (Zpos mb) (eq_refl _)) as Pm.
      rewrite !B2Q_finite.
      destruct sa, sb; simpl xorb; cbv iota; field;
        repeat split; try apply pow2_ne0; lra.
Qed.

(** *** The order of the doubles *)

Lemma canonical_lt m1 e1 m2 e2 :
  canonical_mantissa B64.prec B64.emax m1 e1 = true ->
  canonical_mantissa B64.prec B64.emax m2 e2 = true ->
  (e1 < e2)%Z -> inject_Z (Zpos m1) * pow2 e1 < inject_Z (Zpos m2) * pow2 e2.
Proof.
  intros C1 C2 L. apply canonical_digits in C1, C2.
  pose proof (@bracket_Zdigits2 (Zpos m1) (Pos2Z.is_pos m1)) as [_ A].
  pose proof (@bracket_Zdigits2 (Zpos m2) (Pos2Z.is_pos m2)) as [B _].
  set (d1 := Zdigits2 (Zpos m1)) in *. set (d2 := Zdigits2 (Zpos m2)) in *.
  pose proof (pow2_pos e1) as P1. pose proof (pow2_pos e2) as P2.
  assert (X1 : inject_Z (Zpos m1) * pow2 e1 < pow2 (d1 + e1)).
  { rewrite pow2_add. apply Qmult_lt_r; assumption. }
  assert (X2 : pow2 (d2 - 1 + e2) <= inject_Z (Zpos m2) * pow2 e2).
  { rewrite pow2_add. apply Qmult_le_compat_r; [assumption | lra]. }
  assert (pow2 (d1 + e1) <= pow2 (d2 - 1 + e2)) by (apply pow2_le; lia).
  lra.
Qed.

Lemma Qcompare_Lt x y : x < y -> (x ?= y) = Lt.
Proof. intro H. apply (proj1 (Qlt_alt _ _)). exact H. Qed.

Lemma Qcompare_Gt x y : y < x -> (x ?= y) = Gt.
Proof. intro H. apply (proj1 (Qgt_alt _ _)). exact H. Qed.

Lemma Qcompare_Eq x y : x == y -> (x ?= y) = Eq.
Proof. intro H. apply (proj1 (Qeq_alt _ _)). exact H. Qed.

Lemma mantissa_compare m1 m2 e :
  (inject_Z (Zpos m1) * pow2 e ?= inject_Z (Zpos m2) * pow2 e) = Pos.compare m1 m2.
Proof.
  pose proof (pow2_pos e) as P.
  destruct (Pos.compare_spec m1 m2) as [C|C|C].
  - subst. apply Qcompare_Eq. reflexivity.
  - apply Qcompare_Lt. apply Qmult_lt_r; [exact P|]. rewrite <- Zlt_Qlt. lia.
  - apply Qcompare_Gt. apply Qmult_lt_r; [exact P|]. rewrite <- Zlt_Qlt. lia.
Qed.

Lemma Qcompare_opp x y : (- x ?= - y) = CompOpp (x ?= y).
Proof.
  destruct (Qcompare_spec x y) as [C|C|C].
  - apply Qcompare_Eq. lra.
  - apply Qcompare_Gt. lra.
  - apply Qcompare_Lt. lra.
Qed.

Lemma positive_compare s1 m1 e1 m2 e2 :
  is_fin (S754_finite s1 m1 e1) = true -> is_fin (S754_finite s1 m2 e2) = true ->
  (inject_Z (Zpos m1) * pow2 e1 ?= inject_Z (Zpos m2) * pow2 e2) =
  match Z.compare e1 e2 with
  | Lt => Lt
  | Gt => Gt
  | Eq => Pos.compare_cont Eq m1 m2
  end.
Proof.
  intros F1 F2. apply is_fin_canonical in F1, F2.
  destruct (Z.compare_spec e1 e2) as [C|C|C].
  - subst. apply mantissa_compare.
  - apply Qcompare_Lt. apply canonical_lt; assumption.
  - apply Qcompare_Gt. apply canonical_lt; assumption.
Qed.

Theorem SFcompare_fin a b :
  is_fin a = true -> is_fin b = true -> SFcompare a b = Some (B2Q a ?= B2Q b).
Proof.
  destruct a as [sa|sa| |sa ma ea], b as [sb|sb| |sb mb eb]; intros Fa Fb;
    try discriminate.
  - reflexivity.
  - pose proof (mantissa_pos mb eb). simpl SFcompare. f_equal. symmetry.
    destruct sb; [apply Qcompare_Gt | apply Qcompare_Lt];
      rewrite B2Q_finite; cbv iota; change (B2Q (S754_zero sa)) with 0; lra.
  - pose proof (mantissa_pos ma ea). simpl SFcompare. f_equal. symmetry.
    destruct sa; [apply Qcompare_Lt | apply Qcompare_Gt];
      rewrite B2Q_finite; cbv iota; change (B2Q (S754_zero sb)) with 0; lra.
  - pose proof (mantissa_pos ma ea). pose proof (mantissa_pos mb eb).
    simpl SFcompare. f_equal. symmetry.
    rewrite (Qcompare_comp _ _ (B2Q_finite sa ma ea) _ _ (B2Q_finite sb mb eb)).
    destruct sa, sb; cbv iota.
    + rewrite Qcompare_opp. rewrite (@positive_compare true ma ea mb eb Fa Fb).
      destruct (Z.compare ea eb); reflexivity.
    + apply Qcompare_Lt. lra.
    + apply Qcompare_Gt. lra.
    + apply (@positive_compare false ma ea mb eb Fa Fb).
Qed.

Lemma SFltb_fin a b :
  is_fin a = true -> is_fin b = true -> (SFltb a b = true <-> B2Q a < B2Q b).
Proof.
  intros Fa Fb. unfold SFltb. rewrite (SFcompare_fin a b Fa Fb).
  destruct (Qcompare_spec (B2Q a) (B2Q b)) as [C|C|C]; split; intro H;
    try discriminate; try reflexivity; lra.
Qed.

Lemma SFleb_fin a b :
  is_fin a = true -> is_fin b = true -> (SFleb a b = true <-> B2Q a <= B2Q b).
Proof.
  intros Fa Fb. unfold SFleb. rewrite (SFcompare_fin a b Fa Fb).
  destruct (Qcompare_spec (B2Q a) (B2Q b)) as [C|C|C]; split; intro H;
    try discriminate; try reflexivity; lra.
Qed.

(** *** [Math.max] and [Math.min] *)

Lemma max_fin a b :
  is_fin a = true -> is_fin b = true ->
  is_fin (B64.max a b) = true /\
  B2Q a <= B2Q (B64.max a b) /\ B2Q b <= B2Q (B64.max a b) /\
  (B2Q (B64.max a b) == B2Q a \/ B2Q (B64.max a b) == B2Q b).
Proof.
  intros Fa Fb. unfold B64.max. rewrite (SFcompare_fin a b Fa Fb).
  destruct (Qcompare_spec (B2Q a) (B2Q b)) as [C|C|C].
  - destruct (B64.is_neg_zero a).
    + split; [exact Fb|]. repeat split; try lra; right; reflexivity.
    + split; [exact Fa|]. repeat split; try lra; left; reflexivity.
  - split; [exact Fb|]. repeat split; try lra; right; reflexivity.
  - split; [exact Fa|]. repeat split; try lra; left; reflexivity.
Qed.

Lemma min_fin a b :
  is_fin a = true -> is_fin b = true ->
  is_fin (B64.min a b) = true /\
  B2Q (B64.min a b) <= B2Q a /\ B2Q (B64.min a b) <= B2Q b /\
  (B2Q (B64.min a b) == B2Q a \/ B2Q (B64.min a b) == B2Q b).
Proof.
  intros Fa Fb. unfold B64.min. rewrite (SFcompare_fin a b Fa Fb).
  destruct (Qcompare_spec (B2Q a) (B2Q b)) as [C|C|C].
  - destruct (B64.is_pos_zero a).
    + split; [exact Fb|]. repeat split; try lra; right; reflexivity.
    + split; [exact Fa|]. repeat split; try lra; left; reflexivity.
  - split; [exact Fa|]. repeat split; try lra; left; reflexivity.
  - split; [exact Fb|]. repeat split; try lra; right; reflexivity.
Qed.

(** *** Integers *)

Lemma rnd_pow2 k : (-1074 <= k)%Z -> rnd (pow2 k) == pow2 k.
Proof.
  intro H. pose proof (pow2_pos k) as P. rewrite (rnd_pos_eq P).
  assert (M : mag (pow2 k) = (k + 1)%Z).
  { apply mag_unique. split.
    - replace (k + 1 - 1)%Z with k by lia. lra.
    - apply pow2_lt. lia. }
  apply rnd_pos_exact with (2 ^ (k - fexp64 (k + 1)))%Z; [exact P|].
  rewrite M. rewrite fexp64_eq. rewrite <- pow2_Z by lia. rewrite <- pow2_add.
  apply Qpower_comp; [reflexivity | lia].
Qed.

Lemma rnd_abs x : Qabs (rnd x) == rnd (Qabs x).
Proof.
  destruct (Qlt_le_dec x 0) as [N|P].
  - assert (E : Qabs x == - x) by (apply Qabs_neg; lra).
    rewrite (rnd_comp E), rnd_opp. apply Qabs_neg.
    assert (H : rnd x <= rnd 0) by (apply rnd_mono; lra). exact H.
  - assert (E : Qabs x == x) by (apply Qabs_pos; exact P).
    rewrite (rnd_comp E). apply Qabs_pos.
    assert (H : rnd 0 <= rnd x) by (apply rnd_mono; exact P). exact H.
Qed.

(** No overflow: the rounding of a number up to [2^1023] in magnitude. *)
Lemma rnd_no_overflow x : Qabs x <= pow2 1023 -> Qabs (rnd x) < pow2 1024.
Proof.
  intro H. rewrite rnd_abs. apply rnd_mono in H. rewrite rnd_pow2 in H by lia.
  assert (pow2 1023 < pow2 1024) by (apply pow2_lt; lia). lra.
Qed.

Lemma rnd_small_nat z : (0 < z < 2 ^ 53)%Z -> rnd_pos (inject_Z z) == inject_Z z.
Proof.
  intro H.
  assert (P : 0 < inject_Z z) by (apply inject_Z_pos; lia).
  assert (Hz : (0 < z)%Z) by lia.
  pose proof (@bracket_Zdigits2 z Hz) as B.
  pose proof (mag_unique B) as M. destruct B as [B1 B2].
  assert (D : (Zdigits2 z <= 53)%Z).
  { assert (pow2 (Zdigits2 z - 1) < pow2 53).
    { apply Qle_lt_trans with (inject_Z z); [exact B1|].
      rewrite pow2_Z by lia. rewrite <- Zlt_Qlt. lia. }
    apply pow2_lt_inv in H0. lia. }
  assert (D1 : (1 <= Zdigits2 z)%Z).
  { destruct z; simpl; lia. }
  apply rnd_pos_exact with (z * 2 ^ (53 - Zdigits2 z))%Z; [exact P|].
  rewrite M, fexp64_eq.
  replace (Z.max (Zdigits2 z - 53) (-1074)) with (Zdigits2 z - 53)%Z by lia.
  rewrite inject_Z_mult, <- pow2_Z by lia.
  rewrite <- Qmult_assoc, <- pow2_add.
  replace (53 - Zdigits2 z + (Zdigits2 z - 53))%Z with 0%Z by lia.
  rewrite pow2_0. ring.
Qed.

Lemma rnd_small_int z : (Z.abs z < 2 ^ 53)%Z -> rnd (inject_Z z) == inject_Z z.
Proof.
  intro H. destruct (Z.compare_spec z 0) as [C|C|C].
  - subst. reflexivity.
  - assert (P : inject_Z z < 0) by (change 0 with (inject_Z 0); rewrite <- Zlt_Qlt; lia).
    rewrite (rnd_neg_eq P).
    rewrite (@rnd_pos_comp (- inject_Z z) (inject_Z (- z))).
    + rewrite rnd_small_nat by lia. rewrite inject_Z_opp. ring.
    + lra.
    + rewrite inject_Z_opp. reflexivity.
  - assert (P : 0 < inject_Z z) by (apply inject_Z_pos; lia).
    rewrite (rnd_pos_eq P). apply rnd_small_nat. lia.
Qed.

Lemma Qabs_inject_Z z : Qabs (inject_Z z) = inject_Z (Z.abs z).
Proof. destruct z; reflexivity. Qed.

Lemma small_int_no_overflow z : (Z.abs z < 2 ^ 53)%Z -> Qabs (inject_Z z) < pow2 1024.
Proof.
  intro H. rewrite Qabs_inject_Z. apply Qlt_trans with (pow2 53).
  - rewrite pow2_Z by lia. rewrite <- Zlt_Qlt. exact H.
  - apply pow2_lt. lia.
Qed.

Lemma of_Z_double z : is_double (B64.of_Z z).
Proof. apply binary_normalize_double. Qed.

Lemma of_Z_rnd z :
  Qabs (rnd (inject_Z z)) < pow2 1024 ->
  is_fin (B64.of_Z z) = true /\ B2Q (B64.of_Z z) == rnd (inject_Z z).
Proof.
  intro A. unfold B64.of_Z.
  assert (E : inject_Z z * pow2 0 == inject_Z z) by (rewrite pow2_0; ring).
  rewrite <- (rnd_comp E) in A |- *. apply binary_normalize_fin. exact A.
Qed.

Lemma of_Z_fin z :
  (Z.abs z < 2 ^ 53)%Z -> is_fin (B64.of_Z z) = true /\ B2Q (B64.of_Z z) == inject_Z z.
Proof.
  intro H. pose proof (rnd_small_int z H) as E.
  assert (A : Qabs (rnd (inject_Z z)) < pow2 1024).
  { rewrite E. apply small_int_no_overflow. exact H. }
  destruct (of_Z_rnd z A) as [F V]. split; [exact F|]. rewrite V. exact E.
Qed.

Lemma binary_normalize_small z sz :
  (Z.abs z < 2 ^ 53)%Z ->
  is_fin (binary_normalize B64.prec B64.emax z 0 sz) = true /\
  B2Q (binary_normalize B64.prec B64.emax z 0 sz) == inject_Z z.
Proof.
  intro Hz.
  assert (Ez : inject_Z z * pow2 0 == inject_Z z) by (rewrite pow2_0; ring).
  pose proof (rnd_small_int z Hz) as R.
  assert (A : Qabs (rnd (inject_Z z * pow2 0)) < pow2 1024).
  { rewrite (rnd_comp Ez), R. apply small_int_no_overflow. exact Hz. }
  destruct (binary_normalize_fin z 0 sz A) as [Fz Vz].
  split; [exact Fz|]. rewrite Vz, (rnd_comp Ez). exact R.
Qed.

(** *** [Math.floor] *)

Lemma Qfloor_scaled a n :
  (0 <= n)%Z -> Qfloor (inject_Z a * pow2 (- n)) = (a / 2 ^ n)%Z.
Proof.
  intro Hn.
  assert (P2 : (0 < 2 ^ n)%Z) by (apply Z.pow_pos_nonneg; lia).
  pose proof (Z_div_mod_eq_full a (2 ^ n)) as E.
  pose proof (Z.mod_pos_bound a (2 ^ n) P2) as [R1 R2].
  assert (I : pow2 (- n) * pow2 n == 1).
  { rewrite <- pow2_add. replace (- n + n)%Z with 0%Z by lia. reflexivity. }
  pose proof (pow2_pos (- n)) as Pn.
  assert (A : inject_Z a == inject_Z (a / 2 ^ n) * pow2 n + inject_Z (a mod 2 ^ n)).
  { rewrite E at 1. rewrite inject_Z_plus, inject_Z_mult, pow2_Z by lia. ring. }
  assert (M1 : 0 <= inject_Z (a mod 2 ^ n)) by (rewrite <- (Zle_Qle 0); lia).
  assert (M2 : inject_Z (a mod 2 ^ n) < pow2 n).
  { rewrite pow2_Z by lia. rewrite <- Zlt_Qlt. lia. }
  apply Qfloor_unique; revert A M1 M2 I Pn;
    generalize (inject_Z (a mod 2 ^ n)) (inject_Z (a / 2 ^ n)) (inject_Z a)
      (pow2 n) (pow2 (- n));
    intros r q x p p' A M1 M2 I Pn;
    assert (X : x * p' == q + r * p')
      by (rewrite A; transitivity (q * (p' * p) + r * p'); [ring | rewrite I; ring]).
  - assert (0 <= r * p') by (apply Qmult_le_0_compat; lra).
    lra.
  - assert (r * p' < 1).
    { rewrite <- I. rewrite (Qmult_comm p' p). apply Qmult_lt_r; assumption. }
    lra.
Qed.

Lemma Qfloor_B2Q_neg_exp s m e :
  (e < 0)%Z ->
  Qfloor (B2Q (S754_finite s m e)) = Z.shiftr (cond_Zopp s (Zpos m)) (- e).
Proof.
  intro H. rewrite Z.shiftr_div_pow2 by lia. simpl B2Q.
  replace e with (- - e)%Z at 1 by lia. apply Qfloor_scaled. lia.
Qed.

Lemma B2Q_nonneg_exp s m e :
  (0 <= e)%Z -> B2Q (S754_finite s m e) == inject_Z (cond_Zopp s (Zpos m) * 2 ^ e).
Proof. intro H. simpl B2Q. rewrite inject_Z_mult, pow2_Z by exact H. reflexivity. Qed.

Lemma mantissa_bound s m e :
  is_fin (S754_finite s m e) = true -> (Zpos m < 2 ^ 53)%Z.
Proof.
  intro F. apply is_fin_canonical, canonical_digits in F. destruct F as (D & _).
  pose proof (@bracket_Zdigits2 (Zpos m) (Pos2Z.is_pos m)) as [_ B].
  assert (inject_Z (Zpos m) < pow2 53).
  { apply Qlt_le_trans with (1 := B). apply pow2_le. exact D. }
  rewrite pow2_Z in H by lia. rewrite <- Zlt_Qlt in H. exact H.
Qed.

Theorem floor_fin a :
  is_fin a = true ->
  is_fin (B64.floor a) = true /\ B2Q (B64.floor a) == inject_Z (Qfloor (B2Q a)).
Proof.
  destruct a as [s|s| |s m e]; intro F; try discriminate.
  - split; reflexivity.
  - unfold B64.floor. destruct (Z.leb_spec 0 e) as [L|L].
    + split; [exact F|]. rewrite (Qfloor_comp _ _ (B2Q_nonneg_exp s m L)), Qfloor_Z.
      apply B2Q_nonneg_exp. exact L.
    + rewrite (Qfloor_B2Q_neg_exp s m L).
      pose proof (mantissa_bound s m e F) as MB.
      set (z := Z.shiftr (cond_Zopp s (Zpos m)) (- e)).
      assert (Hz : (Z.abs z < 2 ^ 53)%Z).
      { unfold z. rewrite Z.shiftr_div_pow2 by lia.
        assert (P2 : (0 < 2 ^ (- e))%Z) by (apply Z.pow_pos_nonneg; lia).
        destruct s; simpl cond_Zopp.
        - assert (Z.neg m <= Z.neg m / 2 ^ (- e))%Z
            by (apply Z.div_le_lower_bound; [exact P2 | nia]).
          assert (Z.neg m / 2 ^ (- e) < 1)%Z
            by (apply Z.div_lt_upper_bound; lia).
          lia.
        - assert (0 <= Zpos m / 2 ^ (- e))%Z by (apply Z.div_pos; lia).
          assert (Zpos m / 2 ^ (- e) <= Zpos m)%Z
            by (apply Z.div_le_upper_bound; [exact P2 | nia]).
          lia. }
      clearbody z. destruct z as [|p|p].
      * split; reflexivity.
      * apply binary_normalize_small. exact Hz.
      * apply binary_normalize_small. exact Hz.
Qed.

(** *** The integer a double denotes *)

Theorem to_int_fin a k :
  is_fin a = true -> B2Q a == inject_Z k -> B64.to_int a = Some k.
Proof.
  destruct a as [s|s| |s m e]; intros F V; try discriminate.
  - simpl in V. change 0 with (inject_Z 0) in V.
    apply (proj1 (inject_Z_injective _ _)) in V. subst. reflexivity.
  - unfold B64.to_int. destruct (Z.leb_spec 0 e) as [L|L].
    + rewrite (B2Q_nonneg_exp s m L) in V.
      apply (proj1 (inject_Z_injective _ _)) in V. rewrite V. reflexivity.
    + assert (P2 : (0 < 2 ^ (- e))%Z) by (apply Z.pow_pos_nonneg; lia).
      assert (M : cond_Zopp s (Zpos m) = (k * 2 ^ (- e))%Z).
      { apply (proj1 (inject_Z_injective _ _)).
        rewrite inject_Z_mult, <- pow2_Z by lia. rewrite <- V. simpl B2Q.
        rewrite <- Qmult_assoc, <- pow2_add.
        replace (e + - e)%Z with 0%Z by lia. rewrite pow2_0. ring. }
      rewrite M. rewrite Z.shiftr_div_pow2 by lia. rewrite Z.div_mul by lia.
      rewrite Z.shiftl_mul_pow2 by lia. rewrite Z.eqb_refl. reflexivity.
Qed.

Lemma val_comp x q q' : val x q -> q == q' -> val x q'.
Proof. intros [F V] E. split; [exact F | rewrite V; exact E]. Qed.

Lemma val_fin x q : val x q -> is_fin x = true.
Proof. intros [F _]. exact F. Qed.

Lemma val_B2Q x : is_fin x = true -> val x (B2Q x).
Proof. intro F. split; [exact F | reflexivity]. Qed.

Lemma pow2_1023_big : 1000000000000 <= pow2 1023.
Proof.
  apply Qle_trans with (pow2 40); [|apply pow2_le; lia].
  unfold Qle. vm_compute. discriminate.
Qed.

Lemma small_no_overflow x :
  Qabs x <= 1000000000000 -> Qabs (rnd x) < pow2 1024.
Proof.
  intro H. apply rnd_no_overflow. pose proof pow2_1023_big. lra.
Qed.

Lemma Qabs_le_bounds x b : - b <= x -> x <= b -> Qabs x <= b.
Proof. intros A B. apply Qabs_Qle_condition. split; assumption. Qed.

Lemma val_mul x y a b :
  val x a -> val y b -> Qabs (a * b) <= pow2 1023 ->
  val (SFmul B64.prec B64.emax x y) (rnd (a * b)).
Proof.
  intros [Fx Vx] [Fy Vy] A.
  assert (E : B2Q x * B2Q y == a * b) by (rewrite Vx, Vy; reflexivity).
  destruct (@SFmul_fin x y Fx Fy) as [F V].
  - rewrite (rnd_comp E). apply rnd_no_overflow. exact A.
  - split; [exact F|]. rewrite V. apply rnd_comp. exact E.
Qed.

Lemma val_add x y a b :
  val x a -> val y b -> Qabs (a + b) <= pow2 1023 ->
  val (SFadd B64.prec B64.emax x y) (rnd (a + b)).
Proof.
  intros [Fx Vx] [Fy Vy] A.
  assert (E : B2Q x + B2Q y == a + b) by (rewrite Vx, Vy; reflexivity).
  destruct (@SFadd_fin x y Fx Fy) as [F V].
  - rewrite (rnd_comp E). apply rnd_no_overflow. exact A.
  - split; [exact F|]. rewrite V. apply rnd_comp. exact E.
Qed.

Lemma val_sub x y a b :
  val x a -> val y b -> Qabs (a - b) <= pow2 1023 ->
  val (SFsub B64.prec B64.emax x y) (rnd (a - b)).
Proof.
  intros [Fx Vx] [Fy Vy] A.
  assert (E : B2Q x - B2Q y == a - b) by (rewrite Vx, Vy; reflexivity).
  destruct (@SFsub_fin x y Fx Fy) as [F V].
  - rewrite (rnd_comp E). apply rnd_no_overflow. exact A.
  - split; [exact F|]. rewrite V. apply rnd_comp. exact E.
Qed.

Lemma val_div x y a b :
  val x a -> val y b -> ~ b == 0 -> Qabs (a / b) <= pow2 1023 ->
  val (SFdiv B64.prec B64.emax x y) (rnd (a / b)).
Proof.
  intros [Fx Vx] [Fy Vy] NZ A.
  assert (E : B2Q x / B2Q y == a / b) by (rewrite Vx, Vy; reflexivity).
  destruct (@SFdiv_fin x y Fx Fy) as [F V].
  - rewrite Vy. exact NZ.
  - rewrite (rnd_comp E). apply rnd_no_overflow. exact A.
  - split; [exact F|]. rewrite V. apply rnd_comp. exact E.
Qed.

Lemma val_floor x a : val x a -> val (B64.floor x) (inject_Z (Qfloor a)).
Proof.
  intros [F V]. destruct (floor_fin x F) as [F' V'].
  split; [exact F'|]. rewrite V', (Qfloor_comp _ _ V). reflexivity.
Qed.

Lemma val_of_Z z : (Z.abs z < 2 ^ 53)%Z -> val (B64.of_Z z) (inject_Z z).
Proof. intro H. exact (of_Z_fin z H). Qed.

Lemma val_leb x y a b : val x a -> val y b -> (SFleb x y = true <-> a <= b).
Proof.
  intros [Fx Vx] [Fy Vy]. rewrite (SFleb_fin x y Fx Fy), Vx, Vy. reflexivity.
Qed.

Lemma val_ltb x y a b : val x a -> val y b -> (SFltb x y = true <-> a < b).
Proof.
  intros [Fx Vx] [Fy Vy]. rewrite (SFltb_fin x y Fx Fy), Vx, Vy. reflexivity.
Qed.

Lemma val_max_Z x y a b :
  val x (inject_Z a) -> val y (inject_Z b) -> val (B64.max x y) (inject_Z (Z.max a b)).
Proof.
  intros [Fx Vx] [Fy Vy]. destruct (max_fin x y Fx Fy) as (F & A & B & C).
  split; [exact F|]. rewrite Vx in A, C. rewrite Vy in B, C.
  destruct (Z.max_spec a b) as [[L ->]|[L ->]].
  - destruct C as [C|C]; [|exact C]. rewrite C in B. rewrite <- Zle_Qle in B.
    rewrite C. apply inject_Z_injective. lia.
  - destruct C as [C|C]; [exact C|]. rewrite C in A. rewrite <- Zle_Qle in A.
    rewrite C. apply inject_Z_injective. lia.
Qed.

Lemma val_min_Z x y a b :
  val x (inject_Z a) -> val y (inject_Z b) -> val (B64.min x y) (inject_Z (Z.min a b)).
Proof.
  intros [Fx Vx] [Fy Vy]. destruct (min_fin x y Fx Fy) as (F & A & B & C).
  split; [exact F|]. rewrite Vx in A, C. rewrite Vy in B, C.
  destruct (Z.min_spec a b) as [[L ->]|[L ->]].
  - destruct C as [C|C]; [exact C|]. rewrite C in A. rewrite <- Zle_Qle in A.
    rewrite C. apply inject_Z_injective. lia.
  - destruct C as [C|C]; [|exact C]. rewrite C in B. rewrite <- Zle_Qle in B.
    rewrite C. apply inject_Z_injective. lia.
Qed.

(** A double between two finite doubles is finite. *)
Lemma between_fin lo hi x :
  is_double x -> is_fin lo = true -> is_fin hi = true ->
  SFleb lo x = true -> SFleb x hi = true -> is_fin x = true.
Proof.
  intros D Fl Fh L H.
  destruct x as [s|s| |s m e]; try reflexivity; try exact D.
  - destruct s.
    + destruct lo; try discriminate.
    + destruct hi; try discriminate.
  - destruct lo; discriminate.
Qed.

(** *** Constants *)

Lemma rnd_Z z : (Z.abs z < 2 ^ 53)%Z -> rnd (inject_Z z) == inject_Z z.
Proof. apply rnd_small_int. Qed.

Lemma val_c55 : val (B64.dec 55 2) c55.
Proof. split; vm_compute; reflexivity. Qed.

Lemma val_15 : val (SFsub B64.prec B64.emax (B64.of_Z 20) (B64.of_Z 5)) 15.
Proof. split; vm_compute; reflexivity. Qed.

(** *** The rounded geometry on the values *)

Lemma c55_bounds : 1 # 2 < c55 /\ c55 < 3 # 5.
Proof. split; reflexivity. Qed.

Lemma rnd_le_Z x z : (Z.abs z < 2 ^ 53)%Z -> x <= inject_Z z -> rnd x <= inject_Z z.
Proof. intros H L. rewrite <- (rnd_Z z H). apply rnd_mono. exact L. Qed.

Lemma rnd_ge_Z x z : (Z.abs z < 2 ^ 53)%Z -> inject_Z z <= x -> inject_Z z <= rnd x.
Proof. intros H L. rewrite <- (rnd_Z z H). apply rnd_mono. exact L. Qed.

Lemma fontSizeR_range R : 0 <= R -> R <= 1 -> (5 <= fontSizeR R <= 20)%Z.
Proof.
  intros H0 H1. unfold fontSizeR.
  assert (A : 0 <= rnd (R * 15)).
  { apply (@rnd_ge_Z _ 0); [reflexivity|]. change (inject_Z 0) with 0. lra. }
  assert (B : rnd (20 - rnd (R * 15)) <= 20).
  { apply (@rnd_le_Z _ 20); [reflexivity|]. change (inject_Z 20) with 20. lra. }
  assert (C : (Qfloor (rnd (20 - rnd (R * 15))) <= 20)%Z).
  { change 20%Z with (Qfloor (inject_Z 20)). apply Qfloor_resp_le. exact B. }
  lia.
Qed.

Lemma fontSizeR_antitone R1 R2 : R1 <= R2 -> (fontSizeR R2 <= fontSizeR R1)%Z.
Proof.
  intro L. unfold fontSizeR.
  assert (A : rnd (R1 * 15) <= rnd (R2 * 15)) by (apply rnd_mono; lra).
  assert (B : rnd (20 - rnd (R2 * 15)) <= rnd (20 - rnd (R1 * 15)))
    by (apply rnd_mono; lra).
  apply Qfloor_resp_le in B. lia.
Qed.

Lemma fontWidthR_range R : 0 <= R -> R <= 1 -> 2 <= fontWidthR R /\ fontWidthR R <= 12.
Proof.
  intros H0 H1. pose proof (fontSizeR_range H0 H1) as [A B].
  pose proof c55_bounds as [C1 C2].
  rewrite Zle_Qle in A, B. change (inject_Z 5) with 5 in A. change (inject_Z 20) with 20 in B.
  unfold fontWidthR. split.
  - apply (@rnd_ge_Z _ 2); [reflexivity|]. change (inject_Z 2) with 2. nra.
  - apply (@rnd_le_Z _ 12); [reflexivity|]. change (inject_Z 12) with 12. nra.
Qed.

Lemma fontWidthR_antitone R1 R2 :
  0 <= R1 -> R1 <= R2 -> R2 <= 1 -> fontWidthR R2 <= fontWidthR R1.
Proof.
  intros H0 L H1. unfold fontWidthR. apply rnd_mono.
  pose proof (fontSizeR_antitone L) as A. rewrite Zle_Qle in A.
  pose proof c55_bounds as [C1 C2]. nra.
Qed.

(** The width of a cell in the units of the image: [fontWidth / resolution]. *)
Lemma cellWidthR_range R :
  0 < R -> R <= 1 -> 2 <= rnd (fontWidthR R / R).
Proof.
  intros H0 H1. assert (H0' : 0 <= R) by lra.
  pose proof (fontWidthR_range H0' H1) as [A _].
  apply (@rnd_ge_Z _ 2); [reflexivity|]. change (inject_Z 2) with 2.
  apply Qle_shift_div_l; [exact H0 | nra].
Qed.

Lemma Qdiv_le_compat a b c d :
  0 <= a -> a <= c -> 0 < d -> d <= b -> a / b <= c / d.
Proof.
  intros Ha L Hd Lb.
  apply Qle_shift_div_r; [lra|].
  assert (E : c / d * d == c) by (field; lra).
  assert (Q0 : 0 <= c / d) by (apply Qle_shift_div_l; lra).
  revert E Q0. generalize (c / d). intros q E Q0.
  assert (0 <= q * (b - d)) by (apply Qmult_le_0_compat; lra).
  nra.
Qed.

Lemma cellWidthR_antitone R1 R2 :
  0 < R1 -> R1 <= R2 -> R2 <= 1 ->
  rnd (fontWidthR R2 / R2) <= rnd (fontWidthR R1 / R1).
Proof.
  intros H0 L H1. apply rnd_mono. assert (H0' : 0 <= R1) by lra.
  pose proof (fontWidthR_antitone H0' L H1) as A.
  assert (H2 : 0 <= R2) by lra.
  pose proof (fontWidthR_range H2 H1) as [B _].
  apply Qdiv_le_compat; lra.
Qed.

Lemma Qdiv_antitone W a b : 0 <= W -> 0 < a -> a <= b -> W / b <= W / a.
Proof. intros HW Ha L. apply Qdiv_le_compat; lra. Qed.

Lemma colsR_monotone W R1 R2 :
  0 <= W -> 0 < R1 -> R1 <= R2 -> R2 <= 1 -> (colsR W R1 <= colsR W R2)%Z.
Proof.
  intros HW H0 L H1. unfold colsR. apply Qfloor_resp_le, rnd_mono.
  assert (H2 : 0 < R2) by lra.
  pose proof (cellWidthR_range H2 H1) as A.
  apply Qdiv_antitone; [exact HW | lra | apply cellWidthR_antitone; assumption].
Qed.

Lemma safeColsR_monotone W R1 R2 :
  0 <= W -> 0 < R1 -> R1 <= R2 -> R2 <= 1 -> (safeColsR W R1 <= safeColsR W R2)%Z.
Proof.
  intros HW H0 L H1. pose proof (colsR_monotone HW H0 L H1). unfold safeColsR. lia.
Qed.

(** *** The geometry of binary64 is the rounded geometry *)

Section GeometryB64.
Variables (w h : b64) (s : AsciiSettings b64) (R : Q).
Hypothesis HR : val (resolution s) R.
Hypothesis R0 : 1 # 16 <= R.
Hypothesis R1 : R <= 1.

Lemma b64_fontSize : val (fontSize (geometry w h s)) (inject_Z (fontSizeR R)).
Proof.
  rewrite geometry_fontSize. unfold fontSizeR.
  assert (A1 : val (mul (resolution s) (sub maxFont minFont)) (rnd (R * 15))).
  { apply val_mul; [exact HR | exact val_15|].
    pose proof pow2_1023_big. apply Qabs_le_bounds; lra. }
  assert (B1 : 0 <= rnd (R * 15) <= 15).
  { split.
    - apply (@rnd_ge_Z _ 0); [reflexivity|]. change (inject_Z 0) with 0. lra.
    - apply (@rnd_le_Z _ 15); [reflexivity|]. change (inject_Z 15) with 15. lra. }
  assert (A2 : val (sub maxFont (mul (resolution s) (sub maxFont minFont)))
                   (rnd (20 - rnd (R * 15)))).
  { apply val_sub; [apply (val_of_Z 20); reflexivity | exact A1|].
    pose proof pow2_1023_big. change (inject_Z 20) with 20. apply Qabs_le_bounds; lra. }
  apply val_floor in A2.
  apply (@val_max_Z _ _ 5 _ (val_of_Z 5 eq_refl) A2).
Qed.

Lemma b64_fontWidth : val (fontWidth (geometry w h s)) (fontWidthR R).
Proof.
  rewrite geometry_fontWidth. unfold fontWidthR.
  assert (H0 : 0 <= R) by lra.
  pose proof (fontSizeR_range H0 R1) as [A B].
  rewrite Zle_Qle in A, B. change (inject_Z 5) with 5 in A. change (inject_Z 20) with 20 in B.
  pose proof c55_bounds as [C1 C2].
  apply val_mul; [exact b64_fontSize | exact val_c55|].
  pose proof pow2_1023_big. apply Qabs_le_bounds; nra.
Qed.

Lemma b64_cellWidth :
  val (div (fontWidth (geometry w h s)) (resolution s)) (rnd (fontWidthR R / R)).
Proof.
  assert (H0 : 0 <= R) by lra.
  pose proof (fontWidthR_range H0 R1) as [A B].
  apply val_div; [exact b64_fontWidth | exact HR | lra |].
  pose proof pow2_1023_big. apply Qabs_le_bounds.
  - apply Qle_trans with 0; [lra|]. apply Qle_shift_div_l; lra.
  - apply Qle_trans with 192; [|lra]. apply Qle_shift_div_r; lra.
Qed.

Lemma b64_cols (W : Q) :
  val w W -> 0 <= W -> W <= pow2 1024 ->
  val (cols (geometry w h s)) (inject_Z (colsR W R)).
Proof.
  intros HW W0 W1. rewrite geometry_cols. unfold colsR.
  assert (H0 : 0 < R) by lra.
  pose proof (cellWidthR_range H0 R1) as A.
  apply val_floor. apply val_div; [exact HW | exact b64_cellWidth | lra |].
  assert (E : pow2 1024 == 2 * pow2 1023).
  { rewrite <- pow2_succ. reflexivity. }
  pose proof (pow2_pos 1023) as P.
  apply Qabs_le_bounds.
  - apply Qle_trans with 0; [lra|]. apply Qle_shift_div_l; lra.
  - apply Qle_shift_div_r; [lra|]. nra.
Qed.

Lemma b64_safeCols (W : Q) :
  val w W -> 0 <= W -> W <= pow2 1024 ->
  val (safeCols (geometry w h s)) (inject_Z (safeColsR W R)).
Proof.
  intros HW W0 W1. rewrite geometry_safeCols. unfold safeColsR.
  apply val_min_Z; [|apply val_of_Z; reflexivity].
  apply val_max_Z; [|apply val_of_Z; reflexivity].
  apply b64_cols; assumption.
Qed.
End GeometryB64.

(** Two doubles in order between two finite doubles are finite. *)
Lemma chain_fin lo hi x y :
  is_double x -> is_double y -> is_fin lo = true -> is_fin hi = true ->
  SFleb lo x = true -> SFleb x y = true -> SFleb y hi = true ->
  is_fin x = true /\ is_fin y = true.
Proof.
  intros Dx Dy Fl Fh L1 L2 L3.
  destruct lo as [sl|sl| |sl ml el]; try discriminate;
  destruct hi as [sh|sh| |sh mh eh]; try discriminate;
  destruct x as [sx|[|]| |sx mx ex]; try discriminate;
  destruct y as [sy|[|]| |sy my ey]; try discriminate;
  split; try reflexivity; try assumption.
Qed.

(** The double of a positive integer: its rounding, or [Infinity]. *)
Lemma of_Z_pos_cases w :
  (1 <= w)%Z ->
  (val (B64.of_Z w) (rnd (inject_Z w)) /\ 1 <= rnd (inject_Z w) /\
   rnd (inject_Z w) <= pow2 1024)
  \/ B64.of_Z w = S754_infinity false.
Proof.
  intro H.
  assert (P : 1 <= inject_Z w) by (change 1 with (inject_Z 1); rewrite <- Zle_Qle; exact H).
  assert (G : 1 <= rnd (inject_Z w)).
  { apply (@rnd_ge_Z _ 1); [reflexivity | exact P]. }
  destruct (Qlt_le_dec (rnd (inject_Z w)) (pow2 1024)) as [C|C].
  - left. split; [|split; [exact G | lra]].
    apply of_Z_rnd. rewrite Qabs_pos by lra. exact C.
  - right. unfold B64.of_Z.
    assert (NZ : w <> 0%Z) by lia.
    pose proof (binary_normalize_spec 0 false NZ) as S.
    replace (w <? 0)%Z with false in S by (symmetry; apply Z.ltb_ge; lia).
    apply rounds_inf with (x := inject_Z (Z.abs w) * pow2 0) (q := inject_Z w) in S.
    + exact S.
    + rewrite pow2_0, Z.abs_eq by lia. lra.
    + rewrite pow2_0, Z.abs_eq by lia. ring.
    + rewrite Qabs_pos by lra. exact C.
Qed.

Lemma val_pos_finite q Q :
  val q Q -> 0 < Q -> exists m e, q = S754_finite false m e.
Proof.
  intros [F V] P. destruct q as [s|s| |s m e]; try discriminate.
  - simpl in V. lra.
  - destruct s.
    + rewrite B2Q_finite in V. pose proof (mantissa_pos m e). lra.
    + exists m, e. reflexivity.
Qed.

(** *** The tone of a cell in binary64 *)

Section ToneClamp.
Context {num : Type} `{JsNumber num}.
Local Open Scope js_scope.

(** [cellGray] is the clamp, and the inversion, of the tone before it. *)
Lemma cellGray_clamp (settings : AsciiSettings num) (cf r g b : num) :
  cellGray settings cf r g b =
  let gray := jsmax (of_Z 0) (jsmin (of_Z 255) (toneBeforeClamp settings cf r g b)) in
  if invert settings then of_Z 255 - gray else gray.
Proof. reflexivity. Qed.
End ToneClamp.

(** *** Every operator keeps the doubles *)

Lemma floor_double x : is_double x -> is_double (B64.floor x).
Proof.
  intro D. destruct x as [s|s| |s m e]; try exact D.
  unfold B64.floor. destruct (0 <=? e)%Z; [exact D|].
  destruct (Z.shiftr _ _); [reflexivity | apply binary_normalize_double ..].
Qed.

Lemma dec_double m k : is_double (B64.dec m k).
Proof. apply SFdiv_double; apply of_Z_double. Qed.

Lemma contrastFactor_double (s : AsciiSettings b64) :
  is_double (contrast s) -> is_double (contrastFactor s).
Proof.
  intro D. unfold contrastFactor.
  apply SFdiv_double; apply SFmul_double; try apply of_Z_double.
  - apply SFadd_double; [|apply of_Z_double]. apply SFmul_double; [exact D | apply of_Z_double].
  - apply SFsub_double; [apply of_Z_double|].
    apply SFmul_double; [exact D | apply of_Z_double].
Qed.

Lemma toneBeforeClamp_double (s : AsciiSettings b64) (cf r g b : b64) :
  is_double (brightness s) -> is_double cf ->
  is_double r -> is_double g -> is_double b ->
  is_double (toneBeforeClamp s cf r g b).
Proof.
  intros Db Dc Dr Dg Dbl. unfold toneBeforeClamp, applyContrast.
  apply SFadd_double; [|apply of_Z_double].
  apply SFmul_double; [exact Dc|].
  apply SFsub_double; [|apply of_Z_double].
  apply SFadd_double; [|exact Db].
  apply SFadd_double; [apply SFadd_double|];
    (apply SFmul_double; [apply dec_double | assumption]).
Qed.

(** *** The clamp *)

Lemma clamp_val x :
  is_double x -> x <> S754_nan ->
  exists T, val (B64.max (B64.of_Z 0) (B64.min (B64.of_Z 255) x)) T /\ 0 <= T <= 255.
Proof.
  intros D N. destruct x as [s|[|]| |s m e]; try congruence.
  - exists 0. split; [|lra]. destruct s; split; reflexivity.
  - exists 0. split; [|lra]. split; reflexivity.
  - exists 255. split; [|lra]. split; vm_compute; reflexivity.
  - assert (F : is_fin (S754_finite s m e) = true) by exact D.
    assert (F255 : val (B64.of_Z 255) 255) by (split; vm_compute; reflexivity).
    assert (F0 : val (B64.of_Z 0) 0) by (split; vm_compute; reflexivity).
    destruct F255 as [Fa Va]. destruct F0 as [Fz Vz].
    destruct (min_fin _ _ Fa F) as (Fm & M1 & M2 & M3).
    destruct (max_fin _ _ Fz Fm) as (Fx & X1 & X2 & X3).
    exists (B2Q (B64.max (B64.of_Z 0) (B64.min (B64.of_Z 255) (S754_finite s m e)))).
    split; [split; [exact Fx | reflexivity]|].
    rewrite Va in M1. rewrite Vz in X1, X3.
    split; [exact X1|]. destruct X3 as [X3|X3]; rewrite X3; lra.
Qed.

Lemma cellGray_val (s : AsciiSettings b64) (cf r g b : b64) :
  is_double (toneBeforeClamp s cf r g b) ->
  toneBeforeClamp s cf r g b <> S754_nan ->
  exists T, val (cellGray s cf r g b) T /\ 0 <= T <= 255.
Proof.
  intros D N. rewrite cellGray_clamp. cbv zeta.
  destruct (clamp_val D N) as (T & V & B0 & B1).
  destruct (invert s).
  - exists (rnd (255 - T)). split.
    + apply val_sub; [split; vm_compute; reflexivity | exact V |].
      pose proof pow2_1023_big. apply Qabs_le_bounds; lra.
    + split.
      * apply (@rnd_ge_Z _ 0); [reflexivity|]. change (inject_Z 0) with 0. lra.
      * apply (@rnd_le_Z _ 255); [reflexivity|]. change (inject_Z 255) with 255. lra.
  - exists T. split; [exact V | split; assumption].
Qed.

(** *** The index *)

Lemma index_val (gray : b64) (T : Q) (n : Z) :
  val gray T -> 0 <= T <= 255 -> (1 <= n < 2 ^ 53)%Z ->
  exists i : Z,
    val (B64.floor (SFmul B64.prec B64.emax
                      (SFdiv B64.prec B64.emax gray (B64.of_Z 255))
                      (SFsub B64.prec B64.emax (B64.of_Z n) (B64.of_Z 1))))
        (inject_Z i)
    /\ (0 <= i <= n - 1)%Z.
Proof.
  intros V [T0 T1] Hn. pose proof pow2_1023_big as Big.
  assert (V255 : val (B64.of_Z 255) 255) by (split; vm_compute; reflexivity).
  assert (V1 : val (B64.of_Z 1) 1) by (split; vm_compute; reflexivity).
  assert (Vn : val (B64.of_Z n) (inject_Z n)) by (apply val_of_Z; lia).
  assert (N1 : 1 <= inject_Z n) by (change 1 with (inject_Z 1); rewrite <- Zle_Qle; lia).
  assert (N2 : inject_Z n <= pow2 53).
  { rewrite pow2_Z by lia. rewrite <- Zle_Qle. lia. }
  assert (P53 : pow2 53 <= pow2 1023) by (apply pow2_le; lia).
  (* gray / 255 *)
  assert (Vq : val (SFdiv B64.prec B64.emax gray (B64.of_Z 255)) (rnd (T / 255))).
  { apply val_div; [exact V | exact V255 | lra |].
    apply Qabs_le_bounds.
    - apply Qle_trans with 0; [lra|]. apply Qle_shift_div_l; lra.
    - apply Qle_trans with 1; [|lra]. apply Qle_shift_div_r; lra. }
  assert (Q0 : 0 <= rnd (T / 255)).
  { apply (@rnd_ge_Z _ 0); [reflexivity|]. change (inject_Z 0) with 0.
    apply Qle_shift_div_l; lra. }
  assert (Q1 : rnd (T / 255) <= 1).
  { apply (@rnd_le_Z _ 1); [reflexivity|]. change (inject_Z 1) with 1.
    apply Qle_shift_div_r; lra. }
  (* charsLen - 1 *)
  assert (Vm : val (SFsub B64.prec B64.emax (B64.of_Z n) (B64.of_Z 1)) (inject_Z (n - 1))).
  { apply val_comp with (rnd (inject_Z n - 1)).
    - apply val_sub; [exact Vn | exact V1|]. apply Qabs_le_bounds; lra.
    - rewrite <- (rnd_Z (n - 1)) by lia. apply rnd_comp.
      unfold Z.sub. rewrite inject_Z_plus, inject_Z_opp. reflexivity. }
  assert (M0 : 0 <= inject_Z (n - 1)) by (rewrite <- (Zle_Qle 0); lia).
  assert (M1 : inject_Z (n - 1) <= pow2 53).
  { rewrite pow2_Z by lia. rewrite <- Zle_Qle. lia. }
  (* the product *)
  assert (Vp : val (SFmul B64.prec B64.emax
                      (SFdiv B64.prec B64.emax gray (B64.of_Z 255))
                      (SFsub B64.prec B64.emax (B64.of_Z n) (B64.of_Z 1)))
                   (rnd (rnd (T / 255) * inject_Z (n - 1)))).
  { apply val_mul; [exact Vq | exact Vm|]. apply Qabs_le_bounds; nra. }
  assert (P0 : 0 <= rnd (rnd (T / 255) * inject_Z (n - 1))).
  { apply (@rnd_ge_Z _ 0); [reflexivity|]. change (inject_Z 0) with 0. nra. }
  assert (P1 : rnd (rnd (T / 255) * inject_Z (n - 1)) <= inject_Z (n - 1)).
  { apply rnd_le_Z; [lia | nra]. }
  exists (Qfloor (rnd (rnd (T / 255) * inject_Z (n - 1)))).
  split; [apply val_floor; exact Vp|].
  split.
  - change 0%Z with (Qfloor (inject_Z 0)). apply Qfloor_resp_le. exact P0.
  - apply Z.le_trans with (Qfloor (inject_Z (n - 1))).
    + apply Qfloor_resp_le. exact P1.
    + rewrite Qfloor_Z. lia.
Qed.

Lemma char_at_val (chars : js_string) (x : b64) (i : Z) :
  val x (inject_Z i) -> (0 <= i <= Z.of_nat (List.length chars) - 1)%Z ->
  to_int x = Some i /\ exists ch, char_at chars x = Some ch.
Proof.
  intros [F V] Hi. pose proof (to_int_fin x F V) as E.
  split; [exact E|]. unfold char_at.
  change (to_int x) with (B64.to_int x). rewrite E.
  replace (0 <=? i)%Z with true by (symmetry; apply Z.leb_le; lia).
  destruct (nth_error chars (Z.to_nat i)) as [ch|] eqn:N; [exists ch; reflexivity|].
  apply nth_error_None in N. lia.
Qed.

(** *** The doubles between 1 and 2 *)

Lemma fin_exponent s m e d :
  is_fin (S754_finite s m e) = true ->
  bracket d (inject_Z (Zpos m) * pow2 e) -> e = fexp64 d.
Proof.
  intros F B. apply is_fin_canonical, canonical_fexp in F.
  rewrite <- (mag_unique B), mag_mantissa. symmetry. exact F.
Qed.

(** A double in [1, 2) is a whole number of steps of [2^-52]. *)
Lemma unit_binade x :
  is_fin x = true -> 1 <= B2Q x -> B2Q x < 2 ->
  exists m : Z, B2Q x == inject_Z m * pow2 (-52).
Proof.
  intros F L U. destruct x as [s|s| |s m e]; try discriminate.
  - simpl in L. lra.
  - pose proof (mantissa_pos m e) as P. destruct s.
    + exfalso. rewrite B2Q_finite in L. lra.
    + change (B2Q (S754_finite false m e)) with (inject_Z (Zpos m) * pow2 e) in *.
      assert (B : bracket 1 (inject_Z (Zpos m) * pow2 e)).
      { split; [rewrite pow2_0 | rewrite pow2_1]; lra. }
      rewrite (@fin_exponent false m e 1 F B). exists (Zpos m). reflexivity.
Qed.

Lemma pow2_m52 : pow2 (-52) == 1 # 4503599627370496.
Proof. reflexivity. Qed.

Lemma pow2_m44 : pow2 (-44) == 1 # 17592186044416.
Proof. reflexivity. Qed.

(** The first double above [259/255]. *)
Lemma above_the_pole x :
  is_fin x = true -> 259 # 255 < B2Q x ->
  4574244327407681 # 4503599627370496 <= B2Q x.
Proof.
  intros F L. destruct (Qlt_le_dec (B2Q x) 2) as [U|U]; [|lra].
  destruct (unit_binade x F) as (m & E); [lra | exact U|].
  rewrite E in L |- *. rewrite pow2_m52 in *.
  assert (H : (4574244327407681 <= m)%Z).
  { assert (L' : (259 * 4503599627370496 < m * 255)%Z).
    { unfold Qlt, Qmult, inject_Z in L. simpl in L. lia. }
    lia. }
  rewrite Zle_Qle in H. change (inject_Z 4574244327407681) with 4574244327407681 in H.
  lra.
Qed.

(** *** The contrast factor above the pole *)

Lemma pow2_1023_huge : 1000000000000000000000000000000000000000000000000 <= pow2 1023.
Proof.
  apply Qle_trans with (pow2 160); [|apply pow2_le; lia].
  unfold Qle. vm_compute. discriminate.
Qed.

Lemma no_overflow_huge x :
  Qabs x <= 1000000000000000000000000000000000000000000000000 ->
  Qabs x <= pow2 1023.
Proof. intro H. pose proof pow2_1023_huge. lra. Qed.

Lemma rnd_le_neg_pow2 x k : (-1074 <= k)%Z -> x <= - pow2 k -> rnd x <= - pow2 k.
Proof.
  intros H L. apply rnd_mono in L. rewrite rnd_opp, rnd_pow2 in L by exact H. exact L.
Qed.

Lemma rnd_ge_neg_pow2 x k : (-1074 <= k)%Z -> - pow2 k <= x -> - pow2 k <= rnd x.
Proof.
  intros H L. apply rnd_mono in L. rewrite rnd_opp, rnd_pow2 in L by exact H. exact L.
Qed.

Section AboveThePole.
Variables (s : AsciiSettings b64) (C : Q).
Hypothesis HC : val (contrast s) C.
Hypothesis C0 : 259 # 255 < C.
Hypothesis C1 : C <= 1000000000.

Lemma contrast_above : 4574244327407681 # 4503599627370496 <= C.
Proof.
  destruct HC as [F V]. rewrite <- V. apply above_the_pole; [exact F|].
  rewrite V. exact C0.
Qed.

Lemma contrast255R_bounds :
  259 + pow2 (-44) <= contrast255R C /\ contrast255R C <= 255000000000.
Proof.
  pose proof contrast_above as L. unfold contrast255R. split.
  - assert (E : rnd ((4574244327407681 # 4503599627370496) * 255) == 259 + pow2 (-44))
      by (vm_compute; reflexivity).
    rewrite <- E. apply rnd_mono. lra.
  - apply (@rnd_le_Z _ 255000000000); [reflexivity|].
    change (inject_Z 255000000000) with 255000000000. lra.
Qed.

Lemma denominatorR_bounds :
  - 255000000000 <= denominatorR C /\ denominatorR C <= - pow2 (-44).
Proof.
  pose proof contrast255R_bounds as [L H]. pose proof (pow2_pos (-44)).
  unfold denominatorR. split.
  - apply (@rnd_ge_Z _ (-255000000000)); [reflexivity|].
    change (inject_Z (-255000000000)) with (- 255000000000). lra.
  - apply rnd_le_neg_pow2; [lia | lra].
Qed.

Lemma denominator255R_bounds :
  - 65025000000000 <= rnd (255 * denominatorR C)
  /\ rnd (255 * denominatorR C) <= - pow2 (-44).
Proof.
  pose proof denominatorR_bounds as [L H]. pose proof (pow2_pos (-44)). split.
  - apply (@rnd_ge_Z _ (-65025000000000)); [reflexivity|].
    change (inject_Z (-65025000000000)) with (- 65025000000000). lra.
  - apply rnd_le_neg_pow2; [lia | lra].
Qed.

Lemma numeratorR_bounds : 133126 <= numeratorR C /\ numeratorR C <= 66045000066045.
Proof.
  pose proof contrast255R_bounds as [L H]. pose proof (pow2_pos (-44)).
  assert (A : 514 <= rnd (contrast255R C + 255) /\ rnd (contrast255R C + 255) <= 255000000255).
  { split.
    - apply (@rnd_ge_Z _ 514); [reflexivity|]. change (inject_Z 514) with 514. lra.
    - apply (@rnd_le_Z _ 255000000255); [reflexivity|].
      change (inject_Z 255000000255) with 255000000255. lra. }
  destruct A as [A0 A1]. unfold numeratorR. split.
  - apply (@rnd_ge_Z _ 133126); [reflexivity|]. change (inject_Z 133126) with 133126. lra.
  - apply (@rnd_le_Z _ 66045000066045); [reflexivity|].
    change (inject_Z 66045000066045) with 66045000066045. lra.
Qed.

Lemma quotient_bounds :
  - pow2 91 <= numeratorR C / rnd (255 * denominatorR C)
  /\ numeratorR C / rnd (255 * denominatorR C) <= - pow2 (-30).
Proof.
  pose proof numeratorR_bounds as [N0 N1]. pose proof denominator255R_bounds as [D0 D1].
  rewrite pow2_m44 in D1.
  assert (P30 : pow2 (-30) == 1 # 1073741824) by reflexivity. rewrite P30.
  assert (P91 : pow2 91 == 2475880078570760549798248448) by reflexivity. rewrite P91.
  revert N0 N1 D0 D1.
  generalize (numeratorR C) (rnd (255 * denominatorR C)). intros Nn Dn N0 N1 D0 D1.
  assert (E : Nn / Dn == - (Nn / - Dn)) by (field; lra).
  rewrite E.
  assert (L : 1 # 1073741824 <= Nn / - Dn).
  { apply Qle_shift_div_l; lra. }
  assert (H : Nn / - Dn <= 2475880078570760549798248448).
  { apply Qle_shift_div_r; [lra|]. nra. }
  lra.
Qed.

Lemma contrastFactorR_bounds :
  - pow2 91 <= contrastFactorR C /\ contrastFactorR C <= - pow2 (-30).
Proof.
  pose proof quotient_bounds as [Q0 Q1]. unfold contrastFactorR. split.
  - apply rnd_ge_neg_pow2; [lia | exact Q0].
  - apply rnd_le_neg_pow2; [lia | exact Q1].
Qed.

Lemma b64_contrast255 : val (mul (contrast s) (of_Z 255)) (contrast255R C).
Proof.
  pose proof contrast255R_bounds as [L H]. pose proof (pow2_pos (-44)).
  apply val_mul; [exact HC | split; vm_compute; reflexivity|].
  apply no_overflow_huge, Qabs_le_bounds; lra.
Qed.

Lemma b64_denominator :
  val (sub (of_Z 259) (mul (contrast s) (of_Z 255))) (denominatorR C).
Proof.
  pose proof contrast255R_bounds as [L H]. pose proof (pow2_pos (-44)).
  apply val_sub; [split; vm_compute; reflexivity | exact b64_contrast255|].
  apply no_overflow_huge, Qabs_le_bounds; lra.
Qed.

Lemma b64_contrastFactor : val (contrastFactor s) (contrastFactorR C).
Proof.
  pose proof contrast255R_bounds as [X0 X1]. pose proof denominatorR_bounds as [U0 U1].
  pose proof numeratorR_bounds as [N0 N1].
  pose proof denominator255R_bounds as [D0 D1].
  pose proof (pow2_pos (-44)). pose proof (pow2_pos (-30)).
  unfold contrastFactor, contrastFactorR. apply val_div.
  - unfold numeratorR. apply val_mul; [split; vm_compute; reflexivity | |].
    + apply val_add; [exact b64_contrast255 | split; vm_compute; reflexivity|].
      apply no_overflow_huge, Qabs_le_bounds; lra.
    + assert (rnd (contrast255R C + 255) <= 255000000255).
      { apply (@rnd_le_Z _ 255000000255); [reflexivity|].
        change (inject_Z 255000000255) with 255000000255. lra. }
      assert (0 <= rnd (contrast255R C + 255)).
      { apply (@rnd_ge_Z _ 0); [reflexivity|]. change (inject_Z 0) with 0. lra. }
      apply no_overflow_huge, Qabs_le_bounds; lra.
  - apply val_mul; [split; vm_compute; reflexivity | exact b64_denominator|].
    apply no_overflow_huge, Qabs_le_bounds; lra.
  - lra.
  - pose proof quotient_bounds as [Q0' Q1'].
    assert (P91 : pow2 91 == 2475880078570760549798248448) by reflexivity.
    rewrite P91 in Q0'.
    apply no_overflow_huge, Qabs_le_bounds; lra.
Qed.
End AboveThePole.

(** *** The contrast line with a negative factor *)

Lemma contrastLineR_antitone CF G1 G2 :
  CF <= 0 -> G1 <= G2 -> contrastLineR CF G2 <= contrastLineR CF G1.
Proof.
  intros HC L. unfold contrastLineR.
  assert (A : rnd (G1 - 128) <= rnd (G2 - 128)) by (apply rnd_mono; lra).
  assert (B : rnd (CF * rnd (G2 - 128)) <= rnd (CF * rnd (G1 - 128))).
  { apply rnd_mono. nra. }
  apply rnd_mono. lra.
Qed.

Lemma b64_applyContrast cf g CF G :
  val cf CF -> - pow2 91 <= CF -> CF <= 0 ->
  val g G -> - 1000000 <= G -> G <= 1000000 ->
  val (applyContrast cf g) (contrastLineR CF G).
Proof.
  intros VC C0 C1 VG G0 G1. unfold contrastLineR.
  assert (P91 : pow2 91 == 2475880078570760549798248448) by reflexivity.
  assert (P111 : pow2 111 == 2596148429267413814265248164610048) by reflexivity.
  rewrite P91 in C0.
  assert (VD : val (sub g (of_Z 128)) (rnd (G - 128))).
  { apply val_sub; [exact VG | split; vm_compute; reflexivity|].
    apply no_overflow_huge, Qabs_le_bounds; lra. }
  assert (D0 : - 1000128 <= rnd (G - 128)).
  { apply (@rnd_ge_Z _ (-1000128)); [reflexivity|].
    change (inject_Z (-1000128)) with (- 1000128). lra. }
  assert (D1 : rnd (G - 128) <= 999872).
  { apply (@rnd_le_Z _ 999872); [reflexivity|].
    change (inject_Z 999872) with 999872. lra. }
  assert (VP : val (mul cf (sub g (of_Z 128))) (rnd (CF * rnd (G - 128)))).
  { apply val_mul; [exact VC | exact VD|].
    apply no_overflow_huge, Qabs_le_bounds; nra. }
  assert (B0 : - pow2 111 <= rnd (CF * rnd (G - 128))).
  { apply rnd_ge_neg_pow2; [lia|]. rewrite P111. nra. }
  assert (B1 : rnd (CF * rnd (G - 128)) <= pow2 111).
  { assert (E : rnd (pow2 111) == pow2 111) by (apply rnd_pow2; lia).
    rewrite <- E. apply rnd_mono. rewrite P111. nra. }
  rewrite P111 in B0, B1.
  unfold applyContrast. apply val_add; [exact VP | split; vm_compute; reflexivity|].
  apply no_overflow_huge, Qabs_le_bounds; lra.
Qed.

(** * The claims *)

(** ** Scenario A: the all-black image *)

(** C1 (the code departs from it): a 100 by 100 all-black image under the
    default settings (contrast 1.1, brightness 0, no inversion, the [detail]
    ramp) is resolved to 22 rows of 40 cells and every cell is painted with
    ['@'], the last and densest glyph of the ramp (index 91), not left empty.
    More generally a black pixel is painted with ['@'] at every resolution.
    Both hold in exact arithmetic and in binary64. *)
Theorem C1_black_image_is_painted_dense :
  nth_error (CHAR_SETS detail) 91 = Some 64%N
  /\ render (num := xnum) (uniformImage 100 100 0 0 0) defaultSettings
     = Some (repeat (repeat (Glyph 64%N) 40) 22)
  /\ render (num := b64) (uniformImage 100 100 0 0 0) defaultSettings
     = Some (repeat (repeat (Glyph 64%N) 40) 22)
  /\ (forall res : xnum,
        cellChar {| resolution := res; contrast := dec 11 1; brightness := of_Z 0;
                    invert := false; charSetMode := detail |}
                 (of_Z 0) (of_Z 0) (of_Z 0) = Some 64%N)
  /\ (forall res : b64,
        cellChar {| resolution := res; contrast := dec 11 1; brightness := of_Z 0;
                    invert := false; charSetMode := detail |}
                 (of_Z 0) (of_Z 0) (of_Z 0) = Some 64%N).
Proof.
  split; [reflexivity|].
  split; [rewrite render_uniform; vm_compute; reflexivity|].
  split; [rewrite render_uniform; vm_compute; reflexivity|].
  split; intro res; vm_compute; reflexivity.
Qed.

(** ** The order of the tone pipeline *)


(** ** The bounds of the geometry *)

(** In exact arithmetic, for an image of at least one pixel each way and a
    resolution in [0.1, 1], the column count lies in [40, 600] and the row
    count is a natural number. *)
Lemma geometry_bounds (w h : Z) (res : Q) (s : AsciiSettings xnum) :
  (1 <= w)%Z -> (1 <= h)%Z -> 1 # 10 <= res -> res <= 1 ->
  resolution s = XFin res ->
  exists c r : Z,
    safeCols (geometry (of_Z w) (of_Z h) s) = of_Z c
    /\ rows (geometry (of_Z w) (of_Z h) s) = of_Z r
    /\ (40 <= c <= 600)%Z /\ (0 <= r)%Z.
Proof.
  intros Hw Hh Hlo Hhi Hres.
  destruct (@geometry_closed_form w h res s) as (_ & _ & _ & Hc & Hr);
    [rewrite Hres; apply repr_fin | lra | lia |].
  exists (safeColsZ w res), (rowsZ w h res).
  repeat split; try assumption;
    try apply safeColsZ_bounds. apply rowsZ_nonneg; lia.
Qed.

(** C3 (the code departs from it): for a 1000 by 1 image at resolution 1 the
    column count is 363, within [40, 600], but the row count is 0, not at
    least 1; [getImageData] then throws and nothing is drawn.  In exact
    arithmetic and in binary64. *)
Theorem C3_wide_image_has_no_rows :
  forall (c b : xnum) (c' b' : b64) (i : bool) (m : CharSetMode)
         (cv : Canvas xnum) (cv' : Canvas b64),
    let s := {| resolution := of_Z 1; contrast := c; brightness := b;
                invert := i; charSetMode := m |} in
    let s' := {| resolution := of_Z 1; contrast := c'; brightness := b';
                 invert := i; charSetMode := m |} in
    (safeCols (geometry (of_Z 1000) (of_Z 1) s) = of_Z 363
     /\ rows (geometry (of_Z 1000) (of_Z 1) s) = of_Z 0
     /\ processImage (uniformImage 1000 1 0 0 0) cv s = IndexSizeError cv)
    /\ (to_int (safeCols (geometry (of_Z 1000) (of_Z 1) s')) = Some 363%Z
        /\ to_int (rows (geometry (of_Z 1000) (of_Z 1) s')) = Some 0%Z
        /\ processImage (uniformImage 1000 1 0 0 0) cv' s' = IndexSizeError cv').
Proof.
  intros c b c' b' i m cv cv' s s'.
  split; (split; [vm_compute; reflexivity|]);
    (split; [vm_compute; reflexivity|]).
  - unfold processImage.
    replace (getImageData _ _ _) with (@None (Z * Z * list Z))
      by (vm_compute; reflexivity).
    reflexivity.
  - unfold processImage.
    replace (getImageData _ _ _) with (@None (Z * Z * list Z))
      by (vm_compute; reflexivity).
    reflexivity.
Qed.

(** ** The ramps *)

(** C4, as stated, fails on the [detail] ramp: the string the mapper indexes
    has 92 characters and ends in ['@'], the string of section 6 has 93 and
    ends in ['$']. *)
Lemma C4_detail_ramp_differs :
  CHAR_SETS detail <> spec_ramp detail
  /\ List.length (CHAR_SETS detail) = 92%nat
  /\ List.length (spec_ramp detail) = 93%nat.
Proof.
  repeat split; try reflexivity.
  intro E. apply (f_equal (@List.length code_unit)) in E. discriminate E.
Qed.

(** C4 (amended): for [halftone], [ascii], [binary] and [blocks] the ramp the
    mapper indexes is the literal of section 6, character by character; for
    [detail] it is that literal without its last character ['$'], that is 92
    characters ending in ['@']. *)
Theorem C4_ramps :
  CHAR_SETS halftone = spec_ramp halftone
  /\ CHAR_SETS ascii = spec_ramp ascii
  /\ CHAR_SETS binary = spec_ramp binary
  /\ CHAR_SETS blocks = spec_ramp blocks
  /\ CHAR_SETS detail = removelast (spec_ramp detail)
  /\ spec_ramp detail = CHAR_SETS detail ++ units "$"
  /\ List.length (CHAR_SETS detail) = 92%nat
  /\ last (CHAR_SETS detail) SPACE = 64%N.
Proof. repeat split; reflexivity. Qed.

(** ** Scenario D: 1000 by 750 at full resolution *)

(** C5, as stated, fails: at resolution 1 a 1000 by 750 image resolves to a
    column count that is not 600, in exact arithmetic and in binary64. *)
Lemma C5_cols_is_not_600 :
  safeCols (geometry (num := xnum) (of_Z 1000) (of_Z 750)
              (withResolution (of_Z 1) defaultSettings)) <> of_Z 600
  /\ to_int (safeCols (geometry (num := b64) (of_Z 1000) (of_Z 750)
                         (withResolution (of_Z 1) defaultSettings)))
     <> Some 600%Z.
Proof. split; vm_compute; discriminate. Qed.

(** C5 (amended): at resolution 1 a 1000 by 750 image resolves to 363
    columns, the unclamped [floor(1000 / 2.75)] (the bound 600 is not
    reached), and to 149 rows, which is the floor of the column count times
    the aspect ratio 750/1000 times the cell aspect factor 0.55.  In exact
    arithmetic and in binary64, whatever the other settings. *)
Theorem C5_geometry_1000_by_750 :
  forall (c b : xnum) (c' b' : b64) (i : bool) (m : CharSetMode),
    let s := {| resolution := of_Z 1; contrast := c; brightness := b;
                invert := i; charSetMode := m |} in
    let s' := {| resolution := of_Z 1; contrast := c'; brightness := b';
                 invert := i; charSetMode := m |} in
    let g := geometry (of_Z 1000) (of_Z 750) s in
    let g' := geometry (of_Z 1000) (of_Z 750) s' in
    (cols g = of_Z 363 /\ safeCols g = of_Z 363 /\ rows g = of_Z 149
     /\ div (fontWidth g) (fontHeight g) = dec 55 2
     /\ rows g = floor (mul (mul (safeCols g) (div (of_Z 750) (of_Z 1000)))
                            (dec 55 2)))
    /\ (cols g' = of_Z 363 /\ safeCols g' = of_Z 363 /\ rows g' = of_Z 149
        /\ div (fontWidth g') (fontHeight g') = dec 55 2
        /\ rows g' = floor (mul (mul (safeCols g') (div (of_Z 750) (of_Z 1000)))
                                (dec 55 2))).
Proof.
  intros c b c' b' i m s s' g g'.
  split; repeat split; vm_compute; reflexivity.
Qed.

(** ** Scenario C: the all-white image and the inversion flag *)

(** C6 (the code departs from it): under the default contrast 1.1 and
    brightness 0 a white pixel with [invert] set selects ramp index 91, the
    last glyph ['@'], not index 0; with [invert] clear it selects index 0,
    the space.  The two settings of the flag do select opposite ends of the
    ramp, but the other way round.  For the 100 by 100 all-white image every
    one of the 22 by 40 cells is painted ['@'] when [invert] is set and left
    empty when it is clear.  In exact arithmetic and in binary64. *)
Theorem C6_white_image_inverted_is_painted_dense :
  (forall inv : bool,
     to_int (cellIndex (num := xnum) (withInvert inv defaultSettings)
               (contrastFactor (withInvert inv defaultSettings))
               (length_of (CHAR_SETS detail)) (of_Z 255) (of_Z 255) (of_Z 255))
     = Some (if inv then 91%Z else 0%Z))
  /\ (forall inv : bool,
        to_int (cellIndex (num := b64) (withInvert inv defaultSettings)
                  (contrastFactor (withInvert inv defaultSettings))
                  (length_of (CHAR_SETS detail)) (of_Z 255) (of_Z 255) (of_Z 255))
        = Some (if inv then 91%Z else 0%Z))
  /\ (forall inv : bool,
        render (num := xnum) (uniformImage 100 100 255 255 255)
          (withInvert inv defaultSettings)
        = Some (repeat (repeat (if inv then Glyph 64%N else Empty) 40) 22))
  /\ (forall inv : bool,
        render (num := b64) (uniformImage 100 100 255 255 255)
          (withInvert inv defaultSettings)
        = Some (repeat (repeat (if inv then Glyph 64%N else Empty) 40) 22)).
Proof.
  repeat split; intros [|];
    try (vm_compute; reflexivity);
    rewrite render_uniform; vm_compute; reflexivity.
Qed.

(** ** Determinism *)

Section Drawing.
Context {num : Type} `{JsNumber num}.

Lemma textCalls_draw (op : DrawOp num) (cv : Canvas num) :
  textCalls (draw op cv)
  = textCalls cv ++ match op with
                    | FillText _ ch x y => [(ch, x, y)]
                    | FillRect _ _ _ _ _ => []
                    end.
Proof.
  unfold textCalls, draw; cbn [painted].
  rewrite flat_map_app. cbn [flat_map]. now rewrite app_nil_r.
Qed.

Lemma textCalls_drawCell (s : AsciiSettings num) (geo : Geometry num)
    (c : Z) (data : list Z) (y x : nat) (cv : Canvas num) :
  textCalls (drawCell s geo c data y x cv)
  = textCalls cv ++ placed geo y x (cellAt s c data y x).
Proof.
  unfold drawCell, placed. destruct (cellAt s c data y x).
  - unfold fillText. rewrite textCalls_draw. reflexivity.
  - now rewrite app_nil_r.
Qed.

Lemma textCalls_fold (A : Type) (f : Canvas num -> A -> Canvas num)
    (g : A -> list (code_unit * num * num)) (l : list A) :
  (forall cv a, textCalls (f cv a) = textCalls cv ++ g a) ->
  forall cv, textCalls (fold_left f l cv) = textCalls cv ++ flat_map g l.
Proof.
  intro Hf. induction l as [|a l IH]; intro cv; cbn [fold_left flat_map].
  - now rewrite app_nil_r.
  - rewrite IH, Hf. now rewrite app_assoc.
Qed.

Lemma rowCalls_seq (geo : Geometry num) (y : nat) (f : nat -> Cell)
    (n a : nat) :
  rowCalls geo y a (List.map f (seq a n))
  = flat_map (fun x => placed geo y x (f x)) (seq a n).
Proof.
  revert a. induction n as [|n IH]; intro a; [reflexivity|].
  cbn [seq List.map rowCalls flat_map]. now rewrite IH.
Qed.

Lemma gridCalls_seq (geo : Geometry num) (f : nat -> nat -> Cell)
    (m n a : nat) :
  gridCalls geo a (List.map (fun y => List.map (f y) (seq 0 m)) (seq a n))
  = flat_map (fun y => flat_map (fun x => placed geo y x (f y x)) (seq 0 m))
      (seq a n).
Proof.
  revert a. induction n as [|n IH]; intro a; [reflexivity|].
  cbn [seq List.map gridCalls flat_map]. now rewrite IH, rowCalls_seq.
Qed.

(** The loops paint the glyphs of the grid, each at its place. *)
Lemma processImage_paints_the_grid (img : Image) (cv : Canvas num)
    (s : AsciiSettings num) :
  option_map textCalls (drawn (processImage img cv s))
  = option_map
      (gridCalls (geometry (of_Z (img_width img)) (of_Z (img_height img)) s) 0)
      (render img s).
Proof.
  unfold processImage, render.
  set (geo := geometry (of_Z (img_width img)) (of_Z (img_height img)) s).
  destruct (getImageData img _ _) as [[[c r] data]|]; [|reflexivity].
  cbn [drawn option_map]. f_equal.
  unfold glyphGrid. rewrite gridCalls_seq.
  rewrite textCalls_fold
    with (g := fun y =>
                 flat_map (fun x => placed geo y x (cellAt s c data y x))
                   (seq 0 (Z.to_nat c))).
  - reflexivity.
  - intros cv' y. unfold drawRow.
    apply textCalls_fold. intros cv'' x. apply textCalls_drawCell.
Qed.
End Drawing.

(** C8: the transform is a function of the image and the settings alone.  In
    either arithmetic, two runs on the same image and settings, from any two
    states of the canvas (so also a second run on the canvas the first one
    left), decide alike whether anything is drawn and leave the same canvas;
    and the text on it is the grid of [Glyph]/[Empty] decisions, which
    depends on the sampled pixels and the settings only: the same glyph at
    the same place for every cell. *)
Theorem C8_render_is_deterministic :
  forall (num : Type) (N : JsNumber num) (img : Image) (s : AsciiSettings num)
         (cv1 cv2 : Canvas num),
    drawn (processImage img cv1 s) = drawn (processImage img cv2 s)
    /\ option_map textCalls (drawn (processImage img cv1 s))
       = option_map
           (gridCalls (geometry (of_Z (img_width img)) (of_Z (img_height img)) s) 0)
           (render img s)
    /\ option_map textCalls (drawn (processImage img cv2 s))
       = option_map
           (gridCalls (geometry (of_Z (img_width img)) (of_Z (img_height img)) s) 0)
           (render img s).
Proof.
  intros num N img s cv1 cv2.
  split; [|split; apply processImage_paints_the_grid].
  unfold processImage.
  destruct (getImageData img _ _) as [[[c r] data]|]; reflexivity.
Qed.

(** ** Monotonicity of the column count *)

(** C7: in binary64, the arithmetic of the program, for an image of any
    width (a whole number of pixels, zero included) and any height, and for
    two resolutions that are doubles with
    [0.1 <= r1 <= r2 <= 1], the column count at [r1] is at most the column
    count at [r2], before the clamp ([cols]) and after it ([safeCols]).  Every
    operator rounds, and every one of them is monotone: the font size does not
    grow with the resolution, nor does the width of a cell in the units of the
    image, so the quotient of the image width by it does not shrink. *)
Theorem C7_cols_monotone_in_resolution (w h : Z) (s1 s2 : AsciiSettings b64) :
  (0 <= w)%Z ->
  is_double (resolution s1) -> is_double (resolution s2) ->
  SFleb (B64.dec 1 1) (resolution s1) = true ->
  SFleb (resolution s1) (resolution s2) = true ->
  SFleb (resolution s2) (B64.of_Z 1) = true ->
  let g1 := geometry (of_Z w) (of_Z h) s1 in
  let g2 := geometry (of_Z w) (of_Z h) s2 in
  SFleb (cols g1) (cols g2) = true
  /\ SFleb (safeCols g1) (safeCols g2) = true
  /\ ltb (safeCols g2) (safeCols g1) = false.
Proof.
  intros Hw D1 D2 L1 L12 L2 g1 g2.
  assert (Flo : is_fin (B64.dec 1 1) = true) by reflexivity.
  assert (Fhi : is_fin (B64.of_Z 1) = true) by reflexivity.
  destruct (@chain_fin _ _ _ _ D1 D2 Flo Fhi L1 L12 L2) as [F1 F2].
  pose proof (val_B2Q _ F1) as V1. pose proof (val_B2Q _ F2) as V2.
  set (R1 := B2Q (resolution s1)) in *. set (R2 := B2Q (resolution s2)) in *.
  assert (Vlo : val (B64.dec 1 1) (3602879701896397 # 36028797018963968))
    by (split; vm_compute; reflexivity).
  assert (Vhi : val (B64.of_Z 1) 1) by (split; vm_compute; reflexivity).
  apply (val_leb Vlo V1) in L1. apply (val_leb V1 V2) in L12.
  apply (val_leb V2 Vhi) in L2.
  assert (A1 : 1 # 16 <= R1) by lra. assert (A2 : 1 # 16 <= R2) by lra.
  assert (B1 : R1 <= 1) by lra.
  assert (P1 : 0 < R1) by lra.
  assert (HW : (exists W, val (B64.of_Z w) W /\ 0 <= W /\ W <= pow2 1024)
               \/ B64.of_Z w = S754_infinity false).
  { destruct (Z.eq_dec w 0) as [->|NZ].
    - left. exists 0. pose proof (pow2_pos 1024).
      split; [split; vm_compute; reflexivity | split; lra].
    - destruct (@of_Z_pos_cases w) as [(VW & W1 & W2)|WI]; [lia | | right; exact WI].
      left. exists (rnd (inject_Z w)). split; [exact VW | split; lra]. }
  destruct HW as [(W & VW & W0 & W2)|WI].
  - pose proof (@b64_cols (of_Z w) (of_Z h) s1 R1 V1 A1 B1 _ VW W0 W2) as C1.
    pose proof (@b64_cols (of_Z w) (of_Z h) s2 R2 V2 A2 L2 _ VW W0 W2) as C2.
    pose proof (@b64_safeCols (of_Z w) (of_Z h) s1 R1 V1 A1 B1 _ VW W0 W2) as S1.
    pose proof (@b64_safeCols (of_Z w) (of_Z h) s2 R2 V2 A2 L2 _ VW W0 W2) as S2.
    pose proof (colsR_monotone W0 P1 L12 L2) as M.
    pose proof (safeColsR_monotone W0 P1 L12 L2) as MS.
    fold g1 in C1, S1. fold g2 in C2, S2.
    split; [|split].
    + apply (val_leb C1 C2). rewrite <- Zle_Qle. exact M.
    + apply (val_leb S1 S2). rewrite <- Zle_Qle. exact MS.
    + destruct (ltb (safeCols g2) (safeCols g1)) eqn:E; [|reflexivity].
      apply (val_ltb S2 S1) in E. rewrite <- Zlt_Qlt in E. lia.
  - (* a width beyond the doubles is [Infinity]: both counts are *)
    assert (P2 : 0 < R2) by lra.
    pose proof (@b64_cellWidth (of_Z w) (of_Z h) s1 R1 V1 A1 B1) as Q1.
    pose proof (@b64_cellWidth (of_Z w) (of_Z h) s2 R2 V2 A2 L2) as Q2.
    pose proof (cellWidthR_range P1 B1) as G1. pose proof (cellWidthR_range P2 L2) as G2.
    destruct (@val_pos_finite _ _ Q1) as (m1 & e1 & E1); [lra|].
    destruct (@val_pos_finite _ _ Q2) as (m2 & e2 & E2); [lra|].
    fold g1 in E1. fold g2 in E2.
    assert (C1 : cols g1 = S754_infinity false).
    { unfold g1 at 1. rewrite geometry_cols. fold g1. rewrite E1.
      change (of_Z w) with (B64.of_Z w). rewrite WI. reflexivity. }
    assert (C2 : cols g2 = S754_infinity false).
    { unfold g2 at 1. rewrite geometry_cols. fold g2. rewrite E2.
      change (of_Z w) with (B64.of_Z w). rewrite WI. reflexivity. }
    assert (S1 : safeCols g1 = of_Z 600).
    { unfold g1 at 1. rewrite geometry_safeCols. fold g1. rewrite C1. reflexivity. }
    assert (S2 : safeCols g2 = of_Z 600).
    { unfold g2 at 1. rewrite geometry_safeCols. fold g2. rewrite C2. reflexivity. }
    rewrite C1, C2, S1, S2. repeat split; reflexivity.
Qed.

Lemma C7_cols_monotone_in_resolution_witness :
  let s1 := withResolution (B64.dec 2 1) defaultSettings in
  let s2 := defaultSettings (num := b64) in
  let g1 := geometry (of_Z 2057) (of_Z 1000) s1 in
  let g2 := geometry (of_Z 2057) (of_Z 1000) s2 in
  SFleb (cols g1) (cols g2) = true
  /\ SFleb (safeCols g1) (safeCols g2) = true
  /\ ltb (safeCols g2) (safeCols g1) = false.
Proof.
  intros s1 s2.
  apply (@C7_cols_monotone_in_resolution 2057 1000 s1 s2);
    [lia | reflexivity | reflexivity | vm_compute; reflexivity ..].
Defined.

(** The column count the program computes for an image 2057 wide at
    resolution 0.2 is 43: the font size comes out as 17 and the cell as
    [17 * 0.55 = 9.350000000000001] wide, where unrounded arithmetic would give
    16, 8.8 and 46 columns. *)
Lemma cols_2057_at_resolution_02 :
  colsR 2057 (B2Q (B64.dec 2 1)) = 43%Z
  /\ fontSizeR (B2Q (B64.dec 2 1)) = 17%Z
  /\ to_int (cols (geometry (of_Z 2057) (of_Z 1000)
                     (withResolution (B64.dec 2 1) (defaultSettings (num := b64)))))
     = Some 43%Z.
Proof. repeat split; vm_compute; reflexivity. Qed.

(** ** The ramp index is in bounds *)

(** C9, as stated, fails at the pole of the contrast factor.  With contrast
    [259/255] (inside the documented range 0.5 to 3.0) the factor is
    [Infinity]; for a pixel whose tone before the contrast line is exactly
    128 (here grey 28 with brightness 100) the line yields [NaN], which the
    clamp passes on, so the index is [NaN], [chars[NaN]] is undefined and the
    cell is skipped.  In exact arithmetic and in binary64. *)
Lemma C9_index_undefined_at_the_pole :
  (let s := withContrast (div (of_Z 259) (of_Z 255))
              (withBrightness (of_Z 100) (defaultSettings (num := xnum))) in
   let index := cellIndex s (contrastFactor s) (length_of (CHAR_SETS detail))
                  (of_Z 28) (of_Z 28) (of_Z 28) in
   contrastFactor s = XPInf /\ index = XNaN /\ to_int index = None
   /\ cellChar s (of_Z 28) (of_Z 28) (of_Z 28) = None)
  /\ (let s := withContrast (div (of_Z 259) (of_Z 255))
                 (withBrightness (of_Z 100) (defaultSettings (num := b64))) in
      let index := cellIndex s (contrastFactor s) (length_of (CHAR_SETS detail))
                     (of_Z 28) (of_Z 28) (of_Z 28) in
      contrastFactor s = S754_infinity false /\ index = S754_nan
      /\ to_int index = None
      /\ cellChar s (of_Z 28) (of_Z 28) (of_Z 28) = None).
Proof. repeat split; vm_compute; reflexivity. Qed.

(** C9 (amended): in binary64, for every settings record, every sample
    [(r, g, b)] of doubles and every non-empty ramp (a string has fewer than
    [2^53] code units): when the tone that reaches the clamp is a number, the
    tone after the clamp and the optional inversion lies in [0, 255], the ramp
    index is an integer in [0, rampLength - 1] and the character at that index
    is defined, for the given ramp and for the ramp of the settings; when the
    tone that reaches the clamp is [NaN], the clamp passes it on, the index is
    [NaN], the character is undefined and the cell is left unpainted. *)
Theorem C9_index_in_bounds
    (s : AsciiSettings b64) (r g b : b64) (chars : js_string) :
  is_double (contrast s) -> is_double (brightness s) ->
  is_double r -> is_double g -> is_double b ->
  chars <> [] -> (Z.of_nat (List.length chars) < 2 ^ 53)%Z ->
  let tone := toneBeforeClamp s (contrastFactor s) r g b in
  let index := cellIndex s (contrastFactor s) (length_of chars) r g b in
  (tone <> S754_nan ->
   SFleb (of_Z 0) (cellGray s (contrastFactor s) r g b) = true
   /\ SFleb (cellGray s (contrastFactor s) r g b) (of_Z 255) = true
   /\ exists (i : Z) (ch ch' : code_unit),
        to_int index = Some i
        /\ (0 <= i <= Z.of_nat (List.length chars) - 1)%Z
        /\ char_at chars index = Some ch
        /\ cellChar s r g b = Some ch')
  /\ (tone = S754_nan ->
      index = S754_nan /\ char_at chars index = None
      /\ cellChar s r g b = None /\ paint (cellChar s r g b) = Empty).
Proof.
  intros Dc Db Dr Dg Dbl Hne Hlen tone index.
  pose proof (contrastFactor_double s Dc) as Df.
  pose proof (toneBeforeClamp_double s Db Df Dr Dg Dbl) as Dt.
  fold tone in Dt. split.
  - intro N. destruct (cellGray_val s (contrastFactor s) r g b Dt N) as (T & V & T0 & T1).
    assert (V0 : val (of_Z 0) 0) by (split; vm_compute; reflexivity).
    assert (V255 : val (of_Z 255) 255) by (split; vm_compute; reflexivity).
    split; [apply (val_leb V0 V); exact T0|].
    split; [apply (val_leb V V255); exact T1|].
    assert (Hidx : forall l : js_string, l <> [] ->
              (Z.of_nat (List.length l) < 2 ^ 53)%Z ->
              exists i ch,
                to_int (cellIndex s (contrastFactor s) (length_of l) r g b) = Some i
                /\ (0 <= i <= Z.of_nat (List.length l) - 1)%Z
                /\ char_at l (cellIndex s (contrastFactor s) (length_of l) r g b)
                   = Some ch).
    { intros l Hl Hb.
      assert (Hn : (1 <= Z.of_nat (List.length l) < 2 ^ 53)%Z).
      { split; [|exact Hb]. destruct l; [congruence | cbn [List.length]; lia]. }
      destruct (index_val V (conj T0 T1) Hn) as (i & Vi & Hi).
      destruct (char_at_val l Vi Hi) as (E & ch & C).
      exists i, ch. repeat split; try assumption; lia. }
    destruct (Hidx chars Hne Hlen) as (i & ch & E & Hi & C).
    destruct (Hidx (CHAR_SETS (charSetMode s))) as (_ & ch' & _ & _ & C').
    { destruct (charSetMode s); discriminate. }
    { destruct (charSetMode s); vm_compute; reflexivity. }
    exists i, ch, ch'. repeat split; try assumption; lia.
  - intro N.
    assert (G : cellGray s (contrastFactor s) r g b = S754_nan).
    { rewrite cellGray_clamp. fold tone. rewrite N. destruct (invert s); reflexivity. }
    assert (I : forall l, cellIndex s (contrastFactor s) (length_of l) r g b = S754_nan).
    { intro l. unfold cellIndex. rewrite G. reflexivity. }
    unfold index. rewrite I. unfold cellChar. rewrite I. repeat split.
Qed.

Lemma C9_index_in_bounds_witness :
  let s := defaultSettings (num := b64) in
  let r := of_Z 200 : b64 in
  let g := of_Z 100 : b64 in
  let b := of_Z 50 : b64 in
  let chars := CHAR_SETS binary in
  let tone := toneBeforeClamp s (contrastFactor s) r g b in
  let index := cellIndex s (contrastFactor s) (length_of chars) r g b in
  (tone <> S754_nan ->
   SFleb (of_Z 0) (cellGray s (contrastFactor s) r g b) = true
   /\ SFleb (cellGray s (contrastFactor s) r g b) (of_Z 255) = true
   /\ exists (i : Z) (ch ch' : code_unit),
        to_int index = Some i
        /\ (0 <= i <= Z.of_nat (List.length chars) - 1)%Z
        /\ char_at chars index = Some ch
        /\ cellChar s r g b = Some ch')
  /\ (tone = S754_nan ->
      index = S754_nan /\ char_at chars index = None
      /\ cellChar s r g b = None /\ paint (cellChar s r g b) = Empty).
Proof.
  intros s r g b chars.
  apply (@C9_index_in_bounds s r g b chars);
    try reflexivity; try discriminate.
Defined.


(** ** The sign of the contrast factor *)

(** C10, as stated, fails in binary64 on two counts.  At the default contrast
    1.1 the contrast line is not strictly decreasing: the lumas of the pixels
    [(11, 1, 0)] and [(0, 0, 34)], 3.8759999999999994 and 3.8760000000000003,
    both come out as 3268.0485395348833.  And not every contrast above
    [259/255] has a negative factor: at [1e304] the numerator overflows to
    [Infinity], the denominator to [-Infinity], and the factor is [NaN]. *)
Lemma C10_contrast_line_is_not_strict :
  let s := defaultSettings (num := b64) in
  let luma := fun r g b : Z =>
    add (add (mul (dec 299 3) (of_Z r)) (mul (dec 587 3) (of_Z g)))
        (mul (dec 114 3) (of_Z b)) : b64 in
  let g1 := luma 11%Z 1%Z 0%Z in
  let g2 := luma 0%Z 0%Z 34%Z in
  (ltb g1 g2 = true
   /\ applyContrast (contrastFactor s) g1 = applyContrast (contrastFactor s) g2
   /\ ltb (applyContrast (contrastFactor s) g2)
          (applyContrast (contrastFactor s) g1) = false)
  /\ (let s' := withContrast (of_Z (10 ^ 304)) s in
      ltb (of_Z 3) (contrast s') = true
      /\ contrastFactor s' = S754_nan
      /\ ltb (contrastFactor s') (of_Z 0) = false).
Proof. repeat split; vm_compute; reflexivity. Qed.

(** C10 (amended): in binary64, for every contrast that is a double greater
    than [259/255] and at most [10^9] (the default 1.1 and the documented
    range up to 3.0 are inside), the denominator [259 - contrast * 255] is
    negative, the contrast factor is a finite negative number, and the
    contrast line [gray -> contrastFactor * (gray - 128) + 128] never
    increases: of two tones between [-10^6] and [10^6], the smaller or equal
    one comes out the larger or equal one. *)
Theorem C10_contrast_factor_negative (s : AsciiSettings b64) :
  is_fin (contrast s) = true ->
  259 # 255 < B2Q (contrast s) -> B2Q (contrast s) <= 1000000000 ->
  ltb (sub (of_Z 259) (mul (contrast s) (of_Z 255))) (of_Z 0) = true
  /\ is_fin (contrastFactor s) = true
  /\ ltb (contrastFactor s) (of_Z 0) = true
  /\ (forall g1 g2 : b64,
        is_fin g1 = true -> is_fin g2 = true ->
        - 1000000 <= B2Q g1 -> B2Q g2 <= 1000000 ->
        SFleb g1 g2 = true ->
        SFleb (applyContrast (contrastFactor s) g2)
              (applyContrast (contrastFactor s) g1) = true).
Proof.
  intros F C0 C1. pose proof (val_B2Q _ F) as VC.
  pose proof (@b64_denominator s _ VC C0 C1) as VU.
  pose proof (@denominatorR_bounds s _ VC C0 C1) as [_ U1].
  pose proof (@b64_contrastFactor s _ VC C0 C1) as VF.
  pose proof (@contrastFactorR_bounds s _ VC C0 C1) as [F0 F1].
  pose proof (pow2_pos (-44)). pose proof (pow2_pos (-30)).
  assert (V0 : val (of_Z 0) 0) by (split; vm_compute; reflexivity).
  split; [apply (val_ltb VU V0); lra|].
  split; [exact (val_fin VF)|].
  split; [apply (val_ltb VF V0); lra|].
  intros g1 g2 Fg1 Fg2 L1 L2 L.
  pose proof (val_B2Q _ Fg1) as V1. pose proof (val_B2Q _ Fg2) as V2.
  apply (val_leb V1 V2) in L.
  assert (N0 : contrastFactorR (B2Q (contrast s)) <= 0) by lra.
  pose proof (b64_applyContrast VF F0 N0 V1 L1) as M1.
  pose proof (b64_applyContrast VF F0 N0 V2) as M2.
  apply (val_leb (M2 ltac:(lra) L2) (M1 ltac:(lra))).
  apply contrastLineR_antitone; assumption.
Qed.

Lemma C10_contrast_factor_negative_witness :
  let s := defaultSettings (num := b64) in
  ltb (sub (of_Z 259) (mul (contrast s) (of_Z 255))) (of_Z 0) = true
  /\ is_fin (contrastFactor s) = true
  /\ ltb (contrastFactor s) (of_Z 0) = true
  /\ (forall g1 g2 : b64,
        is_fin g1 = true -> is_fin g2 = true ->
        - 1000000 <= B2Q g1 -> B2Q g2 <= 1000000 ->
        SFleb g1 g2 = true ->
        SFleb (applyContrast (contrastFactor s) g2)
              (applyContrast (contrastFactor s) g1) = true).
Proof.
  intro s.
  apply (@C10_contrast_factor_negative s);
    [reflexivity | vm_compute; reflexivity | vm_compute; discriminate].
Defined.

Lemma contrastFactorQ_negative (c : Q) : 259 # 255 < c -> contrastFactorQ c < 0.
Proof.
  intro Hc. unfold contrastFactorQ.
  assert (Hc' : 259 < c * 255).
  { assert (E : 259 == (259 # 255) * 255) by reflexivity. rewrite E.
    apply Qmult_lt_compat_r; [reflexivity | exact Hc]. }
  assert (E : 259 * (c * 255 + 255) / (255 * (259 - c * 255))
              == - (259 * (c * 255 + 255) / (255 * (c * 255 - 259))))
    by (field; split; lra).
  rewrite E.
  assert (0 < 259 * (c * 255 + 255) / (255 * (c * 255 - 259)))
    by (apply Qlt_shift_div_l; lra).
  lra.
Qed.

(** At the default contrast the factor is negative in binary64 as well, and
    the contrast line sends black above white. *)
Lemma default_contrast_factor_negative_b64 :
  ltb (contrastFactor (num := b64) defaultSettings) (of_Z 0) = true
  /\ ltb (applyContrast (contrastFactor (num := b64) defaultSettings) (of_Z 255))
         (applyContrast (contrastFactor (num := b64) defaultSettings) (of_Z 0))
     = true.
Proof. split; vm_compute; reflexivity. Qed.

(** ** Below the pole

    For a contrast in [0, 259/255) the factor, computed exactly, is at least
    1. *)

Lemma contrastFactorQ_ge_1 (c : Q) :
  0 <= c -> c * 255 < 259 -> 1 <= contrastFactorQ c.
Proof.
  intros H0 H1. unfold contrastFactorQ.
  apply Qle_shift_div_l; lra.
Qed.

(** * Further properties of the conversion *)

(** ** What a run paints *)

Section Painting.
Context {num : Type} `{JsNumber num}.

Lemma painted_drawCell (s : AsciiSettings num) (geo : Geometry num)
    (c : Z) (data : list Z) (y x : nat) (cv : Canvas num) :
  painted (drawCell s geo c data y x cv)
  = painted cv ++ List.map whiteText (placed geo y x (cellAt s c data y x))
  /\ frame (drawCell s geo c data y x cv) = frame cv.
Proof.
  unfold drawCell, placed. destruct (cellAt s c data y x).
  - split; reflexivity.
  - split; [now rewrite app_nil_r | reflexivity].
Qed.

Lemma painted_fold (A : Type) (f : Canvas num -> A -> Canvas num)
    (g : A -> list (code_unit * num * num)) (l : list A) :
  (forall cv a, painted (f cv a) = painted cv ++ List.map whiteText (g a)
                /\ frame (f cv a) = frame cv) ->
  forall cv,
    painted (fold_left f l cv) = painted cv ++ List.map whiteText (flat_map g l)
    /\ frame (fold_left f l cv) = frame cv.
Proof.
  intro Hf. induction l as [|a l IH]; intro cv; cbn [fold_left flat_map].
  - split; [now rewrite app_nil_r | reflexivity].
  - destruct (IH (f cv a)) as [Hp Hfr]. destruct (Hf cv a) as [Hp' Hfr'].
    rewrite Hp, Hp', Hfr, Hfr', map_app, app_assoc. split; reflexivity.
Qed.

Lemma painted_rows (s : AsciiSettings num) (geo : Geometry num)
    (c r : Z) (data : list Z) (cv : Canvas num) :
  painted (fold_left (drawRow s geo c data) (seq 0 (Z.to_nat r)) cv)
  = painted cv ++ List.map whiteText (gridCalls geo 0 (glyphGrid s c r data))
  /\ frame (fold_left (drawRow s geo c data) (seq 0 (Z.to_nat r)) cv) = frame cv.
Proof.
  unfold glyphGrid. rewrite gridCalls_seq.
  apply painted_fold
    with (g := fun y => flat_map (fun x => placed geo y x (cellAt s c data y x))
                          (seq 0 (Z.to_nat c))).
  intros cv' y. unfold drawRow.
  apply painted_fold with (g := fun x => placed geo y x (cellAt s c data y x)).
  intros cv'' x. apply painted_drawCell.
Qed.
End Painting.

(** X3: in either arithmetic, a run that draws leaves a canvas sized to the
    grid ([safeCols * fontWidth] by [rows * fontHeight], as whole pixels), the
    text state of the conversion (the font size, baseline top, alignment
    left), and exactly these calls in this order: one black rectangle over
    the whole canvas, then one white text call per [Glyph] cell of the grid,
    row by row, each at [(x * fontWidth, y * fontHeight)].  Nothing painted
    before the run is left. *)
Theorem X3_what_a_run_paints :
  forall (num : Type) (N : JsNumber num) (img : Image) (s : AsciiSettings num)
         (cv cv' : Canvas num),
    processImage img cv s = Rendered cv' ->
    let geo := geometry (of_Z (img_width img)) (of_Z (img_height img)) s in
    exists grid : list (list Cell),
      render img s = Some grid
      /\ width cv' = toUnsignedLong (mul (safeCols geo) (fontWidth geo))
      /\ height cv' = toUnsignedLong (mul (rows geo) (fontHeight geo))
      /\ font cv' = fontSize geo
      /\ textBaseline cv' = Top /\ textAlign cv' = Left
      /\ painted cv'
         = FillRect Black (of_Z 0) (of_Z 0) (width cv') (height cv')
           :: List.map whiteText (gridCalls geo 0 grid).
Proof.
  intros num N img s cv cv' E geo.
  unfold processImage, render in *. fold geo in E |- *.
  destruct (getImageData img (safeCols geo) (rows geo)) as [[[c r] data]|];
    [|discriminate E].
  injection E as <-. exists (glyphGrid s c r data).
  match goal with
  | |- context [fold_left _ _ ?cv0] =>
      destruct (painted_rows s geo c r data cv0) as [Hp Hf]
  end.
  unfold frame in Hf. injection Hf as Hw Hh Hfont Hb Ha.
  rewrite Hp, Hw, Hh, Hfont, Hb, Ha. repeat split; reflexivity.
Qed.

Lemma X3_what_a_run_paints_witness :
  let img := uniformImage 100 100 255 255 255 in
  let s := withInvert true (defaultSettings (num := xnum)) in
  let cv := reset (of_Z 300) (of_Z 150) in
  let geo := geometry (of_Z 100) (of_Z 100) s in
  exists cv' grid,
    processImage img cv s = Rendered cv'
    /\ render img s = Some grid
    /\ width cv' = toUnsignedLong (mul (safeCols geo) (fontWidth geo))
    /\ height cv' = toUnsignedLong (mul (rows geo) (fontHeight geo))
    /\ font cv' = fontSize geo
    /\ textBaseline cv' = Top /\ textAlign cv' = Left
    /\ painted cv'
       = FillRect Black (of_Z 0) (of_Z 0) (width cv') (height cv')
         :: List.map whiteText (gridCalls geo 0 grid).
Proof.
  intros img s cv geo.
  assert (E : exists cv', processImage img cv s = Rendered cv').
  { unfold processImage.
    replace (getImageData img _ _)
      with (Some (40%Z, 22%Z, resample img 40 22)) by (vm_compute; reflexivity).
    eexists. reflexivity. }
  destruct E as [cv' E]. exists cv'.
  destruct (@X3_what_a_run_paints xnum _ img s cv cv' E) as (grid & Hg).
  exists grid. split; [exact E | exact Hg].
Defined.

(** ** The glyphs of a run *)

Section Glyphs.
Context {num : Type} `{JsNumber num}.

Lemma char_at_in (chars : js_string) (i : num) (ch : code_unit) :
  char_at chars i = Some ch -> In ch chars.
Proof.
  unfold char_at. destruct (to_int i) as [z|]; [|discriminate].
  destruct (0 <=? z)%Z; [|discriminate]. apply nth_error_In.
Qed.

Lemma cellAt_glyph (s : AsciiSettings num) (c : Z) (data : list Z)
    (y x : nat) (ch : code_unit) :
  cellAt s c data y x = Glyph ch ->
  ch <> SPACE /\ In ch (CHAR_SETS (charSetMode s)).
Proof.
  unfold cellAt, paint, cellChar.
  destruct (char_at _ _) as [ch'|] eqn:E; [|discriminate].
  destruct (N.eqb_spec ch' SPACE) as [|Hne]; [discriminate|].
  intro G. injection G as <-. split; [exact Hne|].
  eapply char_at_in. exact E.
Qed.

Lemma in_gridCalls (s : AsciiSettings num) (geo : Geometry num) (c r : Z)
    (data : list Z) (call : code_unit * num * num) :
  In call (gridCalls geo 0 (glyphGrid s c r data)) ->
  exists row col : nat,
    (row < Z.to_nat r)%nat /\ (col < Z.to_nat c)%nat
    /\ cellAt s c data row col = Glyph (fst (fst call))
    /\ call = (fst (fst call),
               mul (of_Z (Z.of_nat col)) (fontWidth geo),
               mul (of_Z (Z.of_nat row)) (fontHeight geo)).
Proof.
  unfold glyphGrid. rewrite gridCalls_seq.
  intro Hin. apply in_flat_map in Hin. destruct Hin as (row & Hrow & Hin).
  apply in_flat_map in Hin. destruct Hin as (col & Hcol & Hin).
  apply in_seq in Hrow. apply in_seq in Hcol.
  exists row, col. unfold placed in Hin.
  destruct (cellAt s c data row col) as [ch|] eqn:E; [|contradiction].
  destruct Hin as [<-|[]]. cbn [fst]. repeat split; try lia. 
Qed.

Lemma length_rowCalls (geo : Geometry num) (y x : nat) (row : list Cell) :
  (List.length (rowCalls geo y x row) <= List.length row)%nat.
Proof.
  revert x. induction row as [|cell row IH]; intro x; cbn [rowCalls List.length].
  - lia.
  - rewrite length_app. specialize (IH (S x)).
    destruct cell; cbn [placed List.length]; lia.
Qed.

Lemma length_gridCalls (geo : Geometry num) (n : nat) (grid : list (list Cell))
    (y : nat) :
  Forall (fun row => List.length row = n) grid ->
  (List.length (gridCalls geo y grid) <= List.length grid * n)%nat.
Proof.
  intro Hall. revert y. induction Hall as [|row grid Hrow _ IH]; intro y;
    cbn [gridCalls List.length].
  - lia.
  - rewrite length_app. specialize (IH (S y)).
    pose proof (length_rowCalls geo y 0 row). lia.
Qed.
End Glyphs.

(** X4: in either arithmetic, every text call of a run that draws paints a
    character of the selected ramp other than the space, and sits at
    [(col * fontWidth, row * fontHeight)] for a cell [(row, col)] inside the
    grid of [safeCols] by [rows] cells: the space and an undefined character
    are never painted, and nothing is painted outside the grid. *)
Theorem X4_every_text_call_is_a_ramp_glyph_in_the_grid :
  forall (num : Type) (N : JsNumber num) (img : Image) (s : AsciiSettings num)
         (cv cv' : Canvas num) (ch : code_unit) (x y : num),
    processImage img cv s = Rendered cv' ->
    In (ch, x, y) (textCalls cv') ->
    let geo := geometry (of_Z (img_width img)) (of_Z (img_height img)) s in
    ch <> SPACE
    /\ In ch (CHAR_SETS (charSetMode s))
    /\ exists (c r : Z) (row col : nat),
         to_int (safeCols geo) = Some c /\ to_int (rows geo) = Some r
         /\ (Z.of_nat col < c)%Z /\ (Z.of_nat row < r)%Z
         /\ x = mul (of_Z (Z.of_nat col)) (fontWidth geo)
         /\ y = mul (of_Z (Z.of_nat row)) (fontHeight geo).
Proof.
  intros num N img s cv cv' ch x y E Hin geo.
  pose proof (processImage_paints_the_grid img cv s) as Hcalls.
  rewrite E in Hcalls. cbn [drawn option_map] in Hcalls.
  unfold render, getImageData in Hcalls. fold geo in Hcalls.
  destruct (to_int (safeCols geo)) as [c|] eqn:Ec;
    [|rewrite Z.eqb_refl in Hcalls; discriminate Hcalls].
  destruct (to_int (rows geo)) as [r|] eqn:Er;
    [|rewrite Z.eqb_refl, orb_true_r in Hcalls; discriminate Hcalls].
  destruct ((c =? 0)%Z || (r =? 0)%Z); [discriminate Hcalls|].
  cbn [option_map] in Hcalls. injection Hcalls as Hcalls.
  rewrite Hcalls in Hin. apply in_gridCalls in Hin.
  destruct Hin as (row & col & Hrow & Hcol & Hcell & Hcall). cbn [fst] in *.
  apply cellAt_glyph in Hcell. destruct Hcell as [Hne Hramp].
  injection Hcall as Hx Hy.
  repeat split; try assumption.
  exists c, r, row, col. repeat split; try assumption; lia.
Qed.

Lemma X4_every_text_call_is_a_ramp_glyph_in_the_grid_witness :
  let img := uniformImage 100 100 0 0 0 in
  let s := defaultSettings (num := xnum) in
  let cv := reset (of_Z 300) (of_Z 150) in
  let geo := geometry (of_Z 100) (of_Z 100) s in
  let x := mul (of_Z 0) (fontWidth geo) in
  let y := mul (of_Z 0) (fontHeight geo) in
  exists cv',
    processImage img cv s = Rendered cv'
    /\ In (64%N, x, y) (textCalls cv')
    /\ 64%N <> SPACE
    /\ In 64%N (CHAR_SETS (charSetMode s))
    /\ exists (c r : Z) (row col : nat),
         to_int (safeCols geo) = Some c /\ to_int (rows geo) = Some r
         /\ (Z.of_nat col < c)%Z /\ (Z.of_nat row < r)%Z
         /\ x = mul (of_Z (Z.of_nat col)) (fontWidth geo)
         /\ y = mul (of_Z (Z.of_nat row)) (fontHeight geo).
Proof.
  intros img s cv geo x y.
  assert (E : exists cv', processImage img cv s = Rendered cv'
                          /\ In (64%N, x, y) (textCalls cv')).
  { unfold processImage.
    replace (getImageData img _ _)
      with (Some (40%Z, 22%Z, resample img 40 22)) by (vm_compute; reflexivity).
    eexists. split; [reflexivity|]. vm_compute. left. reflexivity. }
  destruct E as (cv' & E & Hin). exists cv'.
  split; [exact E|]. split; [exact Hin|].
  exact (@X4_every_text_call_is_a_ramp_glyph_in_the_grid
           xnum _ img s cv cv' 64%N x y E Hin).
Defined.

(** X5: in either arithmetic, when a grid is produced it has [rows] rows of
    [safeCols] cells each, both counts being non-zero integers, and at most
    one glyph is placed per cell. *)
Theorem X5_grid_shape :
  forall (num : Type) (N : JsNumber num) (img : Image) (s : AsciiSettings num)
         (grid : list (list Cell)),
    render img s = Some grid ->
    let geo := geometry (of_Z (img_width img)) (of_Z (img_height img)) s in
    exists c r : Z,
      to_int (safeCols geo) = Some c /\ to_int (rows geo) = Some r
      /\ c <> 0%Z /\ r <> 0%Z
      /\ List.length grid = Z.to_nat r
      /\ Forall (fun row => List.length row = Z.to_nat c) grid
      /\ (List.length (gridCalls geo 0 grid) <= Z.to_nat r * Z.to_nat c)%nat.
Proof.
  intros num N img s grid E geo.
  unfold render, getImageData in E. fold geo in E.
  destruct (to_int (safeCols geo)) as [c|] eqn:Ec;
    [|rewrite Z.eqb_refl in E; discriminate E].
  destruct (to_int (rows geo)) as [r|] eqn:Er;
    [|rewrite Z.eqb_refl, orb_true_r in E; discriminate E].
  destruct (Z.eqb_spec c 0) as [|Hc]; [discriminate E|].
  destruct (Z.eqb_spec r 0) as [|Hr]; [discriminate E|].
  cbn [orb] in E. injection E as <-.
  assert (Hlen : List.length (glyphGrid s c r (resample img (Z.abs c) (Z.abs r)))
                 = Z.to_nat r)
    by (unfold glyphGrid; now rewrite length_map, length_seq).
  assert (Hrows : Forall (fun row => List.length row = Z.to_nat c)
                    (glyphGrid s c r (resample img (Z.abs c) (Z.abs r)))).
  { unfold glyphGrid. apply Forall_forall. intros row Hin.
    apply in_map_iff in Hin. destruct Hin as (y & <- & _).
    now rewrite length_map, length_seq. }
  exists c, r. repeat split; try assumption.
  rewrite <- Hlen. now apply length_gridCalls.
Qed.

Lemma X5_grid_shape_witness :
  let img := uniformImage 100 100 0 0 0 in
  let s := defaultSettings (num := b64) in
  let geo := geometry (of_Z 100) (of_Z 100) s in
  let grid := repeat (repeat (Glyph 64%N) 40) 22 in
  render img s = Some grid
  /\ exists c r : Z,
      to_int (safeCols geo) = Some c /\ to_int (rows geo) = Some r
      /\ c <> 0%Z /\ r <> 0%Z
      /\ List.length grid = Z.to_nat r
      /\ Forall (fun row => List.length row = Z.to_nat c) grid
      /\ (List.length (gridCalls geo 0 grid) <= Z.to_nat r * Z.to_nat c)%nat.
Proof.
  intros img s geo grid.
  assert (E : render img s = Some grid)
    by (unfold img; rewrite render_uniform; vm_compute; reflexivity).
  split; [exact E|].
  exact (@X5_grid_shape b64 _ img s grid E).
Defined.

(** ** What the grid depends on *)

(** X6: in either arithmetic, an image of one colour renders, when it renders,
    to a grid whose every cell is the cell of that colour: whatever the size
    of the image and of the grid, no cell differs from another. *)
Theorem X6_one_colour_one_cell :
  forall (num : Type) (N : JsNumber num) (s : AsciiSettings num)
         (w h r g b : Z) (grid : list (list Cell)),
    render (uniformImage w h r g b) s = Some grid ->
    Forall (Forall (eq (paint (cellChar s (of_Z r) (of_Z g) (of_Z b))))) grid.
Proof.
  intros num N s w h r g b grid E.
  rewrite render_uniform in E. cbv zeta in E.
  destruct (getImageData _ _ _) as [[[c r'] data]|]; [|discriminate E].
  injection E as <-.
  apply Forall_forall. intros row Hrow. apply repeat_spec in Hrow. subst row.
  apply Forall_forall. intros cell Hcell. apply repeat_spec in Hcell.
  now subst cell.
Qed.

Lemma X6_one_colour_one_cell_witness :
  let s := defaultSettings (num := b64) in
  let grid := repeat (repeat (Glyph 64%N) 40) 22 in
  render (uniformImage 100 100 0 0 0) s = Some grid
  /\ Forall (Forall (eq (paint (cellChar s (of_Z 0) (of_Z 0) (of_Z 0))))) grid.
Proof.
  intros s grid.
  assert (E : render (uniformImage 100 100 0 0 0) s = Some grid)
    by (rewrite render_uniform; vm_compute; reflexivity).
  split; [exact E|].
  exact (@X6_one_colour_one_cell b64 _ s 100 100 0 0 0 grid E).
Defined.

Section Alpha.
Context {num : Type} `{JsNumber num}.

Lemma cellAt_ignores_alpha (s : AsciiSettings num) (c : Z)
    (data1 data2 : list Z) (y x : nat) :
  (0 <= c)%Z ->
  (forall i : nat, (i mod 4 <> 3)%nat -> nth_error data1 i = nth_error data2 i) ->
  cellAt s c data1 y x = cellAt s c data2 y x.
Proof.
  intros Hc Hsame. unfold cellAt, sample.
  set (k := (y * Z.to_nat c + x)%nat).
  replace (Z.to_nat ((Z.of_nat y * c + Z.of_nat x) * 4)) with (4 * k + 0)%nat
    by (unfold k; lia).
  replace (Z.to_nat ((Z.of_nat y * c + Z.of_nat x) * 4 + 1)) with (4 * k + 1)%nat
    by (unfold k; lia).
  replace (Z.to_nat ((Z.of_nat y * c + Z.of_nat x) * 4 + 2)) with (4 * k + 2)%nat
    by (unfold k; lia).
  assert (Hmod : forall j, (j < 3)%nat -> ((4 * k + j) mod 4 <> 3)%nat).
  { intros j Hj. rewrite Nat.add_comm, Nat.mul_comm, Nat.Div0.mod_add.
    rewrite Nat.mod_small by lia. lia. }
  rewrite !Hsame by (apply Hmod; lia). reflexivity.
Qed.
End Alpha.

(** X7: in either arithmetic, the alpha samples never reach the grid: two
    sampled buffers that agree on every red, green and blue sample (every
    index that is not 3 modulo 4) give the same grid of glyphs. *)
Theorem X7_alpha_is_ignored :
  forall (num : Type) (N : JsNumber num) (s : AsciiSettings num) (c r : Z)
         (data1 data2 : list Z),
    (forall i : nat, (i mod 4 <> 3)%nat -> nth_error data1 i = nth_error data2 i) ->
    glyphGrid s c r data1 = glyphGrid s c r data2.
Proof.
  intros num N s c r data1 data2 Hsame. unfold glyphGrid.
  apply map_ext. intro y. apply map_ext_in. intros x Hx.
  apply in_seq in Hx. apply cellAt_ignores_alpha; [lia | exact Hsame].
Qed.

Lemma X7_alpha_is_ignored_witness :
  glyphGrid (num := b64) defaultSettings 2 1 [10; 20; 30; 255; 200; 210; 220; 255]%Z
  = glyphGrid (num := b64) defaultSettings 2 1 [10; 20; 30; 0; 200; 210; 220; 7]%Z.
Proof.
  apply (@X7_alpha_is_ignored b64 _ defaultSettings 2 1).
  intros i Hi.
  do 8 (destruct i as [|i]; [try reflexivity; exfalso; apply Hi; reflexivity|]).
  reflexivity.
Defined.

(** ** The contrast slider *)

Lemma tenths_miss_the_pole (k : Z) : ~ (k # 10) * 255 == 259.
Proof.
  unfold Qeq; cbn [Qmult Qnum Qden]. simpl. lia.
Qed.

(** X13: no position of the contrast slider meets the pole.  In exact
    arithmetic, for every contrast that is a whole number [k] of tenths the
    contrast factor is finite, at least 1 for [0 <= k <= 10] and negative for
    [k >= 11].  In binary64 the factor is finite at each of the 26 positions
    0.5, 0.6, ..., 3.0, not negative at the first six (0.5 to 1.0) and
    negative at the twenty others (1.1 to 3.0). *)
Theorem X13_contrast_slider_misses_the_pole :
  (forall (k : Z) (s : AsciiSettings xnum),
      contrast s = dec k 1 ->
      exists f : Q,
        repr (contrastFactor s) f
        /\ ((0 <= k <= 10)%Z -> 1 <= f)
        /\ ((11 <= k)%Z -> f < 0))
  /\ forallb (fun c => b64_finite (contrastFactor (withContrast c defaultSettings)))
       contrastSlider = true
  /\ List.map (fun c => ltb (contrastFactor (num := b64)
                               (withContrast c defaultSettings)) (of_Z 0))
       contrastSlider
     = repeat false 6 ++ repeat true 20.
Proof.
  split; [|split; vm_compute; reflexivity].
  intros k s E.
  assert (R : repr (contrast s) (k # 10))
    by (rewrite E; cbn [dec xnum_number]; apply repr_xfin).
  exists (contrastFactorQ (k # 10)).
  split; [apply (contrastFactor_closed_form s R (@tenths_miss_the_pole k))|].
  split.
  - intros [Hlo Hhi]. apply contrastFactorQ_ge_1.
    + unfold Qle; simpl; lia.
    + unfold Qlt; simpl; lia.
  - intro Hk. apply contrastFactorQ_negative. unfold Qlt; simpl; lia.
Qed.

Lemma X13_contrast_slider_misses_the_pole_witness :
  exists f : Q,
    repr (contrastFactor (num := xnum) defaultSettings) f
    /\ ((0 <= 11 <= 10)%Z -> 1 <= f)
    /\ ((11 <= 11)%Z -> f < 0).
Proof.
  apply (proj1 X13_contrast_slider_misses_the_pole 11%Z defaultSettings).
  reflexivity.
Defined.

(** ** The two clamps in binary64 *)

Lemma SFcompare_antisym (x y : spec_float) :
  SFcompare y x = option_map CompOpp (SFcompare x y).
Proof.
  destruct x as [sx|sx| |sx mx ex], y as [sy|sy| |sy my ey];
    cbn [SFcompare option_map]; try reflexivity;
    try (destruct sx; reflexivity); try (destruct sy; reflexivity);
    try (destruct sx, sy; reflexivity).
  destruct sx, sy; cbn [CompOpp]; try reflexivity.
  - rewrite (Z.compare_antisym ex ey). destruct (ex ?= ey)%Z; cbn [CompOpp];
      try reflexivity.
    rewrite CompOpp_involutive, (Pos.compare_cont_antisym my mx Eq).
    reflexivity.
  - rewrite (Z.compare_antisym ex ey). destruct (ex ?= ey)%Z; cbn [CompOpp];
      try reflexivity.
    rewrite (Pos.compare_cont_antisym mx my Eq). reflexivity.
Qed.

Lemma SFleb_of_compare (x y : spec_float) (c : comparison) :
  SFcompare x y = Some c ->
  SFleb x y = match c with Gt => false | _ => true end
  /\ SFleb y x = match c with Lt => false | _ => true end.
Proof.
  intro E. unfold SFleb. rewrite (SFcompare_antisym x y), E.
  destruct c; split; reflexivity.
Qed.

Lemma SFcompare_None (x y : spec_float) :
  SFcompare x y = None -> x = S754_nan \/ y = S754_nan.
Proof.
  destruct x as [sx|sx| |sx mx ex], y as [sy|sy| |sy my ey];
    cbn [SFcompare]; intro E; try discriminate E; auto.
Qed.

(** [Math.min(Math.max(x, lo), hi)] for two finite bounds in order. *)
Lemma b64_min_max (lo hi x : spec_float) :
  lo <> S754_nan -> hi <> S754_nan -> B64.is_neg_zero hi = false ->
  SFcompare lo hi = Some Lt ->
  match x with
  | S754_nan => B64.min (B64.max x lo) hi = S754_nan
  | _ => SFleb lo (B64.min (B64.max x lo) hi) = true
         /\ SFleb (B64.min (B64.max x lo) hi) hi = true
  end.
Proof.
  intros Hlo Hhi Hz Hlt.
  assert (Hll : SFleb lo lo = true).
  { unfold SFleb. destruct (SFcompare lo lo) as [c|] eqn:E.
    - pose proof (SFcompare_antisym lo lo) as A. rewrite E in A.
      destruct c; try reflexivity; discriminate A.
    - destruct (SFcompare_None _ _ E); contradiction. }
  assert (Hhh : SFleb hi hi = true).
  { unfold SFleb. destruct (SFcompare hi hi) as [c|] eqn:E.
    - pose proof (SFcompare_antisym hi hi) as A. rewrite E in A.
      destruct c; try reflexivity; discriminate A.
    - destruct (SFcompare_None _ _ E); contradiction. }
  destruct (SFleb_of_compare _ _ Hlt) as [Hlh _].
  assert (Hcase : x = S754_nan
                  \/ (x <> S754_nan
                      /\ SFleb lo (B64.min (B64.max x lo) hi) = true
                      /\ SFleb (B64.min (B64.max x lo) hi) hi = true)).
  { destruct (SFcompare x lo) as [c1|] eqn:E1.
    - right. split; [intro N; subst x; discriminate E1|].
      assert (Hm : B64.max x lo = lo /\ c1 <> Gt
                   \/ B64.max x lo = x /\ c1 <> Lt).
      { unfold B64.max. rewrite E1. destruct c1.
        - destruct (B64.is_neg_zero x); [left | right]; split; congruence.
        - left; split; congruence.
        - right; split; congruence. }
      destruct Hm as [[-> _]|[-> Hc1]].
      + unfold B64.min. rewrite Hlt. split; assumption.
      + destruct (SFleb_of_compare _ _ E1) as [_ Hlx].
        assert (Hlx' : SFleb lo x = true) by (destruct c1; congruence).
        unfold B64.min. destruct (SFcompare x hi) as [c2|] eqn:E2.
        * destruct (SFleb_of_compare _ _ E2) as [Hxh _].
          destruct c2.
          -- destruct (B64.is_pos_zero x); split; assumption.
          -- split; assumption.
          -- split; assumption.
        * destruct (SFcompare_None _ _ E2) as [N|N]; [|contradiction].
          subst x. discriminate E1.
    - destruct (SFcompare_None _ _ E1); [left; assumption | contradiction]. }
  destruct Hcase as [->|(Hx & H1 & H2)].
  - unfold B64.max. cbn [SFcompare]. reflexivity.
  - destruct x; try (split; assumption); contradiction.
Qed.

(** [Math.max(lo, Math.min(hi, x))] for two bounds in order. *)
Lemma b64_max_min (lo hi x : spec_float) :
  lo <> S754_nan -> hi <> S754_nan -> B64.is_pos_zero hi = false ->
  SFcompare lo hi = Some Lt ->
  match x with
  | S754_nan => B64.max lo (B64.min hi x) = S754_nan
  | _ => SFleb lo (B64.max lo (B64.min hi x)) = true
         /\ SFleb (B64.max lo (B64.min hi x)) hi = true
  end.
Proof.
  intros Hlo Hhi Hz Hlt.
  assert (Hll : SFleb lo lo = true).
  { unfold SFleb. destruct (SFcompare lo lo) as [c|] eqn:E.
    - pose proof (SFcompare_antisym lo lo) as A. rewrite E in A.
      destruct c; try reflexivity; discriminate A.
    - destruct (SFcompare_None _ _ E); contradiction. }
  assert (Hhh : SFleb hi hi = true).
  { unfold SFleb. destruct (SFcompare hi hi) as [c|] eqn:E.
    - pose proof (SFcompare_antisym hi hi) as A. rewrite E in A.
      destruct c; try reflexivity; discriminate A.
    - destruct (SFcompare_None _ _ E); contradiction. }
  destruct (SFleb_of_compare _ _ Hlt) as [Hlh _].
  assert (Hcase : x = S754_nan
                  \/ (x <> S754_nan
                      /\ SFleb lo (B64.max lo (B64.min hi x)) = true
                      /\ SFleb (B64.max lo (B64.min hi x)) hi = true)).
  { destruct (SFcompare hi x) as [c1|] eqn:E1.
    - right. split; [intro N; subst x; destruct hi; discriminate E1|].
      assert (Hm : B64.min hi x = hi \/ B64.min hi x = x /\ c1 = Gt).
      { unfold B64.min. rewrite E1, Hz. destruct c1; auto. }
      destruct Hm as [->|[-> ->]].
      + unfold B64.max. rewrite Hlt. split; assumption.
      + destruct (SFleb_of_compare _ _ E1) as [_ Hxh]. cbn in Hxh.
        unfold B64.max. destruct (SFcompare lo x) as [c2|] eqn:E2.
        * destruct (SFleb_of_compare _ _ E2) as [Hlx _].
          destruct c2.
          -- destruct (B64.is_neg_zero lo); split; assumption.
          -- split; assumption.
          -- split; assumption.
        * destruct (SFcompare_None _ _ E2) as [N|N]; [contradiction|].
          subst x. destruct hi; discriminate E1.
    - destruct (SFcompare_None _ _ E1); [contradiction | left; assumption]. }
  destruct Hcase as [->|(Hx & H1 & H2)].
  - unfold B64.min. destruct hi; cbn [SFcompare B64.max]; try reflexivity;
      destruct lo; reflexivity.
  - destruct x; try (split; assumption); contradiction.
Qed.

(** X14: in binary64, for every image size and every settings record, the
    clamped column count is [NaN] exactly when the raw count is, and
    otherwise lies between 40 and 600: infinities and out-of-range counts
    are brought into the range, only [NaN] gets through (and then
    [getImageData] throws). *)
Theorem X14_column_clamp_in_binary64 :
  forall (w h : b64) (s : AsciiSettings b64),
    let g := geometry w h s in
    match cols g with
    | S754_nan => safeCols g = S754_nan
    | _ => SFleb (of_Z 40) (safeCols g) = true
           /\ SFleb (safeCols g) (of_Z 600) = true
    end.
Proof.
  intros w h s g. unfold g. rewrite geometry_safeCols.
  cbn [jsmin jsmax b64_number].
  apply b64_min_max; try discriminate; reflexivity.
Qed.

(** X15: in binary64, for every settings record with [invert] clear, every
    contrast factor and every sample, the tone of a cell is the clamp of the
    contrast line; it is [NaN] exactly when the contrast line yields [NaN]
    and otherwise lies between 0 and 255, infinities included. *)
Theorem X15_tone_clamp_in_binary64 :
  forall (s : AsciiSettings b64) (cf r g b : b64),
    let pre :=
      applyContrast cf
        (add (add (add (mul (dec 299 3) r) (mul (dec 587 3) g))
                  (mul (dec 114 3) b))
             (brightness s)) in
    let tone := cellGray (withInvert false s) cf r g b in
    tone = jsmax (of_Z 0) (jsmin (of_Z 255) pre)
    /\ match pre with
       | S754_nan => tone = S754_nan
       | _ => SFleb (of_Z 0) tone = true /\ SFleb tone (of_Z 255) = true
       end.
Proof.
  intros s cf r g b pre tone.
  assert (E : tone = jsmax (of_Z 0) (jsmin (of_Z 255) pre)) by reflexivity.
  split; [exact E|]. rewrite E. cbn [jsmin jsmax b64_number].
  apply b64_max_min; try discriminate; reflexivity.
Qed.

(** ** The reads of the loops *)

(** X20: in either arithmetic, the loops never read outside the sampled
    buffer: when the buffer holds four samples for each of the [cols * rows]
    cells, every cell inside the grid finds its red, green and blue samples,
    at [4 * (y * cols + x)] and the two places after it, and its glyph is
    computed from these three numbers. *)
Theorem X20_reads_stay_inside_the_buffer :
  forall (num : Type) (N : JsNumber num) (s : AsciiSettings num)
         (c r : nat) (data : list Z) (y x : nat),
    List.length data = (4 * (c * r))%nat -> (y < r)%nat -> (x < c)%nat ->
    exists vr vg vb : Z,
      nth_error data (4 * (y * c + x)) = Some vr
      /\ nth_error data (4 * (y * c + x) + 1) = Some vg
      /\ nth_error data (4 * (y * c + x) + 2) = Some vb
      /\ cellAt s (Z.of_nat c) data y x
         = paint (cellChar s (of_Z vr) (of_Z vg) (of_Z vb)).
Proof.
  intros num N s c r data y x Hlen Hy Hx.
  assert (Hk : (4 * (y * c + x) + 3 < List.length data)%nat) by nia.
  assert (Hget : forall j, (j < 3)%nat ->
            exists v, nth_error data (4 * (y * c + x) + j) = Some v).
  { intros j Hj.
    destruct (nth_error data (4 * (y * c + x) + j)) as [v|] eqn:E;
      [now exists v|].
    apply nth_error_None in E. lia. }
  destruct (Hget 0%nat) as [vr Hr]; [lia|].
  destruct (Hget 1%nat) as [vg Hg]; [lia|].
  destruct (Hget 2%nat) as [vb Hb]; [lia|].
  rewrite Nat.add_0_r in Hr.
  exists vr, vg, vb. repeat split; try assumption.
  unfold cellAt, sample.
  replace (Z.to_nat ((Z.of_nat y * Z.of_nat c + Z.of_nat x) * 4))
    with (4 * (y * c + x))%nat by lia.
  replace (Z.to_nat ((Z.of_nat y * Z.of_nat c + Z.of_nat x) * 4 + 1))
    with (4 * (y * c + x) + 1)%nat by lia.
  replace (Z.to_nat ((Z.of_nat y * Z.of_nat c + Z.of_nat x) * 4 + 2))
    with (4 * (y * c + x) + 2)%nat by lia.
  now rewrite Hr, Hg, Hb.
Qed.

Lemma X20_reads_stay_inside_the_buffer_witness :
  exists vr vg vb : Z,
    nth_error [1; 2; 3; 255; 4; 5; 6; 255]%Z (4 * (0 * 2 + 1)) = Some vr
    /\ nth_error [1; 2; 3; 255; 4; 5; 6; 255]%Z (4 * (0 * 2 + 1) + 1) = Some vg
    /\ nth_error [1; 2; 3; 255; 4; 5; 6; 255]%Z (4 * (0 * 2 + 1) + 2) = Some vb
    /\ cellAt (num := b64) defaultSettings (Z.of_nat 2)
         [1; 2; 3; 255; 4; 5; 6; 255]%Z 0 1
       = paint (cellChar defaultSettings (of_Z vr) (of_Z vg) (of_Z vb)).
Proof.
  apply (@X20_reads_stay_inside_the_buffer b64 _ defaultSettings 2 1
           [1; 2; 3; 255; 4; 5; 6; 255]%Z 0 1); try reflexivity; lia.
Defined.

(** ** A resolution that is not a number *)


(** * Properties of the image service and of the application *)

(** ** The image service *)

Lemma firstInlineImage_first (before after : list Part) (part : Part)
    (d : InlineData) :
  Forall (fun q => inlineData q = None) before ->
  inlineData part = Some d ->
  firstInlineImage (before ++ part :: after)
  = Some (units "data:image/png;base64," ++ interpolate (data d)).
Proof.
  intros Hb Hp. induction Hb as [|q before Hq _ IH]; cbn [app firstInlineImage].
  - now rewrite Hp.
  - now rewrite Hq.
Qed.

Lemma firstInlineImage_none (ps : list Part) :
  firstInlineImage ps = None <-> Forall (fun q => inlineData q = None) ps.
Proof.
  induction ps as [|q ps IH]; cbn [firstInlineImage].
  - split; [constructor | reflexivity].
  - destruct (inlineData q) eqn:E.
    + split; [discriminate | intro H; inversion H; congruence].
    + rewrite IH. split; [now constructor | intro H; now inversion H].
Qed.

Lemma firstInlineImage_some (ps : list Part) (url : js_string) :
  firstInlineImage ps = Some url ->
  exists before part after d,
    ps = before ++ part :: after
    /\ Forall (fun q => inlineData q = None) before
    /\ inlineData part = Some d
    /\ url = units "data:image/png;base64," ++ interpolate (data d).
Proof.
  induction ps as [|q ps IH]; cbn [firstInlineImage]; [discriminate|].
  destruct (inlineData q) as [d|] eqn:E.
  - intro H. injection H as <-. exists [], q, ps, d. repeat split; auto.
  - intro H. destruct (IH H) as (before & part & after & d & -> & Hb & Hp & Hu).
    exists (q :: before), part, after, d. repeat split; auto.
Qed.

(** X16: the service returns the first part of the first candidate that
    carries inline data, whatever comes after it and whatever the other
    candidates hold, as a data URL that always announces [image/png]; a
    missing [data] field prints as [undefined].  One request is sent, with
    the model [gemini-2.5-flash-image] and the prompt as given, and nothing
    is logged. *)
Theorem X16_first_inline_part_wins
    (ai : Client) (prompt : js_string) (response : GenerateContentResponse)
    (before after : list Part) (part : Part) (d : InlineData) :
  let params := {| model := units "gemini-2.5-flash-image"; contents := prompt |} in
  ai params = inr response ->
  responseParts response = before ++ part :: after ->
  Forall (fun q => inlineData q = None) before ->
  inlineData part = Some d ->
  generateSourceImage ai prompt
  = ([Request params],
     inr (units "data:image/png;base64," ++ interpolate (data d))).
Proof.
  intros params Hai Hparts Hb Hp. unfold generateSourceImage. fold params.
  rewrite Hai, Hparts, (@firstInlineImage_first before after part d Hb Hp).
  reflexivity.
Qed.

Lemma X16_first_inline_part_wins_witness :
  let textPart := {| text := Some (units "here it is"); inlineData := None |} in
  let image1 := {| text := None; inlineData := Some {| data := Some (units "AAAA") |} |} in
  let image2 := {| text := None; inlineData := Some {| data := Some (units "BBBB") |} |} in
  let image3 := {| text := None; inlineData := Some {| data := None |} |} in
  let response :=
    {| candidates :=
         Some [ {| content := Some {| parts := Some [textPart; image1; image2] |} |};
                {| content := Some {| parts := Some [image3] |} |} ] |} in
  let ai : Client := fun _ => inr response in
  generateSourceImage ai (units "a cat")
  = ([Request {| model := units "gemini-2.5-flash-image";
                 contents := units "a cat" |}],
     inr (units "data:image/png;base64,AAAA")).
Proof.
  intros textPart image1 image2 image3 response ai.
  apply (@X16_first_inline_part_wins ai (units "a cat") response
           [textPart] [image2] image1 {| data := Some (units "AAAA") |});
    try reflexivity.
  repeat constructor.
Defined.

(** X17: every outcome of the service.  It throws exactly when the remote
    call fails, in which case the error of the call is thrown on unchanged,
    or when no part of the first candidate carries inline data (no
    candidates, no content, no parts, or text only), in which case the error
    reads "No image data found in response".  Either way the error thrown is
    the one logged, once, after the one request.  When it returns, the result
    starts with [data:image/png;base64,] and nothing is logged. *)
Theorem X17_service_outcomes :
  forall (ai : Client) (prompt : js_string),
    let params := {| model := units "gemini-2.5-flash-image"; contents := prompt |} in
    match generateSourceImage ai prompt with
    | (effects, inl error) =>
        effects = [Request params;
                   ConsoleError (units "Gemini Image Generation Error:") error]
        /\ (ai params = inl error
            \/ exists response,
                 ai params = inr response
                 /\ Forall (fun q => inlineData q = None) (responseParts response)
                 /\ error = {| message := units "No image data found in response" |})
    | (effects, inr url) =>
        effects = [Request params]
        /\ exists response before part after d,
             ai params = inr response
             /\ responseParts response = before ++ part :: after
             /\ Forall (fun q => inlineData q = None) before
             /\ inlineData part = Some d
             /\ url = units "data:image/png;base64," ++ interpolate (data d)
    end.
Proof.
  intros ai prompt params. unfold generateSourceImage. fold params.
  destruct (ai params) as [error|response] eqn:Hai.
  - split; [reflexivity | left; reflexivity].
  - destruct (firstInlineImage (responseParts response)) as [url|] eqn:Hf.
    + split; [reflexivity|].
      destruct (@firstInlineImage_some _ _ Hf)
        as (before & part & after & d & Hps & Hb & Hp & Hu).
      exists response, before, part, after, d. repeat split; assumption.
    + split; [reflexivity|]. right. exists response.
      repeat split. now apply firstInlineImage_none.
Qed.

(** ** The generate handler *)

Lemma trimStart_head (s rest : js_string) (u : code_unit) :
  trimStart s = u :: rest -> isWhiteSpace u = false.
Proof.
  induction s as [|v s IH]; cbn [trimStart]; [discriminate|].
  destruct (isWhiteSpace v) eqn:E; [exact IH|].
  intro H. injection H as <- _. exact E.
Qed.

Lemma trimStart_blank (s : js_string) :
  trimStart s = [] <-> forallb isWhiteSpace s = true.
Proof.
  induction s as [|v s IH]; cbn [trimStart forallb]; [tauto|].
  destruct (isWhiteSpace v); cbn [andb]; [exact IH|].
  split; discriminate.
Qed.

Lemma forallb_rev (A : Type) (f : A -> bool) (l : list A) :
  forallb f (rev l) = forallb f l.
Proof.
  induction l as [|a l IH]; [reflexivity|].
  cbn [rev forallb]. rewrite forallb_app, IH. cbn [forallb].
  rewrite andb_true_r. apply andb_comm.
Qed.

(** [!s.trim()] holds exactly for the strings made of white space only. *)
Lemma trim_blank (s : js_string) :
  falsy (trim s) = forallb isWhiteSpace s.
Proof.
  unfold trim.
  destruct (forallb isWhiteSpace s) eqn:E.
  - apply trimStart_blank in E. rewrite E. reflexivity.
  - destruct (trimStart s) as [|u t] eqn:Et.
    + apply trimStart_blank in Et. congruence.
    + pose proof (@trimStart_head _ _ _ Et) as Hu.
      destruct (trimStart (rev (u :: t))) as [|v t'] eqn:Er.
      * apply trimStart_blank in Er. rewrite forallb_rev in Er.
        cbn [forallb] in Er. rewrite Hu in Er. discriminate Er.
      * cbn [rev]. destruct (rev t' ++ [v]) eqn:Ea; [|reflexivity].
        apply app_eq_nil in Ea. destruct Ea as [_ Ea]. discriminate Ea.
Qed.

(** X18: a prompt of white space only (the empty prompt included) makes the
    generate handler do nothing: no request is sent, nothing is alerted and
    the state is left as it was.  The button does not know: with a key set
    and no generation running it is enabled for every non-empty prompt, so
    for a prompt of spaces a click is accepted and silently dropped. *)
Theorem X18_blank_prompt_is_dropped :
  forall (num : Type) (ai : Client) (st : AppState num) (key : js_string),
    forallb isWhiteSpace (aiPrompt st) = true ->
    handleGenerateAi ai st = ([], st)
    /\ (aiPrompt st <> [] -> key <> [] -> uiState st <> GENERATING_AI ->
        generateDisabled (Some key) st = false).
Proof.
  intros num ai st key Hblank. split.
  - unfold handleGenerateAi. now rewrite trim_blank, Hblank.
  - intros Hp Hk Hu. unfold generateDisabled.
    destruct (uiState st); try contradiction;
      destruct key; try contradiction;
      destruct (aiPrompt st); try contradiction; reflexivity.
Qed.

Lemma X18_blank_prompt_is_dropped_witness :
  let st := {| imageSrc := None; settings := defaultSettings (num := xnum);
               uiState := IDLE; aiPrompt := units "   " |} in
  let ai : Client := fun _ => inl {| message := units "offline" |} in
  handleGenerateAi ai st = ([], st)
  /\ (aiPrompt st <> [] -> units "key" <> [] -> uiState st <> GENERATING_AI ->
      generateDisabled (Some (units "key")) st = false).
Proof.
  intros st ai.
  apply (@X18_blank_prompt_is_dropped xnum ai st (units "key")). reflexivity.
Defined.

(** X19: for a prompt that is not blank the handler sends one request, whose
    text is the prompt as typed (not trimmed) followed by the fixed style
    suffix, and always ends in the [IDLE] state with the settings and the
    prompt untouched.  If the service returns an image it becomes the image
    source and nothing is alerted; if the service throws, the image source
    is kept, the error is logged by the service and then the one alert
    "Failed to generate image." is raised. *)
Theorem X19_generation_always_returns_to_idle :
  forall (num : Type) (ai : Client) (st : AppState num),
    forallb isWhiteSpace (aiPrompt st) = false ->
    let params := {| model := units "gemini-2.5-flash-image";
                     contents := aiPrompt st ++ promptSuffix |} in
    let effects := fst (handleGenerateAi ai st) in
    let st' := snd (handleGenerateAi ai st) in
    uiState st' = IDLE /\ settings st' = settings st
    /\ aiPrompt st' = aiPrompt st
    /\ match generateSourceImage ai (aiPrompt st ++ promptSuffix) with
       | (_, inr url) => effects = [Request params] /\ imageSrc st' = Some url
       | (_, inl error) =>
           effects = [Request params;
                      ConsoleError (units "Gemini Image Generation Error:") error;
                      Alert (units "Failed to generate image.")]
           /\ imageSrc st' = imageSrc st
       end.
Proof.
  intros num ai st Hblank params effects st'.
  unfold effects, st', handleGenerateAi.
  rewrite trim_blank, Hblank. cbn [setUiState aiPrompt].
  unfold generateSourceImage. fold params.
  destruct (ai params) as [error|response].
  - repeat split; reflexivity.
  - destruct (firstInlineImage (responseParts response)) as [url|];
      repeat split; reflexivity.
Qed.

Lemma X19_generation_always_returns_to_idle_witness :
  let st := {| imageSrc := Some (units "data:old"); settings := defaultSettings (num := xnum);
               uiState := IDLE; aiPrompt := units " a cat" |} in
  let ai : Client := fun _ => inl {| message := units "offline" |} in
  let params := {| model := units "gemini-2.5-flash-image";
                   contents := aiPrompt st ++ promptSuffix |} in
  let effects := fst (handleGenerateAi ai st) in
  let st' := snd (handleGenerateAi ai st) in
  uiState st' = IDLE /\ settings st' = settings st
  /\ aiPrompt st' = aiPrompt st
  /\ match generateSourceImage ai (aiPrompt st ++ promptSuffix) with
     | (_, inr url) => effects = [Request params] /\ imageSrc st' = Some url
     | (_, inl error) =>
         effects = [Request params;
                    ConsoleError (units "Gemini Image Generation Error:") error;
                    Alert (units "Failed to generate image.")]
         /\ imageSrc st' = imageSrc st
     end.
Proof.
  intros st ai.
  apply (@X19_generation_always_returns_to_idle xnum ai st). reflexivity.
Defined.
